(** * Session registries of the FileCommander MCP server

    A shallow embedding of the two in-memory registries of [src/index.ts]:
    the background directory searches ([searchSessions]) and the interactive
    subprocess sessions ([processSessions]), together with the wildcard
    pattern compiler and the cooperative traversal that feed them.

    Conventions.
    - A tool handler [async (params) => {...}] that reads or mutates a
      registry is a function from the registry (and the parts of the outside
      world it consults) to its reply and the registry it leaves behind.
    - A reply [{ isError, content: [{type: "text", text}] }] is a
      [ToolResult]: the flag, and the message template that was chosen
      together with the values interpolated into it.
    - A JavaScript [Map<string, _>] is a [gmap string _], with the order of
      its keys kept beside it where a handler shows its enumeration.
    - A JavaScript string handed to a regular expression is the list of its
      UTF-16 code units ([jsstring]); session ids, commands and transcript
      chunks are Rocq strings.
    - The event loop runs one callback at a time.  A request handler and an
      event handler of a child process are each one step on the state.  A
      background traversal gives way to them wherever it awaits a directory
      listing: the handler that starts it runs it as far as its first
      [await], and each later turn, from the arrival of a listing to the next
      [await] or to the end of the traversal, is one step. *)

From Stdlib Require Import ZArith NArith Ascii String.
From stdpp Require Import gmap strings list fin_maps pretty.

Local Open Scope Z_scope.

(** ** Array.prototype.slice *)

Module JsArray.

(** Steps 3-7 of [Array.prototype.slice]: a negative index counts from the
    end, and both ends are clamped to [0 .. len]. *)
Definition relative_index (len i : Z) : Z :=
  if i <? 0 then Z.max (len + i) 0 else Z.min i len.

(** [l.slice(start, stop)] for integral arguments. *)
Definition slice {A} (l : list A) (start stop : Z) : list A :=
  let len := Z.of_nat (length l) in
  let k := relative_index len start in
  let final := relative_index len stop in
  take (Z.to_nat (Z.max (final - k) 0)) (drop (Z.to_nat k) l).

(** [l.slice(start)]: the end defaults to the length. *)
Definition slice_from {A} (l : list A) (start : Z) : list A :=
  slice l start (Z.of_nat (length l)).

Lemma slice_nonneg {A} (l : list A) (start stop : Z) :
  0 <= start -> 0 <= stop ->
  slice l start stop
  = take (Z.to_nat stop - Z.to_nat start) (drop (Z.to_nat start) l).
Proof.
  intros Hs He. unfold slice, relative_index.
  destruct (Z.ltb_spec start 0) as [?|_]; [lia|].
  destruct (Z.ltb_spec stop 0) as [?|_]; [lia|].
  set (len := Z.of_nat (length l)).
  destruct (Z.le_gt_cases len start) as [Hge|Hlt].
  - rewrite (Z.min_r start len) by lia.
    rewrite !drop_ge by lia. by rewrite !take_nil.
  - rewrite (Z.min_l start len) by lia.
    destruct (Z.le_gt_cases len stop) as [Hge'|Hlt'].
    + rewrite (Z.min_r stop len) by lia.
      rewrite !take_ge; [done | rewrite length_drop; lia ..].
    + rewrite (Z.min_l stop len) by lia. f_equal. lia.
Qed.

Lemma slice_from_last {A} (l : list A) (n : nat) :
  (0 < n)%nat ->
  slice_from l (- Z.of_nat n) = drop (length l - n) l.
Proof.
  intros Hn. unfold slice_from, slice, relative_index.
  set (len := Z.of_nat (length l)).
  destruct (Z.ltb_spec len 0) as [?|_]; [lia|].
  rewrite Z.min_id.
  destruct (Z.ltb_spec (- Z.of_nat n) 0) as [_|?]; [|lia].
  replace (Z.to_nat (Z.max (len + - Z.of_nat n) 0)) with (length l - n)%nat by lia.
  apply take_ge. rewrite length_drop. lia.
Qed.

End JsArray.

(** ** Replies *)

(** [{ isError?: true, content: [{ type: "text", text }] }]; [content] is the
    message template the handler chose, with its interpolated values. *)
Record ToolResult (M : Type) := mkToolResult { isError : bool; content : M }.
Arguments mkToolResult {M} _ _.
Arguments isError {M} _.
Arguments content {M} _.

Definition ok {M} (m : M) : ToolResult M := mkToolResult false m.
Definition failed {M} (m : M) : ToolResult M := mkToolResult true m.

(** ** Process session registry *)

Module Process.

(** The two signals [fc_close_session] passes to [ChildProcess.kill]. *)
Inductive Signal := SIGTERM | SIGKILL.

(** [interface ProcessSession].  [process] is the handle of the spawned
    child; the operating-system side of it is the [killLog] of [State]. *)
Record ProcessSession := mkProcessSession {
  id : string;
  process : nat;
  command : string;
  args : list string;
  cwd : string;
  startTime : N;
  output : list string;
  isRunning : bool
}.

Definition set_output (o : list string) (s : ProcessSession) : ProcessSession :=
  mkProcessSession (id s) (process s) (command s) (args s) (cwd s) (startTime s) o (isRunning s).

Definition set_isRunning (b : bool) (s : ProcessSession) : ProcessSession :=
  mkProcessSession (id s) (process s) (command s) (args s) (cwd s) (startTime s) (output s) b.

(** [session.output.push(chunk)] *)
Definition push (chunk : string) (s : ProcessSession) : ProcessSession :=
  set_output (output s ++ [chunk]) s.

(** [processSessions], [sessionCounter], and the signals that have been
    delivered to child handles so far.  A [Map] enumerates its keys in the
    order in which they were first set: [insertionOrder] is that order. *)
Record State := mkState {
  processSessions : gmap string ProcessSession;
  insertionOrder : list string;
  sessionCounter : N;
  killLog : list (nat * Signal)
}.

(** A change of the session objects that sets and deletes no key. *)
Definition set_processSessions (m : gmap string ProcessSession) (st : State) : State :=
  mkState m (insertionOrder st) (sessionCounter st) (killLog st).

(** [processSessions.set(key, session)]: a new key goes to the end of the
    enumeration, a key that is there keeps its place. *)
Definition Map_set (key : string) (session : ProcessSession) (st : State) : State :=
  mkState (<[key := session]> (processSessions st))
          (match processSessions st !! key with
           | Some _ => insertionOrder st
           | None => insertionOrder st ++ [key]
           end)
          (sessionCounter st) (killLog st).

(** [processSessions.delete(key)] *)
Definition Map_delete (key : string) (st : State) : State :=
  mkState (delete key (processSessions st))
          (filter (fun k => k ≠ key) (insertionOrder st))
          (sessionCounter st) (killLog st).

Definition LF : string := String (ascii_of_nat 10) EmptyString.

(** [`${code}`] for the [number | null] exit code of the close event. *)
Definition code_text (code : option Z) : string :=
  match code with Some z => pretty z | None => "null" end.

(** *** The event handlers installed by [fc_start_session] *)

(** [proc.stdout?.on('data', ...)] *)
Definition on_stdout_data (data : string) (session : ProcessSession) : ProcessSession :=
  let session := push data session in
  if (1000 <? length (output session))%nat
  then set_output (JsArray.slice_from (output session) (-500)) session
  else session.

(** [proc.stderr?.on('data', ...)] *)
Definition on_stderr_data (data : string) (session : ProcessSession) : ProcessSession :=
  push ("[stderr] " +:+ data) session.

(** [proc.on('close', ...)] *)
Definition on_close (code : option Z) (session : ProcessSession) : ProcessSession :=
  push (LF +:+ "[Prozess beendet mit Code " +:+ code_text code +:+ "]")
       (set_isRunning false session).

(** [proc.on('error', ...)] *)
Definition on_error (message : string) (session : ProcessSession) : ProcessSession :=
  push (LF +:+ "[Fehler: " +:+ message +:+ "]") (set_isRunning false session).

Inductive Event :=
| StdoutData (data : string)
| StderrData (data : string)
| Close (code : option Z)
| Error (message : string).

Definition handle (ev : Event) : ProcessSession -> ProcessSession :=
  match ev with
  | StdoutData data => on_stdout_data data
  | StderrData data => on_stderr_data data
  | Close code => on_close code
  | Error message => on_error message
  end.

(** An event of the child of session [sessionId] runs its handler on that
    session object. *)
Definition deliver (sessionId : string) (ev : Event) (st : State) : State :=
  set_processSessions (alter (handle ev) sessionId (processSessions st)) st.

(** The events of the child of session [sessionId], in arrival order. *)
Definition run_events (sessionId : string) (events : list Event) (st : State) : State :=
  foldl (fun st ev => deliver sessionId ev st) st events.

(** *** Tool handlers *)

Inductive Message :=
| SessionStarted (sessionId command : string) (args : list string) (pid : nat) (cwd : string)
| StartFailed
| ReadSessionNotFound (sessionId : string)
| SessionNotFound (sessionId : string)
| SessionOutput (running : bool) (body : string)
| NoSessions
| SessionTable (rows : list (bool * string * string * nat))
| SessionClosed (sessionId : string).

(** [generateSessionId] *)
Definition generateSessionId (now : N) (st : State) : string * State :=
  let counter := (sessionCounter st + 1)%N in
  ("session_" +:+ pretty counter +:+ "_" +:+ pretty now,
   mkState (processSessions st) (insertionOrder st) counter (killLog st)).

(** [fc_start_session].  [now] is [Date.now()], [cwd] the working directory
    after defaulting and normalisation, and [spawned] what [spawn] gave:
    the child handle, or nothing when it threw. *)
Definition fc_start_session (now : N) (spawned : option nat)
    (command : string) (args : list string) (cwd : string) (st : State)
  : ToolResult Message * State :=
  let '(sessionId, st) := generateSessionId now st in
  match spawned with
  | None => (failed StartFailed, st)
  | Some proc =>
      let session := mkProcessSession sessionId proc command args cwd now [] true in
      (ok (SessionStarted sessionId command args proc cwd), Map_set sessionId session st)
  end.

(** [output || '(kein Output)'] *)
Definition or_placeholder (output : string) : string :=
  if decide (output = EmptyString) then "(kein Output)" else output.

(** [fc_read_output] *)
Definition fc_read_output (session_id : string) (clear : bool) (st : State)
  : ToolResult Message * State :=
  match processSessions st !! session_id with
  | None => (failed (ReadSessionNotFound session_id), st)
  | Some session =>
      let output_ := String.concat EmptyString (output session) in
      let status := isRunning session in
      let st :=
        if clear
        then set_processSessions (<[session_id := set_output [] session]> (processSessions st)) st
        else st in
      (ok (SessionOutput status (or_placeholder output_)), st)
  end.

(** [fc_list_sessions]; the rows come in the enumeration order of the
    [Map]. *)
Definition fc_list_sessions (st : State) : ToolResult Message :=
  if decide (size (processSessions st) = 0%nat) then ok NoSessions
  else ok (SessionTable
             (omap (fun id_ =>
                      (fun session =>
                         (isRunning session, id_, command session, process session))
                        <$> processSessions st !! id_)
                   (insertionOrder st))).

(** [session.process.kill(signal)]: the signal goes out to the child.  The
    call reports through its boolean result and raises only for a signal
    name the platform does not know, which neither of the two is; the
    [catch] arm of [fc_close_session] is therefore not entered. *)
Definition kill (proc : nat) (signal : Signal) (st : State) : State :=
  mkState (processSessions st) (insertionOrder st) (sessionCounter st)
          (killLog st ++ [(proc, signal)]).

(** [fc_close_session] *)
Definition fc_close_session (session_id : string) (force : bool) (st : State)
  : ToolResult Message * State :=
  match processSessions st !! session_id with
  | None => (failed (SessionNotFound session_id), st)
  | Some session =>
      let st :=
        if isRunning session
        then if force then kill (process session) SIGKILL st
             else kill (process session) SIGTERM st
        else st in
      (ok (SessionClosed session_id), Map_delete session_id st)
  end.

(** The session ids a [fc_list_sessions] reply shows. *)
Definition listed_ids (r : ToolResult Message) : list string :=
  match content r with
  | SessionTable rows => (fun row => row.1.1.2) <$> rows
  | _ => []
  end.

(** The enumeration holds the keys of the map, each once: what is true of
    every [Map]. *)
Definition enumerates (st : State) : Prop :=
  NoDup (insertionOrder st)
  /\ forall k, k ∈ insertionOrder st <-> is_Some (processSessions st !! k).

(** [chunk] occurs in [text]. *)
Definition occurs_in (chunk text : string) : Prop :=
  exists before after, text = before +:+ chunk +:+ after.


(** *** Transcript retention *)

Lemma String_append_cons (a : ascii) (s t : string) :
  String a s +:+ t = String a (s +:+ t).
Proof. reflexivity. Qed.

Lemma String_append_nil_r (s : string) : s +:+ EmptyString = s.
Proof. induction s as [|a s IH]; [done|]. by rewrite String_append_cons, IH. Qed.

Lemma String_append_assoc (a b c : string) : (a +:+ b) +:+ c = a +:+ (b +:+ c).
Proof. induction a as [|x a IH]; [done|]. by rewrite !String_append_cons, IH. Qed.

Lemma String_concat_cons (x : string) (xs : list string) :
  String.concat EmptyString (x :: xs) = x +:+ String.concat EmptyString xs.
Proof. destruct xs; [|done]. cbn [String.concat]. by rewrite String_append_nil_r. Qed.

Lemma String_concat_app (xs ys : list string) :
  String.concat EmptyString (xs ++ ys)
  = String.concat EmptyString xs +:+ String.concat EmptyString ys.
Proof.
  induction xs as [|x xs IH]; [done|].
  rewrite <- app_comm_cons, !String_concat_cons, IH.
  by rewrite String_append_assoc.
Qed.

Lemma occurs_in_concat (chunk : string) (chunks : list string) :
  chunk ∈ chunks -> occurs_in chunk (String.concat EmptyString chunks).
Proof.
  intros (before & after & ->)%list_elem_of_split.
  exists (String.concat EmptyString before), (String.concat EmptyString after).
  by rewrite String_concat_app, String_concat_cons.
Qed.

Lemma or_placeholder_nonempty (text : string) :
  text ≠ EmptyString -> or_placeholder text = text.
Proof. intros H. unfold or_placeholder. by case_decide. Qed.

Lemma occurs_in_or_placeholder (chunk text : string) :
  occurs_in chunk text -> occurs_in chunk (or_placeholder text).
Proof.
  intros (before & after & ->). unfold or_placeholder.
  case_decide as Hempty; [|by exists before, after].
  destruct before; [|done]. destruct chunk; [|done].
  by exists "(kein Output)", EmptyString.
Qed.

Lemma output_on_stdout_data (data : string) (session : ProcessSession) :
  output (on_stdout_data data session)
  = if (1000 <? S (length (output session)))%nat
    then drop (length (output session) + 1 - 500) (output session ++ [data])
    else output session ++ [data].
Proof.
  unfold on_stdout_data, push. cbn [output set_output].
  rewrite length_app. cbn [length]. rewrite Nat.add_1_r.
  destruct (Nat.ltb_spec 1000 (S (length (output session)))); [|done].
  cbn [output set_output].
  change (-500) with (- Z.of_nat 500).
  rewrite JsArray.slice_from_last by lia.
  rewrite length_app. cbn [length]. f_equal. lia.
Qed.

(** Every chunk that comes in through the stdout handler leaves at most
    1000 chunks behind, whatever the length was before. *)
Lemma on_stdout_data_bounded (data : string) (session : ProcessSession) :
  (length (output (on_stdout_data data session)) <= 1000)%nat.
Proof.
  rewrite output_on_stdout_data.
  destruct (Nat.ltb_spec 1000 (S (length (output session)))).
  - rewrite length_drop, length_app. cbn [length]. lia.
  - rewrite length_app. cbn [length]. lia.
Qed.

Lemma on_stdout_data_evicts (data : string) (session : ProcessSession) :
  (1000 <= length (output session))%nat ->
  length (output (on_stdout_data data session)) = 500%nat
  /\ output (on_stdout_data data session)
     = drop (length (output session) - 499) (output session) ++ [data].
Proof.
  intros Hlen. rewrite output_on_stdout_data.
  destruct (Nat.ltb_spec 1000 (S (length (output session)))); [|lia].
  split.
  - rewrite length_drop, length_app. cbn [length]. lia.
  - rewrite drop_app_le by lia. f_equal. f_equal. lia.
Qed.

(** The stderr handler only ever appends. *)
Lemma on_stderr_data_grows (data : string) (session : ProcessSession) :
  length (output (on_stderr_data data session)) = S (length (output session)).
Proof.
  unfold on_stderr_data, push. cbn [output set_output].
  rewrite length_app. cbn [length]. lia.
Qed.

Lemma run_events_lookup (sessionId : string) (events : list Event) (st : State) :
  processSessions (run_events sessionId events st) !! sessionId
  = (fun session => foldl (fun session ev => handle ev session) session events)
      <$> processSessions st !! sessionId.
Proof.
  revert st. induction events as [|ev events IH]; intros st.
  - cbn. by destruct (processSessions st !! sessionId).
  - cbn [run_events foldl]. fold (run_events sessionId events (deliver sessionId ev st)).
    rewrite IH. unfold deliver. cbn [processSessions set_processSessions].
    rewrite lookup_alter_eq. by destruct (processSessions st !! sessionId).
Qed.

Lemma stderr_chunks_pile_up (data : string) (n : nat) (session : ProcessSession) :
  length (output (foldl (fun session ev => handle ev session) session
                    (replicate n (StderrData data))))
  = (length (output session) + n)%nat.
Proof.
  revert session. induction n as [|n IH]; intros session; cbn [replicate foldl].
  - lia.
  - rewrite IH. cbn [handle]. rewrite on_stderr_data_grows. lia.
Qed.

(** C1 (the retention bound holds after every append, from either
    stream): evaluated on a session that has just been started and whose
    child then writes 1001 chunks.  When they arrive on stdout the last of
    them triggers the eviction and 500 chunks are left; when they arrive on
    stderr each is appended without the check and 1001 chunks are left,
    above the bound of 1000. *)
Theorem stderr_append_escapes_retention_bound :
  let started := (fc_start_session 0 (Some 7%nat) "sh" [] "/" (mkState ∅ [] 0 [])).2 in
  let chunks_after events :=
    length ∘ output
      <$> processSessions (run_events "session_1_0" events started) !! "session_1_0" in
  chunks_after (replicate 1001 (StdoutData "y")) = Some 500%nat
  /\ chunks_after (replicate 1001 (StderrData "y")) = Some 1001%nat
  /\ ~ (1001 <= 1000)%nat.
Proof.
  cbv beta zeta. rewrite !run_events_lookup.
  change (processSessions _ !! "session_1_0")
    with (Some (mkProcessSession "session_1_0" 7 "sh" [] "/" 0 [] true)).
  cbn [fmap option_fmap option_map compose].
  split; [|split; [|lia]].
  - by vm_compute.
  - by rewrite stderr_chunks_pile_up.
Qed.

(** *** The enumeration of the sessions *)

Lemma Map_set_enumerates (key : string) (session : ProcessSession) (st : State) :
  enumerates st -> enumerates (Map_set key session st).
Proof.
  intros [Hnodup Hkeys]. unfold enumerates, Map_set. cbn [insertionOrder processSessions].
  destruct (processSessions st !! key) as [old|] eqn:Hkey.
  - split; [done|]. intros k. rewrite Hkeys, lookup_insert_is_Some.
    split; [intros Hk | intros [<-|[_ Hk]]; [by rewrite Hkey | done]].
    destruct (decide (key = k)); [by left | by right].
  - split.
    + apply NoDup_app. split; [done|]. split; [|apply NoDup_singleton].
      intros k Hk ->%list_elem_of_singleton. apply Hkeys in Hk as [? ?]. congruence.
    + intros k. rewrite elem_of_app, list_elem_of_singleton, Hkeys, lookup_insert_is_Some.
      split.
      * intros [Hk| ->]; [|by left]. right. split; [|done]. intros <-.
        destruct Hk. congruence.
      * intros [<-|[_ Hk]]; [by right | by left].
Qed.

Lemma Map_delete_enumerates (key : string) (st : State) :
  enumerates st -> enumerates (Map_delete key st).
Proof.
  intros [Hnodup Hkeys]. unfold enumerates, Map_delete. cbn [insertionOrder processSessions].
  split; [by apply NoDup_filter|].
  intros k. rewrite list_elem_of_filter, Hkeys, lookup_delete_is_Some.
  split; intros [? ?]; by split.
Qed.

Lemma set_processSessions_enumerates (m : gmap string ProcessSession) (st : State) :
  (forall k, is_Some (m !! k) <-> is_Some (processSessions st !! k)) ->
  enumerates st -> enumerates (set_processSessions m st).
Proof.
  intros Hm [Hnodup Hkeys]. split; [done|]. intros k. cbn. by rewrite Hm.
Qed.

(** When the enumeration holds the keys of the map, [fc_list_sessions]
    shows every session once, in the order in which they were started. *)
Lemma listed_ids_enumerates (st : State) :
  enumerates st -> listed_ids (fc_list_sessions st) = insertionOrder st.
Proof.
  intros [_ Hkeys]. unfold fc_list_sessions, listed_ids.
  case_decide as Hsize; cbn [content ok].
  - apply map_size_empty_iff in Hsize. destruct (insertionOrder st) as [|k order]; [done|].
    destruct (proj1 (Hkeys k) ltac:(left)) as [session Hk].
    by rewrite Hsize, lookup_empty in Hk.
  - assert (Forall (fun k => is_Some (processSessions st !! k)) (insertionOrder st))
      as Hall by (apply Forall_forall; intros k Hk; by apply Hkeys).
    clear Hkeys. induction Hall as [|k order [session Hk] _ IH]; [done|].
    cbn [omap list_omap]. rewrite Hk. cbn [fmap option_fmap option_map list_fmap].
    f_equal. apply IH.
Qed.

(** *** read *)

(** A session whose child has written nothing yet, beside one with
    output. *)
Definition demo_session : ProcessSession :=
  mkProcessSession "session_1_5" 7 "python" [] "/tmp" 5 ["a"; "[stderr] b"; "c"] true.

Definition quiet_session : ProcessSession :=
  mkProcessSession "session_2_9" 8 "sleep" ["60"] "/tmp" 9 [] true.

Definition demo_state : State :=
  mkState (<["session_2_9" := quiet_session]> {[ "session_1_5" := demo_session ]})
          ["session_1_5"; "session_2_9"] 2 [].

(** C9, as stated for a transcript without chunks: the concatenation of its
    chunks is the empty string, and what the read returns is not that but
    the fixed text put in its place. *)
Lemma fc_read_output_empty_counterexample :
  processSessions demo_state !! "session_2_9" = Some quiet_session
  /\ output quiet_session = []
  /\ String.concat EmptyString (output quiet_session) = EmptyString
  /\ (fc_read_output "session_2_9" false demo_state).1
     = ok (SessionOutput true "(kein Output)")
  /\ (fc_read_output "session_2_9" false demo_state).1
     <> ok (SessionOutput true (String.concat EmptyString (output quiet_session))).
Proof. by vm_compute. Qed.

(** C9 (amended, [read(id, clear)]): for a registered session the reply is
    a success whether or not the session still runs.  The text it carries is
    the in-order concatenation of all chunks of the transcript when that is
    not the empty string, and the fixed text [(kein Output)] when it is;
    either way every chunk of the transcript occurs in the text.  With
    [clear] the transcript of the session is empty after the call, nothing
    else of the session has changed, and no other session, the counter or
    the signals sent have; without [clear] the whole state is unchanged.  An
    unknown id gets the not-found error and changes nothing. *)
Theorem fc_read_output_spec (st : State) (session_id : string) (clear : bool)
    (session : ProcessSession) :
  processSessions st !! session_id = Some session ->
  let text := String.concat EmptyString (output session) in
  let reply := (fc_read_output session_id clear st).1 in
  let st' := (fc_read_output session_id clear st).2 in
  isError reply = false
  /\ (text <> EmptyString -> content reply = SessionOutput (isRunning session) text)
  /\ (text = EmptyString ->
      content reply = SessionOutput (isRunning session) "(kein Output)")
  /\ (exists body,
        content reply = SessionOutput (isRunning session) body
        /\ forall chunk, chunk ∈ output session -> occurs_in chunk body)
  /\ (clear = true ->
      (exists session',
          processSessions st' !! session_id = Some session'
          /\ output session' = []
          /\ id session' = id session /\ process session' = process session
          /\ command session' = command session /\ args session' = args session
          /\ cwd session' = cwd session /\ startTime session' = startTime session
          /\ isRunning session' = isRunning session)
      /\ (forall other, other <> session_id ->
            processSessions st' !! other = processSessions st !! other)
      /\ insertionOrder st' = insertionOrder st
      /\ sessionCounter st' = sessionCounter st /\ killLog st' = killLog st)
  /\ (clear = false -> st' = st)
  /\ (forall unknown, processSessions st !! unknown = None ->
        fc_read_output unknown clear st = (failed (ReadSessionNotFound unknown), st)).
Proof.
  intros Hreg text reply st'. subst reply st'. unfold fc_read_output. rewrite Hreg.
  fold text. cbn [fst snd isError ok content].
  split; [done|]. split.
  { intros Hne. by rewrite or_placeholder_nonempty. }
  split.
  { intros ->. done. }
  split.
  { eexists. split; [done|]. intros chunk Hin.
    by apply occurs_in_or_placeholder, occurs_in_concat. }
  split.
  { intros ->. cbn [processSessions set_processSessions insertionOrder sessionCounter
                    killLog].
    split; [|split; [|done]].
    - eexists. split; [apply lookup_insert_eq|]. by repeat split.
    - intros other Hne. by rewrite lookup_insert_ne. }
  split; [by intros ->|].
  intros unknown ->. done.
Qed.

Lemma fc_read_output_spec_witness :
  processSessions demo_state !! "session_1_5" = Some demo_session
  /\ content (fc_read_output "session_1_5" true demo_state).1
     = SessionOutput true "a[stderr] bc"
  /\ exists session',
       processSessions (fc_read_output "session_1_5" true demo_state).2 !! "session_1_5"
       = Some session'
       /\ output session' = [].
Proof.
  split; [reflexivity|].
  destruct (fc_read_output_spec demo_state "session_1_5" true demo_session eq_refl)
    as (_ & Hcontent & _ & _ & Hclear & _).
  split; [apply Hcontent; discriminate|].
  destruct (proj1 (Hclear eq_refl)) as (session' & Hsession' & Houtput & _).
  by exists session'.
Defined.

(** *** close *)

Lemma elem_of_listed_ids (st : State) (session_id : string) :
  session_id ∈ listed_ids (fc_list_sessions st)
  <-> session_id ∈ insertionOrder st /\ is_Some (processSessions st !! session_id).
Proof.
  unfold fc_list_sessions, listed_ids. case_decide as Hsize; cbn [content ok].
  - apply map_size_empty_iff in Hsize. rewrite Hsize, lookup_empty.
    split; [by intros ?%elem_of_nil | by intros [_ [? ?]]].
  - rewrite list_elem_of_fmap. split.
    + intros (row & -> & (k & Hk & Hrow)%list_elem_of_omap).
      destruct (processSessions st !! k) as [session|] eqn:Hlookup; [|done].
      injection Hrow as <-. cbn [fst snd]. split; [done | by exists session].
    + intros [Hin [session Hlookup]].
      exists (isRunning session, session_id, command session, process session).
      split; [done|]. apply list_elem_of_omap. exists session_id.
      split; [done|]. by rewrite Hlookup.
Qed.

(** C8 ([close(id, force)]): for a registered session, running or not,
    the call succeeds and leaves the registry without that id, so the id is
    absent from what [list()] shows, while every other entry stays; when the
    session was marked running, exactly one signal went out to its child
    before the removal, SIGKILL under [force] and SIGTERM otherwise, and no
    signal goes out for a session that is no longer running.  Nothing in
    the call waits for or looks at the exit of the child. *)
Theorem fc_close_session_spec (st : State) (session_id : string) (force : bool)
    (session : ProcessSession) :
  processSessions st !! session_id = Some session ->
  let '(reply, st') := fc_close_session session_id force st in
  reply = ok (SessionClosed session_id)
  /\ processSessions st' = delete session_id (processSessions st)
  /\ processSessions st' !! session_id = None
  /\ (session_id ∉ listed_ids (fc_list_sessions st'))
  /\ (forall other, other ≠ session_id ->
        processSessions st' !! other = processSessions st !! other)
  /\ killLog st'
     = (if isRunning session
        then killLog st ++ [(process session, if force then SIGKILL else SIGTERM)]
        else killLog st).
Proof.
  intros Hreg. unfold fc_close_session. rewrite Hreg.
  split; [done|]. split; [by destruct (isRunning session), force|].
  split; [by destruct (isRunning session), force; cbn; apply lookup_delete_eq|].
  split.
  { rewrite elem_of_listed_ids.
    destruct (isRunning session), force; cbn; rewrite lookup_delete_eq;
      by intros [_ [? ?]]. }
  split.
  { intros other Hne.
    destruct (isRunning session), force; cbn; by rewrite lookup_delete_ne. }
  by destruct (isRunning session), force.
Qed.

Lemma fc_close_session_spec_witness :
  processSessions demo_state !! "session_1_5" = Some demo_session
  /\ processSessions (fc_close_session "session_1_5" true demo_state).2 !! "session_1_5"
     = None
  /\ killLog (fc_close_session "session_1_5" true demo_state).2 = [(7%nat, SIGKILL)].
Proof.
  split; [reflexivity|].
  pose proof (fc_close_session_spec demo_state "session_1_5" true demo_session
                eq_refl) as Hspec.
  destruct (fc_close_session "session_1_5" true demo_state) as [reply st'].
  destruct Hspec as (_ & _ & Hgone & _ & _ & Hlog).
  split; [exact Hgone | exact Hlog].
Defined.

End Process.

(** ** Wildcard patterns *)

(** A JavaScript string as the sequence of its UTF-16 code units. *)
Definition jsstring := list N.

(** The code units of an ASCII literal. *)
Definition str (s : string) : jsstring := N_of_ascii <$> list_ascii_of_string s.

Module Wildcard.

Local Open Scope N_scope.

Definition star : N := 42.
Definition question : N := 63.
Definition dot : N := 46.
Definition backslash : N := 92.
Definition caret : N := 94.
Definition dollar : N := 36.

(** [Array.prototype.includes] on code units. *)
Definition includes (l : jsstring) (c : N) : bool := existsb (N.eqb c) l.

(** [s.replace(/x/g, r)] for a pattern [x] that matches one code unit at a
    time: every unit that [matches] gives way to its [replacement] (which
    may mention the match, [$&]), the others are kept. *)
Definition replace_each (matches : N -> bool) (replacement : N -> jsstring)
    (s : jsstring) : jsstring :=
  c ← s; if matches c then replacement c else [c].

(** The class [[.+^${}()|[\]\\]] of the first replacement. *)
Definition escaped_class : jsstring := str ".+^${}()|[]" ++ [backslash].

(** [params.pattern.replace(/[.+^${}()|[\]\\]/g, '\\$&')
       .replace(/\*/g, '.*').replace(/\?/g, '.')] *)
Definition regexPattern (pattern : jsstring) : jsstring :=
  replace_each (fun c => c =? question) (fun _ => str ".")
    (replace_each (fun c => c =? star) (fun _ => str ".*")
       (replace_each (includes escaped_class) (fun c => [backslash; c]) pattern)).

(** [`^${regexPattern}$`] *)
Definition regexSource (pattern : jsstring) : jsstring :=
  str "^" ++ regexPattern pattern ++ str "$".

(** *** Regular expressions

    The part of the pattern grammar that the sources built above can reach:
    a sequence of terms, each an assertion, an atom, or an atom under the
    greedy [*] quantifier. *)

Inductive Atom :=
| PatternCharacter (c : N)
| Dot.

Inductive Term :=
| AssertBegin
| AssertEnd
| Single (a : Atom)
| Star (a : Atom).

Definition RegExp := list Term.

(** [SyntaxCharacter :: one of ^ $ \ . * + ? ( ) [ ] { } |] *)
Definition isSyntaxCharacter (c : N) : bool := includes (str "^$\.*+?()[]{}|") c.

(** The parser reads the source left to right; it keeps the terms read so
    far, latest first, and whether the previous unit was an unconsumed
    backslash.  [None] is a source that is not a pattern of the fragment,
    which covers every source the constructor rejects with a SyntaxError
    (nothing to repeat, a backslash at the end, an unmatched bracket). *)
Definition parse_unit (state : option (list Term * bool)) (c : N)
  : option (list Term * bool) :=
  match state with
  | None => None
  | Some (terms, true) =>
      if isSyntaxCharacter c then Some (Single (PatternCharacter c) :: terms, false)
      else None
  | Some (terms, false) =>
      if c =? backslash then Some (terms, true)
      else if c =? caret then Some (AssertBegin :: terms, false)
      else if c =? dollar then Some (AssertEnd :: terms, false)
      else if c =? dot then Some (Single Dot :: terms, false)
      else if c =? star then
        match terms with
        | Single a :: terms' => Some (Star a :: terms', false)
        | _ => None
        end
      else if isSyntaxCharacter c then None
      else Some (Single (PatternCharacter c) :: terms, false)
  end.

(** [new RegExp(source, 'i')] *)
Definition RegExp_new (source : jsstring) : option RegExp :=
  match foldl parse_unit (Some ([], false)) source with
  | Some (terms, false) => Some (reverse terms)
  | _ => None
  end.

(** The compiled predicate of a wildcard pattern, when there is one. *)
Definition compile (pattern : jsstring) : option RegExp :=
  RegExp_new (regexSource pattern).

Definition isLineTerminator (ch : N) : bool :=
  (ch =? 10) || (ch =? 13) || (ch =? 8232) || (ch =? 8233).

Section Matching.

(** [String.prototype.toUpperCase] on the string made of one code unit. *)
Variable toUpperCase : N -> jsstring.

(** [Canonicalize(ch)] under the [i] flag without the [u] flag. *)
Definition Canonicalize (ch : N) : N :=
  match toUpperCase ch with
  | [cu] => if (128 <=? ch) && (cu <? 128) then ch else cu
  | _ => ch
  end.

(** One atom against one code unit.  A pattern character is compared after
    canonicalisation; [.] without the [s] flag is every unit that is not a
    line terminator. *)
Definition atom_matches (a : Atom) (ch : N) : bool :=
  match a with
  | PatternCharacter c => Canonicalize c =? Canonicalize ch
  | Dot => negb (isLineTerminator ch)
  end.

(** The backtracking matcher, from position [index] with [rest] still to be
    read: does some way of matching the terms in order succeed? *)
Fixpoint match_terms (terms : list Term) (index : nat) (rest : jsstring) : bool :=
  match terms with
  | [] => true
  | AssertBegin :: terms' => (index =? 0)%nat && match_terms terms' index rest
  | AssertEnd :: terms' =>
      match rest with
      | [] => match_terms terms' index rest
      | _ :: _ => false
      end
  | Single a :: terms' =>
      match rest with
      | ch :: rest' => atom_matches a ch && match_terms terms' (S index) rest'
      | [] => false
      end
  | Star a :: terms' =>
      (fix greedy (index : nat) (rest : jsstring) : bool :=
         match rest with
         | ch :: rest' =>
             (atom_matches a ch && greedy (S index) rest')
             || match_terms terms' index rest
         | [] => match_terms terms' index rest
         end) index rest
  end.

(** [regex.test(s)] for a regular expression without the [g] and [y] flags:
    the start positions are tried from 0 up to the length, and the answer is
    whether the matcher succeeds at one of them. *)
Definition test (regex : RegExp) (s : jsstring) : bool :=
  existsb (fun index => match_terms regex index (drop index s))
          (seq 0 (S (length s))).

(** *** What a wildcard pattern is meant to accept

    Written after the description of the pattern language, not after the
    code: [*] stands for zero or more units, [?] for exactly one, every
    other unit for itself up to case, and the whole name has to be used up.
    [arbitrary] says which units a wildcard may stand for. *)
Inductive wildcard_match (arbitrary : N -> Prop) : jsstring -> jsstring -> Prop :=
| wm_end : wildcard_match arbitrary [] []
| wm_star_none pattern name :
    wildcard_match arbitrary pattern name ->
    wildcard_match arbitrary (star :: pattern) name
| wm_star_more pattern ch name :
    arbitrary ch ->
    wildcard_match arbitrary (star :: pattern) name ->
    wildcard_match arbitrary (star :: pattern) (ch :: name)
| wm_question pattern ch name :
    arbitrary ch ->
    wildcard_match arbitrary pattern name ->
    wildcard_match arbitrary (question :: pattern) (ch :: name)
| wm_literal c pattern ch name :
    c ≠ star -> c ≠ question ->
    Canonicalize c = Canonicalize ch ->
    wildcard_match arbitrary pattern name ->
    wildcard_match arbitrary (c :: pattern) (ch :: name).

End Matching.

(** Upper-casing restricted to the ASCII letters, for examples. *)
Definition ascii_toUpperCase (c : N) : jsstring :=
  if (97 <=? c) && (c <=? 122) then [c - 32] else [c].

(** The two readings of "arbitrary character" for a wildcard. *)
Definition any_unit (ch : N) : Prop := True.
Definition not_line_terminator (ch : N) : Prop := isLineTerminator ch = false.

(** The term a single unit of the wildcard pattern turns into. *)
Definition term_of (c : N) : Term :=
  if c =? star then Star Dot
  else if c =? question then Single Dot
  else Single (PatternCharacter c).

(** *** From the pattern to the regular expression *)

Lemma replace_each_app matches replacement (s1 s2 : jsstring) :
  replace_each matches replacement (s1 ++ s2)
  = replace_each matches replacement s1 ++ replace_each matches replacement s2.
Proof. unfold replace_each. apply bind_app. Qed.

Lemma regexPattern_cons (c : N) (pattern : jsstring) :
  regexPattern (c :: pattern) = regexPattern [c] ++ regexPattern pattern.
Proof.
  unfold regexPattern.
  change (c :: pattern) with ([c] ++ pattern).
  by rewrite !replace_each_app.
Qed.

Ltac evaluate t := let v := eval vm_compute in t in change t with v.

Lemma includes_true (l : jsstring) (c : N) : includes l c = true <-> c ∈ l.
Proof.
  unfold includes. rewrite existsb_exists. setoid_rewrite <- list_elem_of_In.
  split.
  - by intros (x & Hin & ->%N.eqb_eq).
  - intros Hin. exists c. by rewrite N.eqb_refl.
Qed.

Lemma includes_false (l : jsstring) (c : N) : includes l c = false <-> c ∉ l.
Proof. rewrite <- includes_true. by destruct (includes l c). Qed.

(** The syntax characters are the escaped class together with the two
    wildcards. *)
Lemma isSyntaxCharacter_spec (c : N) :
  isSyntaxCharacter c = (c =? star) || (c =? question) || includes escaped_class c.
Proof.
  unfold isSyntaxCharacter, star, question.
  evaluate escaped_class. evaluate (str "^$\.*+?()[]{}|").
  unfold includes. cbn [existsb].
  repeat match goal with
         | |- context [N.eqb c ?k] => destruct (N.eqb_spec c k); [subst c; reflexivity|]
         end.
  reflexivity.
Qed.

(** The three replacements on a pattern of one unit. *)
Lemma regexPattern_unit (c : N) :
  regexPattern [c]
  = if c =? star then [dot; star]
    else if c =? question then [dot]
    else if includes escaped_class c then [backslash; c]
    else [c].
Proof.
  unfold regexPattern, replace_each.
  evaluate (str "."). evaluate (str ".*"). cbn [mbind list_bind app].
  destruct (includes escaped_class c) eqn:Hclass.
  - destruct (N.eqb_spec c star) as [->|Hstar]; [done|].
    destruct (N.eqb_spec c question) as [->|Hquestion]; [done|].
    cbn. rewrite (proj2 (N.eqb_neq c star)) by done.
    cbn. by rewrite (proj2 (N.eqb_neq c question)).
  - cbn. destruct (N.eqb_spec c star) as [->|Hstar]; [done|].
    cbn. by destruct (N.eqb_spec c question) as [->|Hquestion].
Qed.

(** The three replacements, seen one unit of the pattern at a time, write
    down exactly the source of [term_of]. *)
Lemma parse_regexPattern_unit (c : N) (terms : list Term) :
  foldl parse_unit (Some (terms, false)) (regexPattern [c])
  = Some (term_of c :: terms, false).
Proof.
  rewrite regexPattern_unit. unfold term_of.
  destruct (N.eqb_spec c star) as [->|Hstar]; [done|].
  destruct (N.eqb_spec c question) as [->|Hquestion]; [done|].
  pose proof (isSyntaxCharacter_spec c) as Hsyntax.
  rewrite (proj2 (N.eqb_neq c star)), (proj2 (N.eqb_neq c question)) in Hsyntax by done.
  cbn [orb] in Hsyntax.
  destruct (includes escaped_class c) eqn:Hclass.
  - cbn [foldl]. change (parse_unit (Some (terms, false)) backslash) with (Some (terms, true)).
    cbn [parse_unit]. by rewrite Hsyntax.
  - cbn [foldl parse_unit]. rewrite Hsyntax.
    apply includes_false in Hclass.
    assert (c ≠ backslash /\ c ≠ caret /\ c ≠ dollar /\ c ≠ dot) as (H1 & H2 & H3 & H4).
    { repeat split; intros ->; apply Hclass; vm_compute; set_solver. }
    rewrite (proj2 (N.eqb_neq c backslash)), (proj2 (N.eqb_neq c caret)),
      (proj2 (N.eqb_neq c dollar)), (proj2 (N.eqb_neq c dot)),
      (proj2 (N.eqb_neq c star)) by done.
    done.
Qed.

Lemma parse_regexPattern (pattern : jsstring) (terms : list Term) :
  foldl parse_unit (Some (terms, false)) (regexPattern pattern)
  = Some (reverse (term_of <$> pattern) ++ terms, false).
Proof.
  revert terms. induction pattern as [|c pattern IH]; intros terms; [done|].
  rewrite regexPattern_cons, foldl_app, parse_regexPattern_unit, IH.
  rewrite fmap_cons, reverse_cons, <- app_assoc. done.
Qed.

Lemma compile_total (pattern : jsstring) :
  compile pattern = Some (AssertBegin :: (term_of <$> pattern) ++ [AssertEnd]).
Proof.
  unfold compile, RegExp_new, regexSource.
  change (str "^") with [caret]. change (str "$") with [dollar].
  rewrite !foldl_app. cbn [foldl].
  change (parse_unit (Some ([], false)) caret) with (Some ([AssertBegin], false)).
  rewrite parse_regexPattern.
  change (parse_unit (Some ?st) dollar) with (Some (AssertEnd :: st.1, false)).
  cbn [fst]. f_equal.
  by rewrite reverse_cons, reverse_app, reverse_involutive.
Qed.

(** *** The compiled predicate against the wildcard reading *)

Section Facts.

Variable toUpperCase : N -> jsstring.

Lemma match_terms_Star (a : Atom) (terms : list Term) (index : nat) (rest : jsstring) :
  match_terms toUpperCase (Star a :: terms) index rest
  = match rest with
    | ch :: rest' =>
        (atom_matches toUpperCase a ch
         && match_terms toUpperCase (Star a :: terms) (S index) rest')
        || match_terms toUpperCase terms index rest
    | [] => match_terms toUpperCase terms index rest
    end.
Proof. by destruct rest. Qed.

Lemma star_neq_question : star ≠ question.
Proof. done. Qed.

Lemma match_terms_pattern (pattern : jsstring) (index : nat) (name : jsstring) :
  match_terms toUpperCase ((term_of <$> pattern) ++ [AssertEnd]) index name = true
  <-> wildcard_match toUpperCase not_line_terminator pattern name.
Proof.
  revert index name. induction pattern as [|c pattern IH]; intros index name.
  - destruct name as [|ch name]; cbn.
    + split; [constructor | done].
    + split; [done | inversion 1].
  - rewrite fmap_cons. cbn [app]. unfold term_of.
    destruct (N.eqb_spec c star) as [->|Hstar];
      [|destruct (N.eqb_spec c question) as [->|Hquestion]].
    + revert index. induction name as [|ch name IHname]; intros index;
        rewrite match_terms_Star.
      * rewrite IH. split; [by constructor|].
        inversion 1; subst; done.
      * rewrite orb_true_iff, andb_true_iff, IHname, IH. cbn [atom_matches].
        rewrite negb_true_iff. split.
        -- intros [[Hch Hrest]|Hskip]; [by apply wm_star_more | by apply wm_star_none].
        -- inversion 1; subst; try done; [by right | by left].
    + destruct name as [|ch name]; cbn [match_terms atom_matches].
      * split; [done | inversion 1; subst; done].
      * rewrite andb_true_iff, negb_true_iff, IH. split.
        -- intros [Hch Hrest]. by apply wm_question.
        -- inversion 1; subst; done.
    + destruct name as [|ch name]; cbn [match_terms atom_matches].
      * split; [done | inversion 1; subst; done].
      * rewrite andb_true_iff, N.eqb_eq, IH. split.
        -- intros [Hch Hrest]. by apply wm_literal.
        -- inversion 1; subst; done.
Qed.

Lemma test_anchored (terms : list Term) (s : jsstring) :
  test toUpperCase (AssertBegin :: terms) s = match_terms toUpperCase terms 0 s.
Proof.
  unfold test. cbn [seq existsb match_terms drop Nat.eqb andb].
  assert (forall n start, existsb (fun index =>
            match_terms toUpperCase (AssertBegin :: terms) index (drop index s))
            (seq (S start) n) = false) as ->; [|by rewrite orb_false_r].
  induction n as [|n IHn]; intros start; [done|].
  cbn [seq existsb match_terms Nat.eqb andb orb]. apply IHn.
Qed.

End Facts.

(** What the compiled predicate accepts, unit by unit: for every
    upper-casing table, every wildcard pattern compiles, and the compiled
    predicate accepts a name exactly when the whole name matches the pattern
    read with [*] as zero or more code units none of which is a line
    terminator (LF, CR, U+2028, U+2029), [?] as exactly one such unit, and any
    other unit as itself up to the canonicalisation of the [i] flag; the
    empty pattern accepts the empty name and nothing else. *)
Lemma compile_accepts_units (toUpperCase : N -> jsstring) (pattern : jsstring) :
  exists regex,
    compile pattern = Some regex
    /\ (forall name,
          test toUpperCase regex name = true
          <-> wildcard_match toUpperCase not_line_terminator pattern name)
    /\ (pattern = [] -> forall name, test toUpperCase regex name = true <-> name = []).
Proof.
  eexists. split; [apply compile_total|].
  assert (forall name,
            test toUpperCase (AssertBegin :: (term_of <$> pattern) ++ [AssertEnd]) name = true
            <-> wildcard_match toUpperCase not_line_terminator pattern name) as Hiff.
  { intros name. by rewrite test_anchored, match_terms_pattern. }
  split; [done|]. intros -> name. rewrite Hiff.
  split; [by inversion 1 | intros ->; constructor].
Qed.

(** The characters of a string: a high surrogate followed by a low one is
    one character, any other code unit is a character of its own. *)
Fixpoint characters (s : jsstring) : list N :=
  match s with
  | [] => []
  | c :: rest =>
      match rest with
      | d :: rest' =>
          if (55296 <=? c) && (c <=? 56319) && (56320 <=? d) && (d <=? 57343)
          then (65536 + (c - 55296) * 1024 + (d - 56320)) :: characters rest'
          else c :: characters rest
      | [] => [c]
      end
  end.

(** The name made of the one character U+1F600, and the name made of a
    line feed. *)
Definition grinning_face : jsstring := [55357; 56832].
Definition line_feed : jsstring := [10].

(** C4 (wildcards and arbitrary characters): as the pattern language is
    described, [?] accepts the name that is the one character U+1F600 and
    [*] accepts the name that is a line feed.  The compiled predicates do
    not, whatever the upper-casing table: the regular expression is built
    without the [u] flag, so [?] stands for one code unit and it takes [??]
    to accept that one character, and without the [s] flag, so neither
    wildcard stands for a line terminator. *)
Theorem wildcard_misses_characters (toUpperCase : N -> jsstring) :
  exists one two every,
    compile (str "?") = Some one
    /\ compile (str "??") = Some two
    /\ compile (str "*") = Some every
    /\ characters grinning_face = [128512]
    /\ wildcard_match toUpperCase any_unit (characters (str "?")) (characters grinning_face)
    /\ test toUpperCase one grinning_face = false
    /\ test toUpperCase two grinning_face = true
    /\ wildcard_match toUpperCase any_unit (characters (str "*")) (characters line_feed)
    /\ wildcard_match toUpperCase any_unit (characters (str "?")) (characters line_feed)
    /\ test toUpperCase every line_feed = false
    /\ test toUpperCase one line_feed = false.
Proof.
  eexists _, _, _. split; [reflexivity|]. split; [reflexivity|]. split; [reflexivity|].
  split; [reflexivity|]. split.
  { apply wm_question; [done | constructor]. }
  split; [reflexivity|]. split; [reflexivity|]. split.
  { apply wm_star_more; [done|]. apply wm_star_none. constructor. }
  split; [|by split].
  apply wm_question; [done | constructor].
Qed.

End Wildcard.

(** ** Search session registry *)

Module Search.

Import Wildcard.

(** What the file system shows at a path: something that is not a
    directory, or a directory whose listing either fails ([None]: permission
    denied or another read error) or gives the names and nodes below it. *)
#[local] Unset Elimination Schemes.
Inductive Node :=
| File
| Dir (listing : option (list (jsstring * Node))).
#[local] Set Elimination Schemes.

(** [fs.readdir(dirPath, { withFileTypes: true })]; it rejects for an
    unreadable directory and for a path that is no directory. *)
Definition readdir (node : Node) : option (list (jsstring * Node)) :=
  match node with
  | Dir listing => listing
  | File => None
  end.

(** [entry.isDirectory()] *)
Definition isDirectory (node : Node) : bool :=
  match node with
  | Dir _ => true
  | File => false
  end.

(** [interface SearchSession]; [aborted] is [abortController.signal.aborted]. *)
Record SearchSession := mkSearchSession {
  id : string;
  directory : jsstring;
  pattern : RegExp;
  patternString : jsstring;
  results : list jsstring;
  isRunning : bool;
  startTime : N;
  scannedDirs : N;
  aborted : bool
}.

Definition set_results (r : list jsstring) (s : SearchSession) : SearchSession :=
  mkSearchSession (id s) (directory s) (pattern s) (patternString s) r
    (isRunning s) (startTime s) (scannedDirs s) (aborted s).

Definition set_isRunning (b : bool) (s : SearchSession) : SearchSession :=
  mkSearchSession (id s) (directory s) (pattern s) (patternString s) (results s)
    b (startTime s) (scannedDirs s) (aborted s).

Definition set_scannedDirs (n : N) (s : SearchSession) : SearchSession :=
  mkSearchSession (id s) (directory s) (pattern s) (patternString s) (results s)
    (isRunning s) (startTime s) n (aborted s).

(** [session.abortController.abort()] *)
Definition abort (s : SearchSession) : SearchSession :=
  mkSearchSession (id s) (directory s) (pattern s) (patternString s) (results s)
    (isRunning s) (startTime s) (scannedDirs s) true.

(** [!session.isRunning || session.abortController.signal.aborted] *)
Definition cancelled (s : SearchSession) : bool := negb (isRunning s) || aborted s.

(** The directory names the traversal does not descend into. *)
Definition skipped : list jsstring :=
  str <$> ["node_modules"; ".git"; "$RECYCLE.BIN"; "System Volume Information";
           "Windows"; "Program Files"; "Program Files (x86)"].

(** The tree without the directories whose listing fails, at any depth;
    the node at the top is kept as it is. *)
Definition readable_below (recurse : Node -> Node)
  : list (jsstring * Node) -> list (jsstring * Node) :=
  fix below (entries : list (jsstring * Node)) : list (jsstring * Node) :=
    match entries with
    | [] => []
    | (name, entry) :: entries' =>
        match entry with
        | Dir None => below entries'
        | File | Dir (Some _) => (name, recurse entry) :: below entries'
        end
    end.

Fixpoint readable (node : Node) : Node :=
  match node with
  | Dir (Some entries) => Dir (Some (readable_below readable entries))
  | Dir None | File => node
  end.

(** How an asynchronous call ends: its promise is fulfilled or rejected.
    Either way the session object carries what was done to it so far. *)
Inductive Completion :=
| Returned (session : SearchSession)
| Thrown (session : SearchSession).

(** A call of [asyncSearchFiles] that waits for a recursive call it made:
    its directory path and the entries its [for] loop has still to visit. *)
Record Frame := mkFrame {
  frame_dirPath : jsstring;
  frame_entries : list (jsstring * Node)
}.

(** A traversal between two turns of the event loop.  Its innermost call
    has asked for the listing of [awaited_path], where [awaited] is, and
    waits for it; [frames] are the calls that wait for that call, the
    innermost first.  The [await] of [fs.readdir] is the one place where a
    traversal gives way to the requests. *)
Record Task := mkTask {
  awaited : Node;
  awaited_path : jsstring;
  frames : list Frame
}.

(** [searchSessions], [searchCounter], and the traversals that wait for a
    listing, by the id of their session. *)
Record State := mkState {
  searchSessions : gmap string SearchSession;
  searchCounter : N;
  pending : gmap string Task
}.

(** Where a traversal stands after a turn: it waits for the next listing,
    or its outermost call has returned. *)
Inductive Progress :=
| Awaiting (session : SearchSession) (task : Task)
| Finished (session : SearchSession).

(** The session object after a turn of its traversal, and the traversal
    itself when it waits again.  When the outermost call has returned the
    promise is fulfilled and its [then] callback clears [isRunning]. *)
Definition keep (searchId : string) (progress : Progress) (st : State) : State :=
  match progress with
  | Awaiting session task =>
      mkState (<[searchId := session]> (searchSessions st)) (searchCounter st)
              (<[searchId := task]> (pending st))
  | Finished session =>
      mkState (<[searchId := set_isRunning false session]> (searchSessions st))
              (searchCounter st) (delete searchId (pending st))
  end.

Definition set_searchSessions (m : gmap string SearchSession) (st : State) : State :=
  mkState m (searchCounter st) (pending st).

Inductive Message :=
| DirectoryNotFound (dirPath : jsstring)
| SearchStarted (searchId : string) (dirPath pattern : jsstring)
| StartFailed
| ResultsNotFound (searchId : string)
| SearchResults (running : bool) (patternString directory : jsstring)
    (scannedDirs : N) (totalResults offset limit : Z)
    (paginatedResults : list jsstring) (hasMore : bool)
| SearchNotFound (searchId : string)
| AlreadyFinished (found : nat)
| SearchStopped (searchId : string) (found : nat)
| Cleared (count : nat)
| StillRunning
| SearchRemoved (searchId : string).

Section Handlers.

(** [String.prototype.toUpperCase] on one code unit, [path.join], and
    [normalizePath], which is [path.normalize]: library functions the
    handlers call. *)
Variable toUpperCase : N -> jsstring.
Variable join : jsstring -> jsstring -> jsstring.
Variable normalizePath : jsstring -> jsstring.

(** The file system: what is at a path, if anything. *)
Variable fs : jsstring -> option Node.

(** [session.results.push(fullPath)] *)
Definition push (fullPath : jsstring) (s : SearchSession) : SearchSession :=
  set_results (results s ++ [fullPath]) s.

(** [asyncSearchFiles(session, dirPath)], with [node] what is at [dirPath].
    The match on [node] is the awaited [readdir node]: the listing of a
    readable directory, a rejection otherwise.  The body of the [try] ends
    [Thrown] when [readdir] rejects or when a recursive call does; the empty
    [catch] turns that into a normal return.  This is the call from its
    start to its return when nothing else runs in between; [resume] below
    takes the same traversal turn by turn. *)
Fixpoint asyncSearchFiles (node : Node) (session : SearchSession) (dirPath : jsstring)
  : Completion :=
  if cancelled session then Returned session
  else
    let attempt :=
      match node with
      | Dir (Some entries) =>
          (fix each (entries : list (jsstring * Node)) (session : SearchSession)
             : Completion :=
             match entries with
             | [] => Returned session
             | (name, entry) :: entries' =>
                 if cancelled session then Returned session
                 else
                   let fullPath := join dirPath name in
                   if isDirectory entry then
                     if negb (bool_decide (name ∈ skipped))
                     then
                       match asyncSearchFiles entry session fullPath with
                       | Returned session => each entries' session
                       | Thrown session => Thrown session
                       end
                     else each entries' session
                   else if test toUpperCase (pattern session) name
                   then each entries' (push fullPath session)
                   else each entries' session
             end) entries (set_scannedDirs (scannedDirs session + 1) session)
      | Dir None | File => Thrown session
      end in
    match attempt with
    | Returned session => Returned session
    | Thrown session => Returned session
    end.

(** The [for] loop of [asyncSearchFiles] on its own, over the function
    called for a subdirectory. *)
Definition each_with (recurse : Node -> SearchSession -> jsstring -> Completion)
    (dirPath : jsstring)
  : list (jsstring * Node) -> SearchSession -> Completion :=
  fix each (entries : list (jsstring * Node)) (session : SearchSession) : Completion :=
    match entries with
    | [] => Returned session
    | (name, entry) :: entries' =>
        if cancelled session then Returned session
        else
          let fullPath := join dirPath name in
          if isDirectory entry then
            if negb (bool_decide (name ∈ skipped))
            then
              match recurse entry session fullPath with
              | Returned session => each entries' session
              | Thrown session => Thrown session
              end
            else each entries' session
          else if test toUpperCase (pattern session) name
          then each entries' (push fullPath session)
          else each entries' session
    end.

(** A session after [found] more results and [dirs] more listed
    directories. *)
Definition advance (found : list jsstring) (dirs : N) (s : SearchSession) : SearchSession :=
  set_scannedDirs (scannedDirs s + dirs) (set_results (results s ++ found) s).

(** The matches below [node], in pre-order: for each entry of a readable
    directory in listing order, the entry itself when it is not a directory
    and its name matches, the matches below it when it is a directory
    outside the skip list.  Nothing for a listing that fails. *)
Definition found_below (recurse : Node -> jsstring -> list jsstring)
    (regex : RegExp) (dirPath : jsstring)
  : list (jsstring * Node) -> list jsstring :=
  fix below (entries : list (jsstring * Node)) : list jsstring :=
    match entries with
    | [] => []
    | (name, entry) :: entries' =>
        (if isDirectory entry
         then if bool_decide (name ∈ skipped) then []
              else recurse entry (join dirPath name)
         else if test toUpperCase regex name then [join dirPath name] else [])
        ++ below entries'
    end.

Fixpoint found (regex : RegExp) (node : Node) (dirPath : jsstring) : list jsstring :=
  match node with
  | Dir (Some entries) => found_below (found regex) regex dirPath entries
  | Dir None | File => []
  end.

(** The directories at and below [node] whose listing succeeds and that
    are reached without passing a skipped name or a failed listing. *)
Definition listed_below (recurse : Node -> N)
  : list (jsstring * Node) -> N :=
  fix below (entries : list (jsstring * Node)) : N :=
    match entries with
    | [] => 0
    | (name, entry) :: entries' =>
        (if isDirectory entry && negb (bool_decide (name ∈ skipped))
         then recurse entry else 0)
        + below entries'
    end%N.

Fixpoint listed (node : Node) : N :=
  match node with
  | Dir (Some entries) => 1 + listed_below listed entries
  | Dir None | File => 0
  end%N.

(** *** The traversal turn by turn *)

(** How the [for] loop of a call leaves off: the call returns, or it has
    called [asyncSearchFiles] for the entry [node] at [fullPath], which asked
    for the listing and waits, with [rest] still to visit. *)
Inductive LoopOutcome :=
| LoopReturned (session : SearchSession)
| LoopAwaits (session : SearchSession) (node : Node) (fullPath : jsstring)
    (rest : list (jsstring * Node)).

(** The [for] loop of [asyncSearchFiles] from the entries it has still to
    visit, as far as it gets without waiting.  The recursive call begins with
    the check of [asyncSearchFiles] itself and returns at once when that
    fails. *)
Fixpoint run_loop (dirPath : jsstring) (entries : list (jsstring * Node))
    (session : SearchSession) : LoopOutcome :=
  match entries with
  | [] => LoopReturned session
  | (name, entry) :: entries' =>
      if cancelled session then LoopReturned session
      else
        let fullPath := join dirPath name in
        if isDirectory entry then
          if negb (bool_decide (name ∈ skipped))
          then
            if cancelled session then run_loop dirPath entries' session
            else LoopAwaits session entry fullPath entries'
          else run_loop dirPath entries' session
        else if test toUpperCase (pattern session) name
        then run_loop dirPath entries' (push fullPath session)
        else run_loop dirPath entries' session
  end.

(** A call has returned: the calls that waited for it go on with their
    loops, the innermost first, until one of them waits again or the
    outermost has returned. *)
Fixpoint unwind (frames : list Frame) (session : SearchSession) : Progress :=
  match frames with
  | [] => Finished session
  | frame :: frames' =>
      match run_loop (frame_dirPath frame) (frame_entries frame) session with
      | LoopReturned session => unwind frames' session
      | LoopAwaits session node fullPath rest =>
          Awaiting session
            (mkTask node fullPath (mkFrame (frame_dirPath frame) rest :: frames'))
      end
  end.

(** The listing a traversal waits for arrives, or fails: a listing is
    counted and its loop starts; a failure lands in the empty [catch] and the
    call returns. *)
Definition readdir_settled (task : Task) (session : SearchSession) : Progress :=
  match readdir (awaited task) with
  | Some entries =>
      unwind (mkFrame (awaited_path task) entries :: frames task)
             (set_scannedDirs (scannedDirs session + 1) session)
  | None => unwind (frames task) session
  end.

(** One turn of a traversal. *)
Definition step (progress : Progress) : Progress :=
  match progress with
  | Awaiting session task => readdir_settled task session
  | Finished session => Finished session
  end.

(** The turn of the traversal of [searchId] in the server: the session
    object is the one the registry holds.  A session that is no longer
    registered was not running when it was removed, so its traversal returns
    at its next check and nothing of it can be seen any more. *)
Definition resume (searchId : string) (st : State) : State :=
  match pending st !! searchId with
  | None => st
  | Some task =>
      match searchSessions st !! searchId with
      | None =>
          mkState (searchSessions st) (searchCounter st) (delete searchId (pending st))
      | Some session => keep searchId (readdir_settled task session) st
      end
  end.

(** [pathExists] *)
Definition pathExists (targetPath : jsstring) : bool :=
  match fs targetPath with
  | Some _ => true
  | None => false
  end.

(** [generateSearchId] *)
Definition generateSearchId (now : N) (st : State) : string * State :=
  let counter := (searchCounter st + 1)%N in
  ("search_" +:+ pretty counter +:+ "_" +:+ pretty now,
   mkState (searchSessions st) counter (pending st)).

(** [fc_start_search]; [now] is the clock.  A pattern that did not compile
    would make [new RegExp] throw into the handler's [catch].  The call of
    [asyncSearchFiles] runs as far as its first [await] within the handler:
    it makes its check and asks for the listing of [dirPath]; [readdir] of a
    path with nothing at it rejects like an unreadable directory. *)
Definition fc_start_search (now : N) (directory pattern_ : jsstring) (st : State)
  : ToolResult Message * State :=
  let dirPath := normalizePath directory in
  if negb (pathExists dirPath) then (failed (DirectoryNotFound dirPath), st)
  else
    match compile pattern_ with
    | None => (failed StartFailed, st)
    | Some regex =>
        let '(searchId, st) := generateSearchId now st in
        let session :=
          mkSearchSession searchId dirPath regex pattern_ [] true now 0 false in
        let st :=
          mkState (<[searchId := session]> (searchSessions st)) (searchCounter st)
                  (pending st) in
        let task := mkTask (default (Dir None) (fs dirPath)) dirPath [] in
        (ok (SearchStarted searchId dirPath pattern_),
         keep searchId
           (if cancelled session then Finished session else Awaiting session task) st)
    end.

End Handlers.

(** [fc_get_search_results] *)
Definition fc_get_search_results (search_id : string) (offset limit : Z) (st : State)
  : ToolResult Message * State :=
  match searchSessions st !! search_id with
  | None => (failed (ResultsNotFound search_id), st)
  | Some session =>
      let totalResults := Z.of_nat (length (results session)) in
      let paginatedResults := JsArray.slice (results session) offset (offset + limit) in
      let hasMore := offset + limit <? totalResults in
      (ok (SearchResults (isRunning session) (patternString session) (directory session)
             (scannedDirs session) totalResults offset limit paginatedResults hasMore),
       st)
  end.

(** [fc_stop_search] *)
Definition fc_stop_search (search_id : string) (st : State)
  : ToolResult Message * State :=
  match searchSessions st !! search_id with
  | None => (failed (SearchNotFound search_id), st)
  | Some session =>
      if negb (isRunning session)
      then (ok (AlreadyFinished (length (results session))), st)
      else
        let session := abort (set_isRunning false session) in
        (ok (SearchStopped search_id (length (results session))),
         set_searchSessions (<[search_id := session]> (searchSessions st)) st)
  end.

(** The loop of [fc_clear_search("all")] over the entries of the map: a
    session that is not running is deleted and counted. *)
Definition clear_entry (acc : nat * gmap string SearchSession)
    (entry : string * SearchSession) : nat * gmap string SearchSession :=
  if negb (isRunning entry.2) then (S acc.1, delete entry.1 acc.2) else acc.

(** [fc_clear_search] *)
Definition fc_clear_search (search_id : string) (st : State)
  : ToolResult Message * State :=
  if decide (search_id = "all") then
    let '(count, sessions) :=
      foldl clear_entry (0%nat, searchSessions st) (map_to_list (searchSessions st)) in
    (ok (Cleared count), set_searchSessions sessions st)
  else
    match searchSessions st !! search_id with
    | None => (failed (SearchNotFound search_id), st)
    | Some session =>
        if isRunning session then (failed StillRunning, st)
        else (ok (SearchRemoved search_id),
              set_searchSessions (delete search_id (searchSessions st)) st)
    end.

(** A registry with one finished and one running search, for examples. *)
Definition finished_search : SearchSession :=
  mkSearchSession "search_1_10" (str "/proj") [AssertBegin; Star Dot; AssertEnd] (str "*")
    [str "/proj/a.ts"; str "/proj/b.ts"; str "/proj/c.ts"] false 10 2 false.

Definition running_search : SearchSession :=
  mkSearchSession "search_2_20" (str "/home") [AssertBegin; Star Dot; AssertEnd] (str "*")
    [str "/home/x"] true 20 1 false.

Definition demo_state : State :=
  mkState (<["search_2_20" := running_search]> {[ "search_1_10" := finished_search ]})
          2 {[ "search_2_20" := mkTask (Dir (Some [])) (str "/home") [] ]}.

(** *** getResults *)

(** C2 (pagination): for a registered session with [L] results, an offset
    of at least 0 and a limit of at least 1, the reply is a success that
    carries the total [L], the page made of exactly the results at positions
    [offset] up to but not including [offset + limit] (fewer when the
    sequence ends earlier), and a has-more flag that is set exactly when
    [L > offset + limit]; from [offset >= L] on the page is empty and the flag
    is off. *)
Theorem fc_get_search_results_page (st : State) (search_id : string) (offset limit : Z)
    (session : SearchSession) :
  searchSessions st !! search_id = Some session ->
  0 <= offset -> 1 <= limit ->
  let L := Z.of_nat (length (results session)) in
  exists page hasMore,
    (fc_get_search_results search_id offset limit st).1
    = ok (SearchResults (isRunning session) (patternString session) (directory session)
            (scannedDirs session) L offset limit page hasMore)
    /\ page = take (Z.to_nat limit) (drop (Z.to_nat offset) (results session))
    /\ (forall i : nat, (i < Z.to_nat limit)%nat ->
          page !! i = results session !! (Z.to_nat offset + i)%nat)
    /\ Z.of_nat (length page) = Z.max 0 (Z.min limit (L - offset))
    /\ (hasMore = true <-> L > offset + limit)
    /\ (offset >= L -> page = [] /\ hasMore = false).
Proof.
  intros Hreg Hoffset Hlimit L. unfold fc_get_search_results. rewrite Hreg.
  cbn [fst]. eexists _, _. split; [reflexivity|].
  rewrite JsArray.slice_nonneg by lia.
  replace (Z.to_nat (offset + limit) - Z.to_nat offset)%nat with (Z.to_nat limit) by lia.
  split; [done|]. split.
  { intros i Hi. by rewrite lookup_take_lt, lookup_drop. }
  split.
  { rewrite length_take, length_drop. subst L. lia. }
  split.
  { fold L. destruct (Z.ltb_spec (offset + limit) L); split; intros; (done || lia). }
  intros Hpast. split.
  - rewrite drop_ge by (subst L; lia). apply take_nil.
  - fold L. destruct (Z.ltb_spec (offset + limit) L); [lia | done].
Qed.

Lemma fc_get_search_results_page_witness :
  searchSessions demo_state !! "search_1_10" = Some finished_search
  /\ 0 <= 1 /\ 1 <= 1
  /\ (fc_get_search_results "search_1_10" 1 1 demo_state).1
     = ok (SearchResults false (str "*") (str "/proj") 2 3 1 1 [str "/proj/b.ts"] true).
Proof.
  split; [reflexivity|]. split; [lia|]. split; [lia|].
  destruct (fc_get_search_results_page demo_state "search_1_10" 1 1 finished_search
              eq_refl ltac:(lia) ltac:(lia))
    as (page & hasMore & Hreply & Hpage & _ & _ & Hmore & _).
  rewrite Hreply, Hpage. f_equal. f_equal.
  destruct hasMore; [done|]. apply Hmore. reflexivity.
Defined.

(** C10 (reading results is an observation): whatever the id, the offset
    and the limit, a call leaves the whole state as it was, hence every
    session with its results, running flag, directory counter and
    cancellation signal, and the set of registered sessions. *)
Theorem fc_get_search_results_frame (st : State) (search_id : string) (offset limit : Z) :
  (fc_get_search_results search_id offset limit st).2 = st
  /\ (forall other, searchSessions (fc_get_search_results search_id offset limit st).2 !! other
                    = searchSessions st !! other)
  /\ dom (searchSessions (fc_get_search_results search_id offset limit st).2)
     = dom (searchSessions st).
Proof.
  assert ((fc_get_search_results search_id offset limit st).2 = st) as ->; [|done].
  unfold fc_get_search_results. by destruct (searchSessions st !! search_id).
Qed.

(** *** stop *)

(** C6 (stop twice): for a registered search, the first stop leaves the
    session not running, with its results untouched, and, when it was
    running, with the cancellation signal set; a second stop on the state the
    first one left is a success that reports the search as already
    finished, with the number of results, and returns that state
    unchanged; the same holds for a stop in any later state in which the
    session is still registered and not running. *)
Theorem fc_stop_search_twice (st : State) (search_id : string) (session : SearchSession) :
  searchSessions st !! search_id = Some session ->
  let st1 := (fc_stop_search search_id st).2 in
  (exists stopped,
      searchSessions st1 !! search_id = Some stopped
      /\ isRunning stopped = false
      /\ results stopped = results session
      /\ (isRunning session = true ->
          aborted stopped = true
          /\ (fc_stop_search search_id st).1
             = ok (SearchStopped search_id (length (results session)))))
  /\ fc_stop_search search_id st1
     = (ok (AlreadyFinished (length (results session))), st1)
  /\ (forall later session',
        searchSessions later !! search_id = Some session' ->
        isRunning session' = false ->
        fc_stop_search search_id later
        = (ok (AlreadyFinished (length (results session'))), later)).
Proof.
  intros Hreg.
  assert (forall later session',
            searchSessions later !! search_id = Some session' ->
            isRunning session' = false ->
            fc_stop_search search_id later
            = (ok (AlreadyFinished (length (results session'))), later)) as Hlater.
  { intros later session' Hreg' Hrun'. unfold fc_stop_search. by rewrite Hreg', Hrun'. }
  split; [|split; [|done]].
  - unfold fc_stop_search. rewrite Hreg.
    destruct (isRunning session) eqn:Hrun; cbn [negb snd fst].
    + eexists. cbn. rewrite lookup_insert_eq. by repeat split.
    + exists session. by repeat split.
  - unfold fc_stop_search at 2 3. rewrite Hreg.
    destruct (isRunning session) eqn:Hrun; cbn [negb snd].
    + apply (Hlater _ (abort (set_isRunning false session))); [|done].
      cbn. apply lookup_insert_eq.
    + by apply Hlater.
Qed.

Lemma fc_stop_search_twice_witness :
  searchSessions demo_state !! "search_2_20" = Some running_search
  /\ fc_stop_search "search_2_20" (fc_stop_search "search_2_20" demo_state).2
     = (ok (AlreadyFinished 1), (fc_stop_search "search_2_20" demo_state).2).
Proof.
  split; [reflexivity|].
  exact (proj1 (proj2
           (fc_stop_search_twice demo_state "search_2_20" running_search eq_refl))).
Defined.

(** *** clear *)

Definition is_running (entry : string * SearchSession) : Prop := isRunning entry.2 = true.
Definition is_finished (entry : string * SearchSession) : Prop := isRunning entry.2 = false.

#[local] Instance is_running_dec entry : Decision (is_running entry).
Proof. unfold is_running. apply _. Defined.

#[local] Instance is_finished_dec entry : Decision (is_finished entry).
Proof. unfold is_finished. apply _. Defined.

(** The loop over a duplicate-free list of entries that are all still in
    the map: what it counts and what it leaves. *)
Lemma foldl_clear_entry (entries : list (string * SearchSession)) :
  NoDup entries.*1 ->
  forall (count : nat) (m : gmap string SearchSession),
    (forall k session, (k, session) ∈ entries -> m !! k = Some session) ->
    (foldl clear_entry (count, m) entries).1
    = (count + length (filter is_finished entries))%nat
    /\ (forall k session,
          (foldl clear_entry (count, m) entries).2 !! k = Some session
          <-> m !! k = Some session
              /\ ~ ((k, session) ∈ entries /\ isRunning session = false)).
Proof.
  induction entries as [|[key value] entries IH]; intros Hnodup count m Hin.
  { cbn. split; [lia|]. intros k session. rewrite elem_of_nil. tauto. }
  rewrite fmap_cons in Hnodup. apply NoDup_cons in Hnodup as [Hfresh Hnodup].
  assert (forall k session, (k, session) ∈ entries -> k ≠ key) as Hother.
  { intros k session Hk ->. apply Hfresh. apply list_elem_of_fmap.
    by exists (key, session). }
  cbn [foldl]. rewrite filter_cons.
  change (clear_entry (count, m) (key, value))
    with (if negb (isRunning value) then (S count, delete key m) else (count, m)).
  destruct (isRunning value) eqn:Hrun; cbn [negb].
  - destruct (IH Hnodup count m) as [Hcount Hmap].
    { intros k session Hk. apply Hin. by right. }
    rewrite decide_False by (unfold is_finished; cbn; congruence).
    split; [done|]. intros k session. rewrite Hmap, elem_of_cons.
    split; intros [Hm Hnot]; (split; [done|]).
    + intros [[Heq|Hk] Hfin]; [|by apply Hnot]. congruence.
    + intros [Hk Hfin]. apply Hnot. by split; [right|].
  - destruct (IH Hnodup (S count) (delete key m)) as [Hcount Hmap].
    { intros k session Hk. rewrite lookup_delete_ne by (symmetry; by eapply Hother).
      apply Hin. by right. }
    rewrite decide_True by done. cbn [length].
    split; [lia|]. intros k session. rewrite Hmap, elem_of_cons.
    destruct (decide (k = key)) as [->|Hne].
    + rewrite lookup_delete_eq. split; [by intros [? _]|].
      intros [Hm Hnot]. exfalso. apply Hnot.
      pose proof (Hin key value ltac:(by left)) as Hvalue.
      assert (session = value) as -> by congruence. by split; [left|].
    + rewrite lookup_delete_ne by done.
      split; intros [Hm Hnot]; (split; [done|]).
      * intros [[Heq|Hk] Hfin]; [congruence | by apply Hnot].
      * intros [Hk Hfin]. apply Hnot. by split; [right|].
Qed.

Lemma fc_clear_search_all (st : State) :
  fc_clear_search "all" st
  = (ok (Cleared (size (filter is_finished (searchSessions st)))),
     set_searchSessions (filter is_running (searchSessions st)) st).
Proof.
  unfold fc_clear_search. rewrite decide_True by done.
  destruct (foldl_clear_entry (map_to_list (searchSessions st))
              (NoDup_fst_map_to_list _) 0%nat (searchSessions st)) as [Hcount Hmap].
  { intros k session. apply elem_of_map_to_list. }
  destruct (foldl clear_entry _ _) as [count sessions]. cbn [fst snd] in *.
  f_equal; [f_equal; f_equal | f_equal].
  - rewrite Hcount. cbn [Nat.add].
    rewrite (map_filter_alt is_finished), map_size_list_to_map; [done|].
    eapply NoDup_fmap_fst.
    + intros k x y [_ Hx]%list_elem_of_filter [_ Hy]%list_elem_of_filter.
      apply elem_of_map_to_list in Hx, Hy. congruence.
    + apply NoDup_filter, NoDup_map_to_list.
  - apply map_eq. intros k. apply option_eq. intros session.
    rewrite Hmap, map_lookup_filter_Some, elem_of_map_to_list.
    unfold is_running. cbn [snd]. split.
    + intros [Hk Hnot]. split; [done|].
      destruct (isRunning session); [done|]. by destruct Hnot.
    + intros [Hk Hrun]. split; [done|]. intros [_ Hfin]. congruence.
Qed.

(** C7 ([clear]): with ["all"] the call is a success that leaves exactly
    the sessions that are running, each as it was, removes every session
    that is not, and reports how many those were, also when there were
    none; calling it again right away is a success that removes nothing.
    With the id of a registered session the call is an error that changes
    nothing while the session runs, and otherwise a success that removes
    that session and no other. *)
Theorem fc_clear_search_spec (st : State) :
  (exists count,
      fc_clear_search "all" st
      = (ok (Cleared count),
         set_searchSessions (filter is_running (searchSessions st)) st)
      /\ count = size (filter is_finished (searchSessions st))
      /\ (forall k session, searchSessions st !! k = Some session ->
            searchSessions (fc_clear_search "all" st).2 !! k
            = if isRunning session then Some session else None)
      /\ (forall k, searchSessions st !! k = None ->
            searchSessions (fc_clear_search "all" st).2 !! k = None)
      /\ fc_clear_search "all" (fc_clear_search "all" st).2
         = (ok (Cleared 0), (fc_clear_search "all" st).2))
  /\ (forall search_id session,
        search_id ≠ "all" ->
        searchSessions st !! search_id = Some session ->
        fc_clear_search search_id st
        = if isRunning session then (failed StillRunning, st)
          else (ok (SearchRemoved search_id),
                set_searchSessions (delete search_id (searchSessions st)) st)).
Proof.
  split.
  - eexists. split; [apply fc_clear_search_all|]. split; [done|].
    rewrite fc_clear_search_all. cbn [snd set_searchSessions searchSessions].
    split; [|split].
    + intros k session Hk. destruct (isRunning session) eqn:Hrun.
      * by apply map_lookup_filter_Some.
      * apply map_lookup_filter_None. right. intros session' Hk'.
        unfold is_running. cbn. assert (session' = session) as -> by congruence.
        by rewrite Hrun.
    + intros k Hk. apply map_lookup_filter_None. by left.
    + rewrite fc_clear_search_all. unfold set_searchSessions.
      cbn [searchSessions searchCounter pending].
      f_equal; [f_equal; f_equal | f_equal].
      * apply map_size_empty_iff, map_eq. intros k.
        rewrite lookup_empty. apply map_lookup_filter_None. right.
        intros session [_ Hrun]%map_lookup_filter_Some.
        unfold is_running, is_finished in *. cbn in *. congruence.
      * apply map_eq. intros k. apply option_eq. intros session.
        rewrite !map_lookup_filter_Some. tauto.
  - intros search_id session Hne Hreg. unfold fc_clear_search.
    rewrite decide_False by done. rewrite Hreg. by destruct (isRunning session).
Qed.

Lemma fc_clear_search_spec_witness :
  searchSessions demo_state !! "search_1_10" = Some finished_search
  /\ searchSessions demo_state !! "search_2_20" = Some running_search
  /\ searchSessions (fc_clear_search "all" demo_state).2 !! "search_1_10" = None
  /\ searchSessions (fc_clear_search "all" demo_state).2 !! "search_2_20"
     = Some running_search.
Proof.
  destruct (proj1 (fc_clear_search_spec demo_state)) as (count & _ & _ & Hkept & _).
  split; [reflexivity|]. split; [reflexivity|]. split.
  - exact (Hkept "search_1_10" finished_search eq_refl).
  - exact (Hkept "search_2_20" running_search eq_refl).
Defined.

(** *** The traversal *)

Lemma Node_nested_ind (P : Node -> Prop) :
  P File ->
  P (Dir None) ->
  (forall entries, Forall (fun entry => P entry.2) entries -> P (Dir (Some entries))) ->
  forall node, P node.
Proof.
  intros HFile HNone HSome. fix IH 1. intros [|[entries|]]; [done| |done].
  apply HSome. induction entries as [|[name entry] entries IHentries]; constructor.
  - apply IH.
  - apply IHentries.
Qed.

Section Traversal.

Variable toUpperCase : N -> jsstring.
Variable join : jsstring -> jsstring -> jsstring.

Abbreviation asyncSearchFiles := (asyncSearchFiles toUpperCase join).
Abbreviation each_with := (each_with toUpperCase join).
Abbreviation found := (found toUpperCase join).
Abbreviation found_below := (found_below toUpperCase join).
Abbreviation run_loop := (run_loop toUpperCase join).
Abbreviation unwind := (unwind toUpperCase join).
Abbreviation readdir_settled := (readdir_settled toUpperCase join).
Abbreviation step := (step toUpperCase join).
Abbreviation resume := (resume toUpperCase join).

Lemma asyncSearchFiles_unfold (node : Node) (session : SearchSession) (dirPath : jsstring) :
  asyncSearchFiles node session dirPath
  = if cancelled session then Returned session
    else
      match
        match readdir node with
        | Some entries =>
            each_with asyncSearchFiles dirPath entries
              (set_scannedDirs (scannedDirs session + 1) session)
        | None => Thrown session
        end
      with
      | Returned session' => Returned session'
      | Thrown session' => Returned session'
      end.
Proof. by destruct node as [|[entries|]]. Qed.

Lemma asyncSearchFiles_returns (node : Node) (session : SearchSession) (dirPath : jsstring) :
  exists session', asyncSearchFiles node session dirPath = Returned session'.
Proof.
  rewrite asyncSearchFiles_unfold. destruct (cancelled session); [by eexists|].
  destruct (match readdir node with Some _ => _ | None => _ end); by eexists.
Qed.

Lemma asyncSearchFiles_unreadable (node : Node) (session : SearchSession) (dirPath : jsstring) :
  readdir node = None -> asyncSearchFiles node session dirPath = Returned session.
Proof.
  intros Hfail. rewrite asyncSearchFiles_unfold, Hfail. by destruct (cancelled session).
Qed.

Lemma each_with_cons recurse dirPath name entry entries (session : SearchSession) :
  each_with recurse dirPath ((name, entry) :: entries) session
  = if cancelled session then Returned session
    else if isDirectory entry then
      if negb (bool_decide (name ∈ skipped))
      then
        match recurse entry session (join dirPath name) with
        | Returned session' => each_with recurse dirPath entries session'
        | Thrown session' => Thrown session'
        end
      else each_with recurse dirPath entries session
    else if test toUpperCase (pattern session) name
    then each_with recurse dirPath entries (push (join dirPath name) session)
    else each_with recurse dirPath entries session.
Proof. reflexivity. Qed.

Lemma each_with_cancelled recurse dirPath entries (session : SearchSession) :
  cancelled session = true -> each_with recurse dirPath entries session = Returned session.
Proof.
  intros Hc. destruct entries as [|[name entry] entries]; [done|].
  by rewrite each_with_cons, Hc.
Qed.

(** An entry whose listing fails is passed over: the loop goes on with the
    entries after it, on the session as it stood. *)
Lemma each_with_unreadable dirPath before name after (session : SearchSession) :
  each_with asyncSearchFiles dirPath (before ++ (name, Dir None) :: after) session
  = each_with asyncSearchFiles dirPath (before ++ after) session.
Proof.
  revert session. induction before as [|[name' entry] before IH]; intros session.
  - cbn [app]. destruct (cancelled session) eqn:Hc.
    { by rewrite !each_with_cancelled. }
    rewrite each_with_cons, Hc. cbn [isDirectory].
    rewrite asyncSearchFiles_unreadable by done.
    by destruct (bool_decide (name ∈ skipped)).
  - rewrite <- !app_comm_cons, !each_with_cons. destruct (cancelled session); [done|].
    destruct (isDirectory entry).
    + destruct (negb (bool_decide (name' ∈ skipped))); [|apply IH].
      destruct (asyncSearchFiles _ _ _); [apply IH | done].
    + destruct (test _ _ _); apply IH.
Qed.

Lemma advance_advance found1 dirs1 found2 dirs2 (session : SearchSession) :
  advance found2 dirs2 (advance found1 dirs1 session)
  = advance (found1 ++ found2) (dirs1 + dirs2) session.
Proof.
  unfold advance, set_scannedDirs, set_results. cbn.
  by rewrite app_assoc, N.add_assoc.
Qed.

Lemma advance_nothing (session : SearchSession) : advance [] 0 session = session.
Proof.
  destruct session. unfold advance, set_scannedDirs, set_results. cbn.
  by rewrite app_nil_r, N.add_0_r.
Qed.

Lemma push_advance fullPath (session : SearchSession) :
  push fullPath session = advance [fullPath] 0 session.
Proof.
  destruct session. unfold push, advance, set_scannedDirs, set_results. cbn.
  by rewrite N.add_0_r.
Qed.

Lemma counted_advance (session : SearchSession) :
  set_scannedDirs (scannedDirs session + 1) session = advance [] 1 session.
Proof.
  destruct session. unfold advance, set_scannedDirs, set_results. cbn.
  by rewrite app_nil_r.
Qed.

(** While nothing cancels it, a traversal appends the matches below the
    node in pre-order and counts the directories it could list. *)
Lemma asyncSearchFiles_running (node : Node) :
  forall (session : SearchSession) (dirPath : jsstring),
    cancelled session = false ->
    asyncSearchFiles node session dirPath
    = Returned (advance (found (pattern session) node dirPath) (listed node) session).
Proof.
  induction node as [| |entries IH] using Node_nested_ind; intros session dirPath Hc.
  - rewrite asyncSearchFiles_unreadable by done. by rewrite advance_nothing.
  - rewrite asyncSearchFiles_unreadable by done. by rewrite advance_nothing.
  - rewrite asyncSearchFiles_unfold, Hc. cbn [readdir found listed].
    rewrite counted_advance.
    enough (forall found0 dirs0,
              each_with asyncSearchFiles dirPath entries (advance found0 dirs0 session)
              = Returned (advance
                            (found0 ++ found_below (found (pattern session))
                                         (pattern session) dirPath entries)
                            (dirs0 + listed_below listed entries) session)) as ->; [done|].
    induction entries as [|[name entry] entries IHentries]; intros found0 dirs0.
    { cbn. by rewrite app_nil_r, N.add_0_r. }
    apply Forall_cons in IH as [IHentry IH]. specialize (IHentries IH).
    cbn [snd] in IHentry.
    assert (cancelled (advance found0 dirs0 session) = false) as Hc' by done.
    rewrite each_with_cons, Hc'. cbn [found_below listed_below].
    change (pattern (advance found0 dirs0 session)) with (pattern session).
    destruct (isDirectory entry); cbn [andb].
    + destruct (bool_decide (name ∈ skipped)); cbn [negb].
      * rewrite IHentries. by rewrite N.add_0_l.
      * rewrite IHentry by done.
        change (pattern (advance found0 dirs0 session)) with (pattern session).
        rewrite advance_advance, IHentries.
        by rewrite <- app_assoc, N.add_assoc.
    + destruct (test _ _ _).
      * rewrite push_advance, advance_advance, IHentries.
        by rewrite <- app_assoc, N.add_0_r, N.add_0_l.
      * rewrite IHentries. by rewrite N.add_0_l.
Qed.

Lemma found_readable regex (node : Node) :
  forall dirPath, found regex (readable node) dirPath = found regex node dirPath.
Proof.
  induction node as [| |entries IH] using Node_nested_ind; intros dirPath; [done..|].
  cbn [readable Search.found].
  induction entries as [|[name entry] entries IHentries]; [done|].
  apply Forall_cons in IH as [IHentry IH]. specialize (IHentries IH).
  cbn [snd] in IHentry. cbn [readable_below Search.found_below].
  destruct entry as [|[below|]].
  - cbn [Search.found_below isDirectory]. by rewrite IHentries.
  - cbn [Search.found_below isDirectory]. by rewrite IHentries, IHentry.
  - cbn [isDirectory Search.found]. rewrite IHentries.
    by destruct (bool_decide (name ∈ skipped)).
Qed.

Lemma listed_readable (node : Node) : listed (readable node) = listed node.
Proof.
  induction node as [| |entries IH] using Node_nested_ind; [done..|].
  cbn [readable listed]. f_equal.
  induction entries as [|[name entry] entries IHentries]; [done|].
  apply Forall_cons in IH as [IHentry IH]. specialize (IHentries IH).
  cbn [snd] in IHentry. cbn [readable_below listed_below].
  destruct entry as [|[below|]].
  - cbn [listed_below isDirectory]. by rewrite IHentries.
  - cbn [listed_below isDirectory]. by rewrite IHentries, IHentry.
  - cbn [isDirectory listed]. rewrite IHentries.
    by destruct (bool_decide (name ∈ skipped)).
Qed.

(** The directories that cannot be listed might as well not be there. *)
Lemma asyncSearchFiles_readable (node : Node) (session : SearchSession) (dirPath : jsstring) :
  asyncSearchFiles (readable node) session dirPath
  = asyncSearchFiles node session dirPath.
Proof.
  destruct (cancelled session) eqn:Hc.
  - rewrite !asyncSearchFiles_unfold. by rewrite Hc.
  - rewrite !asyncSearchFiles_running by done.
    by rewrite found_readable, listed_readable.
Qed.

(** **** Turn by turn *)

Lemma run_loop_cons dirPath name entry entries (session : SearchSession) :
  run_loop dirPath ((name, entry) :: entries) session
  = if cancelled session then LoopReturned session
    else if isDirectory entry then
      if negb (bool_decide (name ∈ skipped))
      then LoopAwaits session entry (join dirPath name) entries
      else run_loop dirPath entries session
    else if test toUpperCase (pattern session) name
    then run_loop dirPath entries (push (join dirPath name) session)
    else run_loop dirPath entries session.
Proof. cbn [Search.run_loop]. by destruct (cancelled session). Qed.

Lemma run_loop_cancelled dirPath entries (session : SearchSession) :
  cancelled session = true -> run_loop dirPath entries session = LoopReturned session.
Proof.
  intros Hc. destruct entries as [|[name entry] entries]; [done|].
  by rewrite run_loop_cons, Hc.
Qed.

Lemma unwind_cons dirPath entries frames (session : SearchSession) :
  unwind (mkFrame dirPath entries :: frames) session
  = match run_loop dirPath entries session with
    | LoopReturned session' => unwind frames session'
    | LoopAwaits session' node fullPath rest =>
        Awaiting session' (mkTask node fullPath (mkFrame dirPath rest :: frames))
    end.
Proof. reflexivity. Qed.

Lemma unwind_cancelled frames (session : SearchSession) :
  cancelled session = true -> unwind frames session = Finished session.
Proof.
  intros Hc. induction frames as [|[dirPath entries] frames IH]; [done|].
  by rewrite unwind_cons, run_loop_cancelled.
Qed.

(** The session a turn leaves. *)
Definition session_of (progress : Progress) : SearchSession :=
  match progress with
  | Awaiting session _ => session
  | Finished session => session
  end.

(** A traversal that nothing cancels comes, turn by turn, to the point at
    which the call for [node] has returned, with the matches below [node]
    appended in pre-order and the listed directories counted, and the calls
    that waited for it go on. *)
Lemma turns_of_call (node : Node) :
  forall (session : SearchSession) (dirPath : jsstring) (frames : list Frame),
    cancelled session = false ->
    exists turns,
      Nat.iter turns step (Awaiting session (mkTask node dirPath frames))
      = unwind frames
          (advance (found (pattern session) node dirPath) (listed node) session).
Proof.
  induction node as [| |entries IH] using Node_nested_ind; intros session dirPath frames Hc.
  - exists 1%nat. cbn. by rewrite advance_nothing.
  - exists 1%nat. cbn. by rewrite advance_nothing.
  - enough (forall found0 dirs0,
              exists turns,
                Nat.iter turns step
                  (unwind (mkFrame dirPath entries :: frames) (advance found0 dirs0 session))
                = unwind frames
                    (advance
                       (found0 ++ found_below (found (pattern session))
                                    (pattern session) dirPath entries)
                       (dirs0 + listed_below listed entries) session)) as Hloop.
    { destruct (Hloop [] 1%N) as [turns Hturns]. exists (S turns).
      rewrite Nat.iter_succ_r.
      cbn [Search.step Search.readdir_settled readdir awaited awaited_path Search.frames
           found listed].
      rewrite counted_advance. exact Hturns. }
    induction entries as [|[name entry] entries IHentries]; intros found0 dirs0.
    { exists 0%nat. cbn. by rewrite app_nil_r, N.add_0_r. }
    apply Forall_cons in IH as [IHentry IH]. specialize (IHentries IH).
    cbn [snd] in IHentry.
    assert (cancelled (advance found0 dirs0 session) = false) as Hc' by done.
    rewrite unwind_cons, run_loop_cons, Hc'. cbn [found_below listed_below].
    change (pattern (advance found0 dirs0 session)) with (pattern session).
    destruct (isDirectory entry); cbn [andb].
    + destruct (bool_decide (name ∈ skipped)); cbn [negb].
      * rewrite <- unwind_cons. destruct (IHentries found0 dirs0) as [turns Hturns].
        exists turns. by rewrite N.add_0_l.
      * destruct (IHentry (advance found0 dirs0 session) (join dirPath name)
                    (mkFrame dirPath entries :: frames) Hc') as [turns1 Hturns1].
        change (pattern (advance found0 dirs0 session)) with (pattern session) in Hturns1.
        rewrite advance_advance in Hturns1.
        destruct (IHentries (found0 ++ found (pattern session) entry (join dirPath name))
                    (dirs0 + listed entry)%N) as [turns2 Hturns2].
        exists (turns2 + turns1)%nat. rewrite Nat.iter_add, Hturns1, Hturns2.
        by rewrite <- app_assoc, N.add_assoc.
    + destruct (test _ _ _).
      * rewrite <- unwind_cons, push_advance, advance_advance.
        destruct (IHentries (found0 ++ [join dirPath name]) (dirs0 + 0)%N)
          as [turns Hturns].
        exists turns. rewrite Hturns. by rewrite <- app_assoc, N.add_0_r, N.add_0_l.
      * rewrite <- unwind_cons. destruct (IHentries found0 dirs0) as [turns Hturns].
        exists turns. by rewrite N.add_0_l.
Qed.

(** The call run from its start to its return is its turns taken one
    after the other. *)
Lemma turns_of_asyncSearchFiles (node : Node) (session : SearchSession)
    (dirPath : jsstring) :
  cancelled session = false ->
  exists turns session',
    asyncSearchFiles node session dirPath = Returned session'
    /\ Nat.iter turns step (Awaiting session (mkTask node dirPath [])) = Finished session'.
Proof.
  intros Hc. destruct (turns_of_call node session dirPath [] Hc) as [turns Hturns].
  exists turns. eexists. split; [by apply asyncSearchFiles_running | exact Hturns].
Qed.

(** A turn only appends results and counts directories. *)
Lemma run_loop_appends dirPath entries (session : SearchSession) :
  exists found0,
    match run_loop dirPath entries session with
    | LoopReturned session' => session'
    | LoopAwaits session' _ _ _ => session'
    end = advance found0 0 session.
Proof.
  revert session. induction entries as [|[name entry] entries IH]; intros session.
  { exists []. cbn. by rewrite advance_nothing. }
  rewrite run_loop_cons. destruct (cancelled session).
  { exists []. by rewrite advance_nothing. }
  destruct (isDirectory entry).
  - destruct (negb (bool_decide (name ∈ skipped))); [|apply IH].
    exists []. by rewrite advance_nothing.
  - destruct (test _ _ _); [|apply IH].
    destruct (IH (push (join dirPath name) session)) as [found0 Hfound0].
    exists ([join dirPath name] ++ found0).
    by rewrite Hfound0, push_advance, advance_advance.
Qed.

Lemma unwind_appends frames (session : SearchSession) :
  exists found0, session_of (unwind frames session) = advance found0 0 session.
Proof.
  revert session. induction frames as [|[dirPath entries] frames IH]; intros session.
  { exists []. cbn. by rewrite advance_nothing. }
  rewrite unwind_cons.
  destruct (run_loop_appends dirPath entries session) as [found0 Hfound0].
  destruct (run_loop dirPath entries session) as [session'|session' node fullPath rest].
  - subst session'. destruct (IH (advance found0 0 session)) as [found1 Hfound1].
    exists (found0 ++ found1). by rewrite Hfound1, advance_advance.
  - by exists found0.
Qed.

Lemma readdir_settled_appends (task : Task) (session : SearchSession) :
  exists found0 dirs0,
    session_of (readdir_settled task session) = advance found0 dirs0 session.
Proof.
  unfold Search.readdir_settled. destruct (readdir (awaited task)) as [entries|].
  - destruct (unwind_appends (mkFrame (awaited_path task) entries :: frames task)
                (set_scannedDirs (scannedDirs session + 1) session)) as [found0 Hfound0].
    exists found0, 1%N. by rewrite Hfound0, counted_advance, advance_advance.
  - destruct (unwind_appends (frames task) session) as [found0 Hfound0].
    by exists found0, 0%N.
Qed.

(** The registry and the tasks over several turns of one traversal. *)
Lemma keep_keep searchId (progress progress' : Progress) (st : State) :
  keep searchId progress' (keep searchId progress st) = keep searchId progress' st.
Proof.
  destruct progress, progress'; unfold keep; cbn [searchSessions searchCounter pending];
    f_equal; by rewrite ?insert_insert_eq, ?delete_insert_eq, ?insert_delete_eq,
                        ?delete_delete_eq.
Qed.

Lemma resume_keep searchId (progress : Progress) (st : State) :
  resume searchId (keep searchId progress st) = keep searchId (step progress) st.
Proof.
  destruct progress as [session task|session]; unfold Search.resume, keep at 1 2 3;
    cbn [searchSessions searchCounter pending].
  - rewrite !lookup_insert_eq. apply (keep_keep _ (Awaiting session task)).
  - by rewrite lookup_delete_eq.
Qed.

Lemma iter_resume_keep (turns : nat) searchId (progress : Progress) (st : State) :
  Nat.iter turns (resume searchId) (keep searchId progress st)
  = keep searchId (Nat.iter turns step progress) st.
Proof.
  induction turns as [|turns IH]; [done|]. by rewrite !Nat.iter_succ, IH, resume_keep.
Qed.

End Traversal.

Section Start.

Variable normalizePath : jsstring -> jsstring.
Variable fs : jsstring -> option Node.

(** The session a start registers. *)
Definition started_session (now : N) (directory pattern_ : jsstring) (st : State)
  : SearchSession :=
  mkSearchSession (generateSearchId now st).1 (normalizePath directory)
    (AssertBegin :: (term_of <$> pattern_) ++ [AssertEnd]) pattern_ [] true now 0 false.

Lemma fc_start_search_cases (now : N) (directory pattern_ : jsstring) (st : State) :
  fc_start_search normalizePath fs now directory pattern_ st
  = match fs (normalizePath directory) with
    | None => (failed (DirectoryNotFound (normalizePath directory)), st)
    | Some node =>
        (ok (SearchStarted (generateSearchId now st).1 (normalizePath directory) pattern_),
         keep (generateSearchId now st).1
           (Awaiting (started_session now directory pattern_ st)
              (mkTask node (normalizePath directory) []))
           (mkState (searchSessions st) (searchCounter st + 1) (pending st)))
    end.
Proof.
  unfold fc_start_search, pathExists.
  destruct (fs (normalizePath directory)) as [node|]; [|done].
  cbn [negb default from_option]. rewrite compile_total.
  cbn [generateSearchId fst snd cancelled isRunning aborted negb orb keep
       searchSessions searchCounter pending].
  by rewrite insert_insert_eq.
Qed.

End Start.

(** A small tree for examples: two matching files, one of them below
    [src], a directory that cannot be listed, and a skipped directory. *)
Definition demo_join (dirPath name : jsstring) : jsstring := dirPath ++ str "/" ++ name.

Definition demo_tree : Node :=
  Dir (Some [ (str "a.ts", File);
              (str "locked", Dir None);
              (str "node_modules", Dir (Some [(str "x.ts", File)]));
              (str "src", Dir (Some [(str "b.TS", File); (str "c.js", File)])) ]).

Definition demo_fs (targetPath : jsstring) : option Node :=
  if decide (targetPath = str "/proj") then Some demo_tree
  else if decide (targetPath = str "/etc/hosts") then Some File
  else None.

Definition fresh_search : SearchSession :=
  mkSearchSession "search_1_5" (str "/proj")
    [AssertBegin; Star Dot; Single (PatternCharacter 46); Single (PatternCharacter 116);
     Single (PatternCharacter 115); AssertEnd]
    (str "*.ts") [] true 5 0 false.

(** C5 (read failures are absorbed): a traversal always returns normally;
    on a node whose listing fails it returns the session exactly as it got
    it, so nothing is appended and the directory counter is not raised; a
    directory entry whose listing fails changes nothing in the traversal of
    the directory that contains it, which goes on with the entries after it
    as if the entry were not there, and the same holds with all such
    directories removed at every depth; and after a traversal that is not
    cancelled the results of the session are what it held before followed
    by exactly the matches of the listable part of the tree in pre-order,
    its directory counter has gone up by exactly the number of directories
    that were listed, and nothing else of the session has changed. *)
Theorem asyncSearchFiles_absorbs_read_failures
    (toUpperCase : N -> jsstring) (join : jsstring -> jsstring -> jsstring)
    (node : Node) (session : SearchSession) (dirPath : jsstring) :
  (exists session', asyncSearchFiles toUpperCase join node session dirPath = Returned session')
  /\ (readdir node = None ->
      asyncSearchFiles toUpperCase join node session dirPath = Returned session)
  /\ (forall before name after,
        asyncSearchFiles toUpperCase join
          (Dir (Some (before ++ (name, Dir None) :: after))) session dirPath
        = asyncSearchFiles toUpperCase join (Dir (Some (before ++ after))) session dirPath)
  /\ asyncSearchFiles toUpperCase join (readable node) session dirPath
     = asyncSearchFiles toUpperCase join node session dirPath
  /\ (cancelled session = false ->
      exists session',
        asyncSearchFiles toUpperCase join node session dirPath = Returned session'
        /\ results session'
           = results session
             ++ found toUpperCase join (pattern session) (readable node) dirPath
        /\ results session'
           = results session ++ found toUpperCase join (pattern session) node dirPath
        /\ scannedDirs session' = (scannedDirs session + listed node)%N
        /\ id session' = id session /\ directory session' = directory session
        /\ pattern session' = pattern session
        /\ patternString session' = patternString session
        /\ isRunning session' = isRunning session
        /\ startTime session' = startTime session
        /\ aborted session' = aborted session).
Proof.
  split; [apply asyncSearchFiles_returns|].
  split; [apply asyncSearchFiles_unreadable|].
  split; [|split; [apply asyncSearchFiles_readable|]].
  - intros before name after. rewrite !asyncSearchFiles_unfold. cbn [readdir].
    by rewrite each_with_unreadable.
  - intros Hc. eexists. split; [by apply asyncSearchFiles_running|].
    rewrite found_readable. by repeat split.
Qed.

Lemma asyncSearchFiles_absorbs_read_failures_witness :
  cancelled fresh_search = false
  /\ exists session',
       asyncSearchFiles ascii_toUpperCase demo_join demo_tree fresh_search (str "/proj")
       = Returned session'
       /\ results session' = [str "/proj/a.ts"; str "/proj/src/b.TS"]
       /\ scannedDirs session' = 2%N.
Proof.
  split; [reflexivity|].
  destruct (proj2 (proj2 (proj2 (proj2
              (asyncSearchFiles_absorbs_read_failures ascii_toUpperCase demo_join
                 demo_tree fresh_search (str "/proj"))))) eq_refl)
    as (session' & Hreturned & _ & Hresults & Hdirs & _).
  exists session'. split; [exact Hreturned|]. split; [exact Hresults | exact Hdirs].
Defined.

(** *** start *)

(** C3 (a path that is no directory): the handler looks only at whether
    something is at the normalised path.  When what is there is not a
    directory the call is a success all the same: it returns a new id and
    registers under it a session that is running, with the traversal waiting
    for a listing that will fail.  At its next turn the traversal ends, and
    the session is left not running, with no result and no directory
    counted. *)
Theorem fc_start_search_accepts_non_directory
    (toUpperCase : N -> jsstring) (join : jsstring -> jsstring -> jsstring)
    (normalizePath : jsstring -> jsstring) (fs : jsstring -> option Node)
    (now : N) (directory pattern_ : jsstring) (st : State) (node : Node) :
  fs (normalizePath directory) = Some node ->
  isDirectory node = false ->
  let dirPath := normalizePath directory in
  let searchId := (generateSearchId now st).1 in
  let reply := fc_start_search normalizePath fs now directory pattern_ st in
  isError reply.1 = false
  /\ reply.1 = ok (SearchStarted searchId dirPath pattern_)
  /\ (exists session,
        searchSessions reply.2 !! searchId = Some session
        /\ isRunning session = true /\ Search.directory session = dirPath
        /\ results session = [] /\ scannedDirs session = 0%N)
  /\ pending reply.2 !! searchId = Some (mkTask node dirPath [])
  /\ (exists session,
        searchSessions (resume toUpperCase join searchId reply.2) !! searchId
        = Some session
        /\ isRunning session = false
        /\ results session = [] /\ scannedDirs session = 0%N)
  /\ pending (resume toUpperCase join searchId reply.2) !! searchId = None.
Proof.
  intros Hnode Hfile dirPath searchId reply. subst reply.
  rewrite fc_start_search_cases, Hnode. fold dirPath searchId. cbn [fst snd].
  rewrite resume_keep. destruct node as [|listing]; [|done].
  cbn [isError ok keep step readdir_settled readdir awaited frames unwind
       searchSessions pending].
  rewrite !lookup_insert_eq, lookup_delete_eq.
  split; [done|]. split; [done|]. split; [by eexists|]. split; [done|].
  split; [by eexists | done].
Qed.

Lemma fc_start_search_accepts_non_directory_witness :
  demo_fs (str "/etc/hosts") = Some File
  /\ isDirectory File = false
  /\ (fc_start_search (fun targetPath => targetPath) demo_fs 5
        (str "/etc/hosts") (str "*") (mkState ∅ 0 ∅)).1
     = ok (SearchStarted "search_1_5" (str "/etc/hosts") (str "*")).
Proof.
  split; [reflexivity|]. split; [reflexivity|].
  exact (proj1 (proj2
           (fc_start_search_accepts_non_directory ascii_toUpperCase demo_join
              (fun targetPath => targetPath) demo_fs 5 (str "/etc/hosts") (str "*")
              (mkState ∅ 0 ∅) File eq_refl eq_refl))).
Defined.

End Search.

(** ** Session ids *)

Module Ids.

(** [`${prefix}${counter}_${Date.now()}`], the shape of the ids made by
    [generateSessionId] (prefix [session_]) and [generateSearchId] (prefix
    [search_]). *)
Definition id_text (prefix : string) (counter now : N) : string :=
  prefix +:+ pretty counter +:+ "_" +:+ pretty now.

Definition is_digit (a : ascii) : Prop :=
  (48 <= N_of_ascii a <= 57)%N.

Fixpoint all_digits (s : string) : Prop :=
  match s with
  | EmptyString => True
  | String a s' => is_digit a /\ all_digits s'
  end.

Lemma pretty_N_char_digit (x : N) : (x < 10)%N -> is_digit (pretty_N_char x).
Proof.
  intros Hx. unfold is_digit.
  assert (x = 0 \/ x = 1 \/ x = 2 \/ x = 3 \/ x = 4 \/ x = 5 \/ x = 6 \/ x = 7
          \/ x = 8 \/ x = 9)%N as Hcases by lia.
  repeat destruct Hcases as [->|Hcases]; try subst x; vm_compute; split; congruence.
Qed.

Lemma pretty_N_go_digits (x : N) :
  forall s, all_digits s -> all_digits (pretty_N_go x s).
Proof.
  induction (N.lt_wf_0 x) as [x _ IH]. intros s Hs.
  destruct (decide (x = 0%N)) as [->|Hx].
  - by rewrite pretty_N_go_0.
  - rewrite pretty_N_go_step by lia.
    apply IH.
    + apply N.div_lt; lia.
    + split; [|done]. apply pretty_N_char_digit. apply N.mod_lt. lia.
Qed.

Lemma pretty_N_digits (x : N) : all_digits (pretty x).
Proof.
  unfold pretty, pretty_N. case_decide.
  - vm_compute. repeat split; congruence.
  - by apply pretty_N_go_digits.
Qed.

(** A run of digits ends where the underscore after it stands. *)
Lemma digits_then_underscore (d1 d2 rest1 rest2 : string) :
  all_digits d1 -> all_digits d2 ->
  d1 +:+ "_" +:+ rest1 = d2 +:+ "_" +:+ rest2 ->
  d1 = d2 /\ rest1 = rest2.
Proof.
  revert d2. induction d1 as [|a d1 IH]; intros [|b d2] H1 H2 Heq.
  - by injection Heq.
  - exfalso. injection Heq as Ha _. destruct H2 as [Hb _]. subst b.
    vm_compute in Hb. destruct Hb as [_ Hb]. by apply Hb.
  - exfalso. injection Heq as Ha _. destruct H1 as [Hb _]. subst a.
    vm_compute in Hb. destruct Hb as [_ Hb]. by apply Hb.
  - injection Heq as -> Heq. destruct H1 as [_ H1], H2 as [_ H2].
    destruct (IH d2 H1 H2 Heq) as [-> ->]. done.
Qed.

Lemma id_text_inj (prefix : string) (c1 n1 c2 n2 : N) :
  id_text prefix c1 n1 = id_text prefix c2 n2 -> c1 = c2 /\ n1 = n2.
Proof.
  unfold id_text. intros Heq.
  apply (inj (String.app prefix)) in Heq.
  apply digits_then_underscore in Heq as [Hc Hn]; [|apply pretty_N_digits..].
  split; by apply (inj pretty).
Qed.

End Ids.

(** ** The life of a process session *)

Module ProcessLifecycle.

Import Process.

Inductive SendMessage :=
| SendSessionNotFound (sessionId : string)
| SessionEnded
| InputSent (sessionId input : string).

(** [fc_send_input]: the reply, and what was written to the standard input
    of which child.  The registry is only read; the child has a standard
    input, and writing to it does not throw. *)
Definition fc_send_input (session_id input : string) (newline : bool) (st : State)
  : ToolResult SendMessage * option (nat * string) :=
  match processSessions st !! session_id with
  | None => (failed (SendSessionNotFound session_id), None)
  | Some session =>
      if negb (isRunning session) then (failed SessionEnded, None)
      else
        let inputText := if newline then input +:+ LF else input in
        (ok (InputSent session_id input), Some (process session, inputText))
  end.

(** The chunk the handler of an event pushes. *)
Definition chunk_of (ev : Event) : string :=
  match ev with
  | StdoutData data => data
  | StderrData data => "[stderr] " +:+ data
  | Close code => LF +:+ "[Prozess beendet mit Code " +:+ code_text code +:+ "]"
  | Error message => LF +:+ "[Fehler: " +:+ message +:+ "]"
  end.

(** The events after which the child is gone. *)
Definition is_exit (ev : Event) : bool :=
  match ev with
  | Close _ | Error _ => true
  | StdoutData _ | StderrData _ => false
  end.

(** The events of one child run on its session object, in arrival order. *)
Definition after_events (events : list Event) (session : ProcessSession) : ProcessSession :=
  foldl (fun session ev => handle ev session) session events.

(** How many chunks a transcript holds after [n] chunks came in on stdout
    alone: all of them up to 1000, and from the 1001st on the count swings
    between 500 and 1000. *)
Definition retained (n : nat) : nat :=
  if (n <=? 1000)%nat then n else (500 + (n - 1001) mod 501)%nat.

(** What reaches the registry of process sessions. *)
Inductive Request :=
| StartSession (now : N) (spawned : option nat) (command : string)
    (args : list string) (cwd : string)
| ChildEvent (sessionId : string) (ev : Event)
| ReadOutput (sessionId : string) (clear : bool)
| SendInput (sessionId input : string) (newline : bool)
| ListSessions
| CloseSession (sessionId : string) (force : bool).

Definition serve (st : State) (request : Request) : State :=
  match request with
  | StartSession now spawned command args cwd =>
      (fc_start_session now spawned command args cwd st).2
  | ChildEvent sessionId ev => deliver sessionId ev st
  | ReadOutput sessionId clear => (fc_read_output sessionId clear st).2
  | SendInput _ _ _ | ListSessions => st
  | CloseSession sessionId force => (fc_close_session sessionId force st).2
  end.

(** The server starts with no session and the counter at 0. *)
Definition initial : State := mkState ∅ [] 0 [].

(** Every registered id was made by [generateSessionId] from a counter
    value that is not above the current one. *)
Definition ids_issued (st : State) : Prop :=
  forall k, is_Some (processSessions st !! k) ->
    exists counter now, (counter <= sessionCounter st)%N
                        /\ k = Ids.id_text "session_" counter now.

(** *** Order and retention *)

Lemma output_handle (ev : Event) (session : ProcessSession) :
  output (handle ev session)
  = if is_exit ev then output session ++ [chunk_of ev]
    else match ev with
         | StdoutData _ =>
             if (1000 <? S (length (output session)))%nat
             then drop (length (output session) + 1 - 500) (output session ++ [chunk_of ev])
             else output session ++ [chunk_of ev]
         | _ => output session ++ [chunk_of ev]
         end.
Proof. destruct ev; cbn [handle is_exit chunk_of]; [apply output_on_stdout_data|done..]. Qed.

Lemma output_handle_suffix (ev : Event) (session : ProcessSession) :
  exists dropped,
    output session ++ [chunk_of ev] = dropped ++ output (handle ev session)
    /\ last (output (handle ev session)) = Some (chunk_of ev).
Proof.
  rewrite output_handle.
  destruct ev; cbn [is_exit]; try (exists []; split; [done | apply last_snoc]).
  destruct (Nat.ltb_spec 1000 (S (length (output session)))).
  - eexists. split; [symmetry; apply take_drop|].
    rewrite drop_app_le by lia. apply last_snoc.
  - exists []. split; [done | apply last_snoc].
Qed.

Lemma after_events_snoc events ev (session : ProcessSession) :
  after_events (events ++ [ev]) session = handle ev (after_events events session).
Proof. unfold after_events. by rewrite foldl_snoc. Qed.

(** X1 (arrival order): whatever events arrive, on either stream and in any
    number, the transcript is always an end piece of the sequence of all
    chunks in arrival order: eviction drops from the old end only and never
    reorders, and the chunk of the latest event is always the last one. *)
Theorem transcript_is_recent_history (events : list Event) (session : ProcessSession) :
  (exists dropped,
      output session ++ (chunk_of <$> events)
      = dropped ++ output (after_events events session))
  /\ (forall ev, last (output (after_events (events ++ [ev]) session)) = Some (chunk_of ev)).
Proof.
  split.
  - revert session. induction events as [|ev events IH]; intros session.
    + exists []. cbn. by rewrite app_nil_r.
    + destruct (output_handle_suffix ev session) as (d0 & Hd0 & _).
      destruct (IH (handle ev session)) as [d1 Hd1].
      exists (d0 ++ d1). cbn [fmap list_fmap after_events foldl].
      fold (after_events events (handle ev session)).
      rewrite <- app_assoc, <- Hd1, app_assoc, <- Hd0, <- app_assoc. done.
  - intros ev. rewrite after_events_snoc.
    by destruct (output_handle_suffix ev (after_events events session)) as (_ & _ & ->).
Qed.

Lemma retained_S (n : nat) :
  retained (S n) = if (retained n =? 1000)%nat then 500%nat else S (retained n).
Proof.
  unfold retained.
  destruct (Nat.leb_spec (S n) 1000), (Nat.leb_spec n 1000); try lia.
  - destruct (Nat.eqb_spec n 1000); [lia | done].
  - assert (n = 1000%nat) as -> by lia. done.
  - pose proof (Nat.div_mod_eq (n - 1001) 501) as Hn.
    pose proof (Nat.mod_upper_bound (n - 1001) 501 ltac:(lia)) as Hr.
    set (q := ((n - 1001) / 501)%nat) in *. set (r := ((n - 1001) mod 501)%nat) in *.
    destruct (Nat.eqb_spec (500 + r) 1000) as [Hfull|Hroom].
    + assert ((S n - 1001) mod 501 = 0)%nat as ->; [|done].
      symmetry. apply (Nat.mod_unique _ _ (S q)); lia.
    + assert ((S n - 1001) mod 501 = S r)%nat as ->; [|done].
      symmetry. apply (Nat.mod_unique _ _ q); lia.
Qed.

Lemma retained_bounds (n : nat) :
  (retained n <= n /\ retained n <= 1000 /\ (1000 < n -> 500 <= retained n))%nat.
Proof.
  unfold retained. destruct (Nat.leb_spec n 1000); [lia|].
  pose proof (Nat.mod_upper_bound (n - 1001) 501 ltac:(lia)). lia.
Qed.

(** X2 (retention under stdout): when [n] chunks have come in on stdout
    alone since the transcript was empty, the transcript holds exactly the
    most recent [retained n] of them, in order: all of them up to 1000, and
    between 500 and 1000 ever after. *)
Theorem stdout_transcript_holds_most_recent (chunks : list string) (session : ProcessSession) :
  output session = [] ->
  let n := length chunks in
  output (after_events (StdoutData <$> chunks) session) = drop (n - retained n) chunks
  /\ (retained n <= 1000)%nat
  /\ (n <= 1000 -> retained n = n)%nat
  /\ (1000 < n -> 500 <= retained n)%nat.
Proof.
  intros Hempty n. subst n.
  split; [|pose proof (retained_bounds (length chunks)); unfold retained in *;
           destruct (Nat.leb_spec (length chunks) 1000); lia].
  induction chunks as [|chunk chunks IH] using rev_ind.
  { by cbn. }
  rewrite fmap_app. cbn [fmap list_fmap]. rewrite after_events_snoc.
  cbn [handle]. rewrite output_on_stdout_data, IH.
  rewrite length_app. cbn [length].
  replace (length chunks + 1)%nat with (S (length chunks)) by lia.
  rewrite retained_S.
  pose proof (retained_bounds (length chunks)) as (Hle & _ & _).
  rewrite length_drop.
  replace (length chunks - (length chunks - retained (length chunks)))%nat
    with (retained (length chunks)) by lia.
  destruct (Nat.eqb_spec (retained (length chunks)) 1000) as [Hfull|Hroom].
  - rewrite Hfull. change (1000 <? 1001)%nat with true. cbv iota.
    rewrite <- drop_app_le by lia. rewrite drop_drop. f_equal; lia.
  - pose proof (retained_bounds (length chunks)) as (_ & Hcap & _).
    destruct (Nat.ltb_spec 1000 (S (retained (length chunks)))); [lia|].
    rewrite <- drop_app_le by lia. f_equal; lia.
Qed.

Lemma stdout_transcript_holds_most_recent_witness :
  output (mkProcessSession "session_1_0" 7 "sh" [] "/" 0 [] true) = []
  /\ length (output (after_events (StdoutData <$> replicate 1500 "y")
                      (mkProcessSession "session_1_0" 7 "sh" [] "/" 0 [] true)))
     = 999%nat.
Proof.
  split; [reflexivity|].
  rewrite (proj1 (stdout_transcript_holds_most_recent (replicate 1500 "y")
                    (mkProcessSession "session_1_0" 7 "sh" [] "/" 0 [] true) eq_refl)).
  rewrite length_drop, length_replicate. reflexivity.
Defined.

(** *** Exit, input and reading *)

Lemma isRunning_handle (ev : Event) (session : ProcessSession) :
  isRunning (handle ev session) = isRunning session && negb (is_exit ev).
Proof.
  destruct ev; cbn [handle is_exit negb]; rewrite ?andb_true_r, ?andb_false_r; try done.
  unfold on_stdout_data. by destruct (_ <? _)%nat.
Qed.

Lemma isRunning_after_events (events : list Event) (session : ProcessSession) :
  isRunning (after_events events session)
  = isRunning session && negb (existsb is_exit events).
Proof.
  revert session. induction events as [|ev events IH]; intros session.
  - cbn. by rewrite andb_true_r.
  - cbn [after_events foldl existsb]. fold (after_events events (handle ev session)).
    rewrite IH, isRunning_handle, negb_orb. by rewrite andb_assoc.
Qed.

Lemma process_handle (ev : Event) (session : ProcessSession) :
  process (handle ev session) = process session.
Proof. destruct ev; try done. cbn. unfold on_stdout_data. by destruct (_ <? _)%nat. Qed.

Lemma run_events_after_events (sessionId : string) (events : list Event) (st : State) :
  processSessions (run_events sessionId events st) !! sessionId
  = after_events events <$> processSessions st !! sessionId.
Proof. apply run_events_lookup. Qed.

(** X3 (input and exit): a registered session that is running gets the
    input written to the standard input of its own child, followed by a line
    feed exactly when [newline] is set.  Once the close or the error event of
    the child has been handled, every later send is refused as ended and
    writes nothing, whatever output still arrives in between; and after
    [fc_close_session] the id is refused as unknown. *)
Theorem fc_send_input_lifecycle (st : State) (session_id input : string) (newline : bool)
    (session : ProcessSession) :
  processSessions st !! session_id = Some session ->
  (isRunning session = true ->
   fc_send_input session_id input newline st
   = (ok (InputSent session_id input),
      Some (process session, if newline then input +:+ LF else input)))
  /\ (forall before ev later,
        is_exit ev = true ->
        fc_send_input session_id input newline
          (run_events session_id (before ++ ev :: later) st)
        = (failed SessionEnded, None))
  /\ (forall force,
        fc_send_input session_id input newline (fc_close_session session_id force st).2
        = (failed (SendSessionNotFound session_id), None)).
Proof.
  intros Hreg. split; [|split].
  - intros Hrun. unfold fc_send_input. by rewrite Hreg, Hrun.
  - intros before ev later Hexit. unfold fc_send_input.
    rewrite run_events_after_events, Hreg. cbn [fmap option_fmap option_map].
    rewrite isRunning_after_events, existsb_app. cbn [existsb].
    rewrite Hexit, orb_true_r. by rewrite andb_false_r.
  - intros force. unfold fc_send_input, fc_close_session. rewrite Hreg.
    cbn [snd set_processSessions Map_set Map_delete processSessions]. by rewrite lookup_delete_eq.
Qed.

Lemma fc_send_input_lifecycle_witness :
  processSessions demo_state !! "session_1_5" = Some demo_session
  /\ fc_send_input "session_1_5" "print(1+1)" true demo_state
     = (ok (InputSent "session_1_5" "print(1+1)"), Some (7%nat, "print(1+1)" +:+ LF))
  /\ fc_send_input "session_1_5" "print(1+1)" true
       (run_events "session_1_5" [StdoutData "a"; Close (Some 0%Z); StderrData "b"] demo_state)
     = (failed SessionEnded, None).
Proof.
  destruct (fc_send_input_lifecycle demo_state "session_1_5" "print(1+1)" true
              demo_session eq_refl) as (Hsend & Hended & _).
  split; [reflexivity|]. split.
  - exact (Hsend eq_refl).
  - exact (Hended [StdoutData "a"] (Close (Some 0%Z)) [StderrData "b"] eq_refl).
Defined.

Lemma output_after_events_small (events : list Event) (session : ProcessSession) :
  (length (output session) + length events <= 1000)%nat ->
  output (after_events events session) = output session ++ (chunk_of <$> events).
Proof.
  revert session. induction events as [|ev events IH]; intros session Hlen.
  - cbn. by rewrite app_nil_r.
  - cbn [after_events foldl fmap list_fmap length] in *.
    fold (after_events events (handle ev session)).
    assert (output (handle ev session) = output session ++ [chunk_of ev]) as Hstep.
    { rewrite output_handle. destruct ev; cbn [is_exit]; try done.
      destruct (Nat.ltb_spec 1000 (S (length (output session)))); [lia | done]. }
    rewrite IH; rewrite Hstep; [by rewrite <- app_assoc|].
    rewrite length_app. cbn [length]. lia.
Qed.

(** X4 (reading since the last clear): after a read with [clear], and then
    at most 1000 events of the child, a read returns exactly the chunks of
    those events, concatenated in arrival order (the placeholder when that is
    empty), and reports the session as running exactly when it was running
    and none of the events was its close or error event. *)
Theorem fc_read_output_since_clear (st : State) (session_id : string)
    (session : ProcessSession) (events : list Event) (clear : bool) :
  processSessions st !! session_id = Some session ->
  (length events <= 1000)%nat ->
  let cleared := (fc_read_output session_id true st).2 in
  (fc_read_output session_id clear (run_events session_id events cleared)).1
  = ok (SessionOutput (isRunning session && negb (existsb is_exit events))
          (or_placeholder (String.concat EmptyString (chunk_of <$> events)))).
Proof.
  intros Hreg Hlen cleared. subst cleared.
  unfold fc_read_output at 2. rewrite Hreg. cbn [snd].
  unfold fc_read_output. rewrite run_events_after_events.
  cbn [processSessions set_processSessions Map_set Map_delete]. rewrite lookup_insert_eq.
  cbn [fmap option_fmap option_map fst].
  rewrite isRunning_after_events, output_after_events_small by (cbn; lia).
  done.
Qed.

Lemma fc_read_output_since_clear_witness :
  processSessions demo_state !! "session_1_5" = Some demo_session
  /\ (length [StdoutData "2"; StderrData "warn"; Close (Some 0%Z)] <= 1000)%nat
  /\ (fc_read_output "session_1_5" false
        (run_events "session_1_5" [StdoutData "2"; StderrData "warn"; Close (Some 0%Z)]
           (fc_read_output "session_1_5" true demo_state).2)).1
     = ok (SessionOutput false
             ("2[stderr] warn" +:+ LF +:+ "[Prozess beendet mit Code 0]")).
Proof.
  split; [reflexivity|]. split; [cbn; lia|].
  exact (fc_read_output_since_clear demo_state "session_1_5" demo_session
           [StdoutData "2"; StderrData "warn"; Close (Some 0%Z)] false eq_refl
           ltac:(cbn; lia)).
Defined.

(** *** Ids *)

Lemma generateSessionId_id_text (now : N) (st : State) :
  (generateSessionId now st).1 = Ids.id_text "session_" (sessionCounter st + 1) now.
Proof. reflexivity. Qed.





(** The ids that the start requests among [requests] return, in order. *)
Fixpoint started_ids (st : State) (requests : list Request) : list string :=
  match requests with
  | [] => []
  | request :: requests' =>
      match request with
      | StartSession now _ _ _ _ => [(generateSessionId now st).1]
      | _ => []
      end ++ started_ids (serve st request) requests'
  end.

Lemma sessionCounter_serve (st : State) (request : Request) :
  (sessionCounter st <= sessionCounter (serve st request))%N.
Proof.
  destruct request as [now spawned command args cwd|sessionId ev
    |sessionId clear|sessionId input newline| |sessionId force]; cbn [serve]; try done.
  - unfold fc_start_session. destruct spawned; cbn; lia.
  - unfold fc_read_output. destruct (processSessions st !! sessionId); [|done].
    by destruct clear.
  - unfold fc_close_session. destruct (processSessions st !! sessionId) as [session|]; [|done].
    by destruct (isRunning session), force.
Qed.

Lemma session_started_ids_above (st : State) (requests : list Request) (k : string) :
  k ∈ started_ids st requests ->
  exists counter now, (sessionCounter st < counter)%N /\ k = Ids.id_text "session_" counter now.
Proof.
  revert st. induction requests as [|request requests IH]; intros st; cbn [started_ids].
  - by intros ?%elem_of_nil.
  - intros [Hhere|Hlater]%elem_of_app.
    + destruct request; try by apply elem_of_nil in Hhere.
      apply list_elem_of_singleton in Hhere as ->.
      eexists _, _. split; [|apply generateSessionId_id_text]. lia.
    + destruct (IH _ Hlater) as (counter & now & Hlt & ->).
      exists counter, now. split; [|done].
      pose proof (sessionCounter_serve st request). lia.
Qed.

(** X6 (session ids are never reused): from any state and over any run of
    requests and child events, whether the spawns succeed or not and whether
    sessions are closed in between or not, the ids that the start requests
    hand out are pairwise different. *)
Theorem session_ids_never_reused (st : State) (requests : list Request) :
  NoDup (started_ids st requests).
Proof.
  revert st. induction requests as [|request requests IH]; intros st; cbn [started_ids].
  { constructor. }
  apply NoDup_app. split; [|split; [|apply IH]].
  - destruct request; try constructor; [by intros ?%elem_of_nil | constructor].
  - intros k Hhere Hlater. destruct request; try by apply elem_of_nil in Hhere.
    apply list_elem_of_singleton in Hhere as ->.
    apply session_started_ids_above in Hlater as (counter & now' & Hlt & Heq).
    rewrite generateSessionId_id_text in Heq.
    apply Ids.id_text_inj in Heq as [<- _].
    revert Hlt. cbn [serve]. unfold fc_start_session. destruct spawned; cbn; lia.
Qed.

(** *** The enumeration *)

Lemma serve_enumerates (st : State) (request : Request) :
  enumerates st -> enumerates (serve st request).
Proof.
  intros Hst. destruct request as [now spawned command args cwd|sessionId ev
                                   |sessionId clear|sessionId input newline|
                                   |sessionId force]; cbn [serve]; try done.
  - unfold fc_start_session. destruct spawned as [proc|]; cbn [generateSessionId snd].
    + by apply Map_set_enumerates.
    + done.
  - unfold deliver. apply set_processSessions_enumerates; [|done].
    intros k. destruct (decide (k = sessionId)) as [->|Hne].
    + rewrite lookup_alter_eq. by rewrite fmap_is_Some.
    + by rewrite lookup_alter_ne.
  - unfold fc_read_output.
    destruct (processSessions st !! sessionId) as [session|] eqn:Hreg; [|done].
    destruct clear; [|done]. cbn [snd].
    apply set_processSessions_enumerates; [|done].
    intros k. rewrite lookup_insert_is_Some. split.
    + intros [<-|[_ Hk]]; [by rewrite Hreg | done].
    + intros Hk. destruct (decide (sessionId = k)); [by left | by right].
  - unfold fc_close_session.
    destruct (processSessions st !! sessionId) as [session|]; [|done]. cbn [snd].
    apply Map_delete_enumerates.
    by destruct (isRunning session), force.
Qed.

(** In every state the server can reach the enumeration holds the keys of
    the map, so [fc_list_sessions] shows every session once, in the order in
    which they were started. *)
Lemma listed_ids_reachable (requests : list Request) :
  enumerates (foldl serve initial requests)
  /\ listed_ids (fc_list_sessions (foldl serve initial requests))
     = insertionOrder (foldl serve initial requests).
Proof.
  assert (enumerates (foldl serve initial requests)) as Hreach.
  { induction requests as [|request requests IH] using rev_ind.
    - split; [constructor|]. intros k. cbn. rewrite lookup_empty.
      split; [by intros ?%elem_of_nil | by intros [? ?]].
    - rewrite foldl_snoc. by apply serve_enumerates. }
  split; [done | by apply listed_ids_enumerates].
Qed.

End ProcessLifecycle.

(** ** The life of a search session *)

Module SearchLifecycle.

Import Wildcard Search.

(** What reaches the registry of searches: the five tools, of which
    [fc_list_searches] only reads it, and the turns of the traversals that
    were started, each of which begins when a listing arrives or fails and
    ends when the traversal waits for the next one or is over. *)
Inductive Request :=
| StartSearch (now : N) (directory pattern_ : jsstring)
| GetResults (searchId : string) (offset limit : Z)
| StopSearch (searchId : string)
| ListSearches
| ClearSearch (searchId : string)
| Resume (searchId : string).

Definition is_clear (request : Request) : bool :=
  match request with
  | ClearSearch _ => true
  | _ => false
  end.

(** The server starts with no search and the counter at 0. *)
Definition initial : State := mkState ∅ 0 ∅.

(** Every registered id was made by [generateSearchId] from a counter value
    that is not above the current one. *)
Definition ids_issued (st : State) : Prop :=
  forall k, is_Some (searchSessions st !! k) ->
    exists counter now, (counter <= searchCounter st)%N
                        /\ k = Ids.id_text "search_" counter now.

(** The page a [fc_get_search_results] reply carries. *)
Definition page_of (reply : ToolResult Message) : list jsstring :=
  match content reply with
  | SearchResults _ _ _ _ _ _ _ paginatedResults _ => paginatedResults
  | _ => []
  end.

Definition has_more (reply : ToolResult Message) : bool :=
  match content reply with
  | SearchResults _ _ _ _ _ _ _ _ hasMore => hasMore
  | _ => false
  end.

(** What may happen to a session between two looks at it: the results
    grow at the end, the counter of listed directories grows, a session that
    is not running stays so, a cancellation stays, and nothing else
    changes. *)
Definition progress (s s' : SearchSession) : Prop :=
  id s' = id s /\ directory s' = directory s /\ pattern s' = pattern s
  /\ patternString s' = patternString s /\ startTime s' = startTime s
  /\ results s `prefix_of` results s'
  /\ (scannedDirs s <= scannedDirs s')%N
  /\ (isRunning s = false -> isRunning s' = false)
  /\ (aborted s = true -> aborted s' = true).

Section Server.

Variable toUpperCase : N -> jsstring.
Variable join : jsstring -> jsstring -> jsstring.
Variable normalizePath : jsstring -> jsstring.
Variable fs : jsstring -> option Node.

Definition serve (st : State) (request : Request) : State :=
  match request with
  | StartSearch now directory pattern_ =>
      (fc_start_search normalizePath fs now directory pattern_ st).2
  | GetResults searchId offset limit => (fc_get_search_results searchId offset limit st).2
  | StopSearch searchId => (fc_stop_search searchId st).2
  | ListSearches => st
  | ClearSearch searchId => (fc_clear_search searchId st).2
  | Resume searchId => resume toUpperCase join searchId st
  end.

(** The ids generated for the start requests among [requests] that get past
    the check of the directory, in order. *)
Fixpoint started_ids (st : State) (requests : list Request) : list string :=
  match requests with
  | [] => []
  | request :: requests' =>
      match request with
      | StartSearch now directory _ =>
          if pathExists fs (normalizePath directory)
          then [(generateSearchId now st).1] else []
      | _ => []
      end ++ started_ids (serve st request) requests'
  end.

End Server.

(** *** One session over time *)

Lemma progress_refl (s : SearchSession) : progress s s.
Proof. unfold progress. by repeat split. Qed.

Lemma progress_trans (s1 s2 s3 : SearchSession) :
  progress s1 s2 -> progress s2 s3 -> progress s1 s3.
Proof.
  unfold progress.
  intros (? & ? & ? & ? & ? & ? & ? & ? & ?) (? & ? & ? & ? & ? & ? & ? & ? & ?).
  repeat split; try congruence; try (by etrans); try lia; auto.
Qed.

Lemma progress_advance found dirs (s : SearchSession) : progress s (advance found dirs s).
Proof.
  unfold progress, advance. cbn. repeat split; try done; try lia.
  by apply prefix_app_r.
Qed.

Section Facts.

Variable toUpperCase : N -> jsstring.
Variable join : jsstring -> jsstring -> jsstring.
Variable normalizePath : jsstring -> jsstring.
Variable fs : jsstring -> option Node.

Abbreviation serve := (serve toUpperCase join normalizePath fs).
Abbreviation started_ids := (started_ids toUpperCase join normalizePath fs).

Lemma generateSearchId_id_text (now : N) (st : State) :
  (generateSearchId now st).1 = Ids.id_text "search_" (searchCounter st + 1) now.
Proof. reflexivity. Qed.

Lemma search_ids_issued_fresh (now : N) (st : State) :
  ids_issued st -> searchSessions st !! (generateSearchId now st).1 = None.
Proof.
  intros Hissued. apply eq_None_not_Some. intros Hsome.
  destruct (Hissued _ Hsome) as (counter & now' & Hle & Heq).
  rewrite generateSearchId_id_text in Heq.
  apply Ids.id_text_inj in Heq as [Hcounter _]. lia.
Qed.

Lemma fc_start_search_state (now : N) (directory pattern_ : jsstring) (st : State) :
  (fc_start_search normalizePath fs now directory pattern_ st).2
  = if pathExists fs (normalizePath directory)
    then mkState
           (<[(generateSearchId now st).1 :=
                started_session normalizePath now directory pattern_ st]>
              (searchSessions st))
           (searchCounter st + 1)
           (<[(generateSearchId now st).1 :=
                mkTask (default (Dir None) (fs (normalizePath directory)))
                  (normalizePath directory) []]> (pending st))
    else st.
Proof.
  rewrite fc_start_search_cases. unfold pathExists.
  by destruct (fs (normalizePath directory)).
Qed.

(** The session a turn leaves in the registry. *)
Definition turned (task : Task) (session : SearchSession) : SearchSession :=
  match readdir_settled toUpperCase join task session with
  | Awaiting session' _ => session'
  | Finished session' => set_isRunning false session'
  end.

Lemma resume_cases (searchId : string) (st : State) :
  searchSessions (resume toUpperCase join searchId st)
  = match pending st !! searchId, searchSessions st !! searchId with
    | Some task, Some session => <[searchId := turned task session]> (searchSessions st)
    | _, _ => searchSessions st
    end
  /\ searchCounter (resume toUpperCase join searchId st) = searchCounter st.
Proof.
  unfold resume, turned. destruct (pending st !! searchId) as [task|]; [|done].
  destruct (searchSessions st !! searchId) as [session|]; [|done].
  by destruct (readdir_settled toUpperCase join task session).
Qed.

Lemma progress_turned (task : Task) (session : SearchSession) :
  progress session (turned task session).
Proof.
  unfold turned.
  destruct (readdir_settled_appends toUpperCase join task session)
    as (found0 & dirs0 & Hturn).
  destruct (readdir_settled toUpperCase join task session) as [session' ?|session'];
    cbn [session_of] in Hturn; subst session'.
  - apply progress_advance.
  - eapply progress_trans; [apply progress_advance|].
    unfold progress. cbn. by repeat split.
Qed.

(** Where a session that is registered after a request comes from. *)
Lemma serve_session (st : State) (request : Request) (k : string) (s' : SearchSession) :
  searchSessions (serve st request) !! k = Some s' ->
  (exists s, searchSessions st !! k = Some s /\ progress s s')
  \/ (exists now directory pattern_,
        request = StartSearch now directory pattern_
        /\ k = (generateSearchId now st).1).
Proof.
  destruct request as [now directory pattern_|searchId offset limit|searchId|
                       |searchId|searchId]; cbn [SearchLifecycle.serve].
  - rewrite fc_start_search_state.
    destruct (pathExists fs (normalizePath directory));
      [|intros Hk; left; exists s'; split; [done | apply progress_refl]].
    cbn [searchSessions].
    destruct (decide (k = (generateSearchId now st).1)) as [->|Hne].
    + intros _. right. by eexists _, _, _.
    + rewrite lookup_insert_ne by done. intros Hk. left. exists s'.
      split; [done | apply progress_refl].
  - intros Hk. left. exists s'. split; [|apply progress_refl].
    revert Hk. unfold fc_get_search_results. by destruct (searchSessions st !! searchId).
  - unfold fc_stop_search.
    destruct (searchSessions st !! searchId) as [session|] eqn:Hreg;
      [|intros Hk; left; exists s'; split; [done | apply progress_refl]].
    destruct (isRunning session) eqn:Hrun; cbn [negb snd];
      [|intros Hk; left; exists s'; split; [done | apply progress_refl]].
    cbn [set_searchSessions searchSessions].
    destruct (decide (k = searchId)) as [->|Hne].
    + rewrite lookup_insert_eq. intros [= <-]. left. exists session.
      split; [done|]. unfold progress. cbn. by repeat split.
    + rewrite lookup_insert_ne by done. intros Hk. left. exists s'.
      split; [done | apply progress_refl].
  - intros Hk. left. exists s'. split; [done | apply progress_refl].
  - intros Hk. left. exists s'. split; [|apply progress_refl]. revert Hk.
    destruct (decide (searchId = "all")) as [->|Hne].
    + rewrite fc_clear_search_all. cbn [snd set_searchSessions searchSessions].
      by intros [Hk _]%map_lookup_filter_Some.
    + unfold fc_clear_search. rewrite decide_False by done.
      destruct (searchSessions st !! searchId) as [session|]; [|done].
      destruct (isRunning session); [done|].
      cbn [snd set_searchSessions searchSessions].
      destruct (decide (k = searchId)) as [->|Hk]; [by rewrite lookup_delete_eq|].
      by rewrite lookup_delete_ne.
  - rewrite (proj1 (resume_cases searchId st)).
    destruct (pending st !! searchId) as [task|];
      [|intros Hk; left; exists s'; split; [done | apply progress_refl]].
    destruct (searchSessions st !! searchId) as [session|] eqn:Hreg;
      [|intros Hk; left; exists s'; split; [done | apply progress_refl]].
    destruct (decide (k = searchId)) as [->|Hne].
    + rewrite lookup_insert_eq. intros [= <-]. left. exists session. split; [done|].
      apply progress_turned.
    + rewrite lookup_insert_ne by done. intros Hk. left. exists s'.
      split; [done | apply progress_refl].
Qed.

Lemma searchCounter_serve (st : State) (request : Request) :
  (searchCounter st <= searchCounter (serve st request))%N
  /\ (forall now directory pattern_,
        request = StartSearch now directory pattern_ ->
        pathExists fs (normalizePath directory) = true ->
        searchCounter (serve st request) = searchCounter st + 1)%N.
Proof.
  destruct request as [now directory pattern_|searchId offset limit|searchId|
                       |searchId|searchId]; cbn [SearchLifecycle.serve].
  - rewrite fc_start_search_state. split.
    + destruct (pathExists fs (normalizePath directory)); cbn; lia.
    + intros ? ? ? [= <- <- <-] ->. done.
  - split; [|done]. unfold fc_get_search_results.
    by destruct (searchSessions st !! searchId).
  - split; [|done]. unfold fc_stop_search.
    destruct (searchSessions st !! searchId) as [session|]; [|done].
    by destruct (isRunning session).
  - done.
  - split; [|done]. destruct (decide (searchId = "all")) as [->|Hne].
    + by rewrite fc_clear_search_all.
    + unfold fc_clear_search. rewrite decide_False by done.
      destruct (searchSessions st !! searchId) as [session|]; [|done].
      by destruct (isRunning session).
  - split; [|done]. by rewrite (proj2 (resume_cases searchId st)).
Qed.

Lemma search_ids_issued_serve (st : State) (request : Request) :
  ids_issued st -> ids_issued (serve st request).
Proof.
  intros Hissued k [s' Hk].
  pose proof (proj1 (searchCounter_serve st request)) as Hcounter.
  destruct (serve_session st request k s' Hk)
    as [(s & Hs & _)|(now & directory & pattern_ & -> & ->)].
  - destruct (Hissued k (mk_is_Some _ _ Hs)) as (counter & now & Hle & ->).
    exists counter, now. split; [lia | done].
  - exists (searchCounter st + 1)%N, now. split; [|done].
    revert Hk Hcounter. cbn [SearchLifecycle.serve]. rewrite fc_start_search_state.
    destruct (pathExists fs (normalizePath directory)); cbn [searchCounter]; [lia|].
    intros Hk. exfalso.
    pose proof (search_ids_issued_fresh now st Hissued). congruence.
Qed.

Lemma search_ids_issued_reachable (requests : list Request) :
  ids_issued (foldl serve initial requests).
Proof.
  induction requests as [|request requests IH] using rev_ind.
  - intros k [session Hk]. cbn in Hk. by rewrite lookup_empty in Hk.
  - rewrite foldl_snoc. by apply search_ids_issued_serve.
Qed.

Lemma searchCounter_foldl (st : State) (requests : list Request) :
  (searchCounter st <= searchCounter (foldl serve st requests))%N.
Proof.
  induction requests as [|request requests IH] using rev_ind; [done|].
  rewrite foldl_snoc. pose proof (proj1 (searchCounter_serve (foldl serve st requests) request)).
  lia.
Qed.

(** X7 (a search session over time): take any state the server can reach,
    with traversals under way or not, and any further run of requests and
    turns of traversals.  A session that is registered before and after has
    kept its id, directory, pattern and start time; its earlier results are
    the beginning of its later results, in the same order; its directory
    counter has not gone down; and if it was not running, or was cancelled,
    it still is. *)
Theorem search_session_progress (requests more : list Request) (k : string)
    (s s' : SearchSession) :
  let st := foldl serve initial requests in
  searchSessions st !! k = Some s ->
  searchSessions (foldl serve st more) !! k = Some s' ->
  progress s s'.
Proof.
  cbv zeta. intros Hs. revert s'.
  induction more as [|request more IH] using rev_ind; intros s' Hs'.
  - cbn in Hs'. assert (s' = s) as -> by congruence. apply progress_refl.
  - rewrite foldl_snoc in Hs'.
    destruct (serve_session _ _ _ _ Hs')
      as [(s1 & Hs1 & Hstep)|(now & directory & pattern_ & -> & Hk)].
    + eapply progress_trans; [by apply IH | done].
    + exfalso.
      destruct (search_ids_issued_reachable requests k (mk_is_Some _ _ Hs))
        as (counter & now' & Hle & Hid).
      rewrite Hid, generateSearchId_id_text in Hk.
      apply Ids.id_text_inj in Hk as [Hcounter _].
      pose proof (searchCounter_foldl (foldl serve initial requests) more). lia.
Qed.

(** X8 (only clear removes): a request that is not a clear, and a turn
    of a traversal, leave every registered search registered; so a
    search leaves the registry through [fc_clear_search] and in no other
    way. *)
Theorem only_clear_removes (st : State) (request : Request) (k : string) :
  is_clear request = false ->
  is_Some (searchSessions st !! k) ->
  is_Some (searchSessions (serve st request) !! k).
Proof.
  intros Hrequest [s Hs].
  destruct request as [now directory pattern_|searchId offset limit|searchId|
                       |searchId|searchId]; cbn [SearchLifecycle.serve]; try done.
  - rewrite fc_start_search_state.
    destruct (pathExists fs (normalizePath directory)); [|by exists s].
    cbn [searchSessions]. rewrite lookup_insert_is_Some. destruct (decide
      ((generateSearchId now st).1 = k)); [by left | right; split; [done | by exists s]].
  - unfold fc_get_search_results. destruct (searchSessions st !! searchId); by exists s.
  - unfold fc_stop_search. destruct (searchSessions st !! searchId) as [session|] eqn:Hreg;
      [|by exists s].
    destruct (isRunning session); cbn [negb snd]; [|by exists s].
    cbn [set_searchSessions searchSessions]. rewrite lookup_insert_is_Some.
    destruct (decide (searchId = k)); [by left | right; split; [done | by exists s]].
  - rewrite (proj1 (resume_cases searchId st)).
    destruct (pending st !! searchId) as [task|]; [|by exists s].
    destruct (searchSessions st !! searchId) as [session|] eqn:Hreg; [|by exists s].
    rewrite lookup_insert_is_Some.
    destruct (decide (searchId = k)); [by left | right; split; [done | by exists s]].
Qed.

(** *** Start, stop and completion *)

(** X9 (fresh search ids): in every state the server can reach from its
    start, with traversals under way or not, a [fc_start_search] on a path
    that exists registers its session under an id that no registered session
    had, and leaves every registered session exactly as it was. *)
Theorem fc_start_search_fresh (requests : list Request) (now : N)
    (directory pattern_ : jsstring) :
  let st := foldl serve initial requests in
  let searchId := (generateSearchId now st).1 in
  let st' := (fc_start_search normalizePath fs now directory pattern_ st).2 in
  searchSessions st !! searchId = None
  /\ (forall k session, searchSessions st !! k = Some session ->
        searchSessions st' !! k = Some session)
  /\ (pathExists fs (normalizePath directory) = true ->
      exists session, searchSessions st' !! searchId = Some session
                      /\ isRunning session = true /\ results session = []).
Proof.
  cbv zeta. set (st := foldl serve initial requests).
  pose proof (search_ids_issued_fresh now st (search_ids_issued_reachable requests)) as Hfresh.
  split; [done|]. rewrite fc_start_search_state. split.
  - intros k session Hk. destruct (pathExists fs (normalizePath directory)); [|done].
    cbn [searchSessions]. rewrite lookup_insert_ne; [done|]. intros <-. congruence.
  - intros ->. cbn [searchSessions]. rewrite lookup_insert_eq. by eexists.
Qed.

Lemma search_started_ids_above (st : State) (requests : list Request) (k : string) :
  k ∈ started_ids st requests ->
  exists counter now, (searchCounter st < counter)%N /\ k = Ids.id_text "search_" counter now.
Proof.
  revert st. induction requests as [|request requests IH]; intros st;
    cbn [SearchLifecycle.started_ids].
  - by intros ?%elem_of_nil.
  - intros [Hhere|Hlater]%elem_of_app.
    + destruct request as [now dir pat| | | | |]; try by apply elem_of_nil in Hhere.
      destruct (pathExists fs (normalizePath dir)); [|by apply elem_of_nil in Hhere].
      apply list_elem_of_singleton in Hhere as ->.
      eexists _, _. split; [|apply generateSearchId_id_text]. lia.
    + destruct (IH _ Hlater) as (counter & now & Hlt & ->).
      exists counter, now. split; [|done].
      pose proof (proj1 (searchCounter_serve st request)). lia.
Qed.

(** X10 (search ids are never reused): from any state and over any run of
    requests and turns of traversals, with searches stopped and cleared in
    between or not, the ids that the start requests hand out are pairwise
    different. *)
Theorem search_ids_never_reused (st : State) (requests : list Request) :
  NoDup (started_ids st requests).
Proof.
  revert st. induction requests as [|request requests IH]; intros st;
    cbn [SearchLifecycle.started_ids].
  { constructor. }
  apply NoDup_app. split; [|split; [|apply IH]].
  - destruct request as [now dir pat| | | | |]; try constructor.
    destruct (pathExists fs (normalizePath dir)); [|constructor].
    constructor; [by intros ?%elem_of_nil | constructor].
  - intros k Hhere Hlater.
    destruct request as [now dir pat| | | | |]; try by apply elem_of_nil in Hhere.
    destruct (pathExists fs (normalizePath dir)) eqn:Hexists;
      [|by apply elem_of_nil in Hhere].
    apply list_elem_of_singleton in Hhere as ->.
    apply search_started_ids_above in Hlater as (counter & now' & Hlt & Heq).
    rewrite generateSearchId_id_text in Heq.
    apply Ids.id_text_inj in Heq as [<- _].
    rewrite (proj2 (searchCounter_serve st _) _ _ _ eq_refl Hexists) in Hlt. lia.
Qed.

(** X11 (a stopped search adds nothing): when a search with a traversal
    under way is stopped, the next turn of the traversal is its last.  The
    listing it was waiting for is still counted when it arrives, so the
    directory counter goes up by one, and stays when the listing fails; then
    every loop returns at its check.  The session keeps exactly the results
    it had at the stop and is not running, and no traversal is left. *)
Theorem stopped_search_adds_nothing (st : State) (search_id : string)
    (session : SearchSession) (task : Task) :
  searchSessions st !! search_id = Some session ->
  pending st !! search_id = Some task ->
  let stopped := (fc_stop_search search_id st).2 in
  let turned := resume toUpperCase join search_id stopped in
  exists session',
    searchSessions turned !! search_id = Some session'
    /\ results session' = results session
    /\ scannedDirs session'
       = (scannedDirs session
          + match readdir (awaited task) with Some _ => 1 | None => 0 end)%N
    /\ isRunning session' = false
    /\ pending turned !! search_id = None.
Proof.
  intros Hreg Htask stopped turned.
  assert (exists session1,
             searchSessions stopped !! search_id = Some session1
             /\ pending stopped = pending st
             /\ cancelled session1 = true
             /\ results session1 = results session
             /\ scannedDirs session1 = scannedDirs session)
    as (session1 & Hreg1 & Hpending1 & Hc & Hresults & Hdirs).
  { subst stopped. unfold fc_stop_search. rewrite Hreg.
    destruct (isRunning session) eqn:Hrun; cbn [negb snd set_searchSessions searchSessions
                                                 pending].
    - eexists. split; [apply lookup_insert_eq|]. by repeat split.
    - exists session. unfold cancelled. rewrite Hrun. by repeat split. }
  subst turned. unfold resume. rewrite Hpending1, Htask, Hreg1.
  unfold readdir_settled.
  destruct (readdir (awaited task)) as [entries|];
    rewrite unwind_cancelled by done;
    cbn [keep searchSessions pending]; rewrite lookup_insert_eq, lookup_delete_eq;
    eexists; (split; [done|]);
    cbn [results scannedDirs isRunning set_isRunning set_scannedDirs];
    rewrite Hresults, Hdirs; repeat split; by rewrite ?N.add_0_r.
Qed.

Lemma found_matches (regex : RegExp) (node : Node) :
  forall dirPath,
    Forall (fun result => exists directory name,
                result = join directory name /\ test toUpperCase regex name = true)
           (found toUpperCase join regex node dirPath).
Proof.
  induction node as [| |entries IH] using Node_nested_ind; intros dirPath;
    [constructor..|].
  cbn [found].
  induction entries as [|[name entry] entries IHentries]; [constructor|].
  apply Forall_cons in IH as [IHentry IH]. specialize (IHentries IH).
  cbn [snd] in IHentry. cbn [found_below]. apply Forall_app. split; [|done].
  destruct (isDirectory entry).
  - destruct (bool_decide (name ∈ skipped)); [constructor | apply IHentry].
  - destruct (test toUpperCase regex name) eqn:Htest; [|constructor].
    constructor; [|constructor]. by exists dirPath, name.
Qed.

(** X12 (a search that runs to its end): when something is at the
    normalised path and the traversal of a started search takes its turns
    without a stop in between, then after finitely many turns it is over:
    the session is not running, holds exactly the matches of the listable
    part of the tree in pre-order, has counted the directories that were
    listed, and each of its results is the join of a directory path with a
    base name that the compiled pattern accepts; a results request then
    reports that number as the total. *)
Theorem search_runs_to_completion (now : N) (directory pattern_ : jsstring) (st : State)
    (node : Node) :
  fs (normalizePath directory) = Some node ->
  let dirPath := normalizePath directory in
  let searchId := (generateSearchId now st).1 in
  let started := (fc_start_search normalizePath fs now directory pattern_ st).2 in
  exists turns regex session,
    let settled := Nat.iter turns (resume toUpperCase join searchId) started in
    compile pattern_ = Some regex
    /\ searchSessions settled !! searchId = Some session
    /\ pending settled !! searchId = None
    /\ isRunning session = false
    /\ results session = found toUpperCase join regex node dirPath
    /\ scannedDirs session = listed node
    /\ Forall (fun result => exists directory name,
                  result = join directory name /\ test toUpperCase regex name = true)
              (results session)
    /\ forall offset limit,
         exists page hasMore,
           (fc_get_search_results searchId offset limit settled).1
           = ok (SearchResults false pattern_ dirPath (listed node)
                   (Z.of_nat (length (found toUpperCase join regex node dirPath)))
                   offset limit page hasMore).
Proof.
  intros Hnode dirPath searchId started.
  set (regex := AssertBegin :: (term_of <$> pattern_) ++ [AssertEnd]).
  set (fresh := started_session normalizePath now directory pattern_ st).
  destruct (turns_of_call toUpperCase join node fresh dirPath [] eq_refl)
    as [turns Hturns].
  exists turns, regex.
  exists (set_isRunning false
            (advance (found toUpperCase join regex node dirPath) (listed node) fresh)).
  cbv zeta.
  assert (Nat.iter turns (resume toUpperCase join searchId) started
          = keep searchId
              (Finished (advance (found toUpperCase join regex node dirPath)
                           (listed node) fresh))
              (mkState (searchSessions st) (searchCounter st + 1) (pending st)))
    as ->.
  { subst started. rewrite fc_start_search_cases, Hnode. cbn [snd].
    fold dirPath searchId fresh. by rewrite iter_resume_keep, Hturns. }
  cbn [keep searchSessions pending]. rewrite lookup_insert_eq, lookup_delete_eq.
  split; [apply compile_total|]. split; [done|]. split; [done|].
  cbn [isRunning results scannedDirs set_isRunning advance set_scannedDirs set_results
       fresh started_session app].
  split; [done|]. split; [done|]. split; [by rewrite N.add_0_l|].
  split; [apply found_matches|].
  intros offset limit. unfold fc_get_search_results.
  cbn [searchSessions]. rewrite lookup_insert_eq.
  cbn [fst isRunning results scannedDirs patternString Search.directory set_isRunning advance
       set_scannedDirs set_results fresh started_session app].
  rewrite N.add_0_l. by eexists _, _.
Qed.

(** *** Pages *)

(** X13 (pages fit together): for a registered search and offsets and limits
    that are not negative, the page of [a] results at [offset] followed by the
    page of [b] results at [offset + a] is the page of [a + b] results at
    [offset]; and a reply whose has-more flag is off carries everything from
    its offset to the end of the results. *)
Theorem pages_concatenate (st : State) (search_id : string) (session : SearchSession)
    (offset a b : Z) :
  searchSessions st !! search_id = Some session ->
  0 <= offset -> 0 <= a -> 0 <= b ->
  page_of (fc_get_search_results search_id offset a st).1
  ++ page_of (fc_get_search_results search_id (offset + a) b st).1
  = page_of (fc_get_search_results search_id offset (a + b) st).1
  /\ (has_more (fc_get_search_results search_id offset a st).1 = false ->
      page_of (fc_get_search_results search_id offset a st).1
      = drop (Z.to_nat offset) (results session)).
Proof.
  intros Hreg Hoffset Ha Hb. unfold fc_get_search_results. rewrite Hreg.
  cbn [fst page_of has_more content ok].
  rewrite !JsArray.slice_nonneg by lia.
  replace (Z.to_nat (offset + a) - Z.to_nat offset)%nat with (Z.to_nat a) by lia.
  replace (Z.to_nat (offset + a + b) - Z.to_nat (offset + a))%nat with (Z.to_nat b) by lia.
  replace (Z.to_nat (offset + (a + b)) - Z.to_nat offset)%nat
    with (Z.to_nat a + Z.to_nat b)%nat by lia.
  replace (Z.to_nat (offset + a)) with (Z.to_nat offset + Z.to_nat a)%nat by lia.
  split.
  - rewrite <- drop_drop. apply take_take_drop.
  - intros Hmore. apply take_ge. rewrite length_drop.
    destruct (Z.ltb_spec (offset + a) (Z.of_nat (length (results session)))); [done | lia].
Qed.

End Facts.

(** *** Examples *)

(** The example server: ASCII upper-casing, paths joined with a slash and
    taken as they are, and the example tree at [/proj]. *)
Definition demo_serve : State -> Request -> State :=
  serve ascii_toUpperCase demo_join (fun targetPath => targetPath) demo_fs.

(** The example search after its first turn, in which the listing of
    [/proj] arrived, and at its end. *)
Definition demo_midway : SearchSession := advance [str "/proj/a.ts"] 1 fresh_search.

Definition demo_settled : SearchSession :=
  set_isRunning false (advance [str "/proj/a.ts"; str "/proj/src/b.TS"] 2 fresh_search).

Lemma search_session_progress_witness :
  searchSessions
    (foldl demo_serve initial [StartSearch 5 (str "/proj") (str "*.ts"); Resume "search_1_5"])
    !! "search_1_5" = Some demo_midway
  /\ searchSessions
       (foldl demo_serve
          (foldl demo_serve initial
             [StartSearch 5 (str "/proj") (str "*.ts"); Resume "search_1_5"])
          [GetResults "search_1_5" 0 50; Resume "search_1_5"; Resume "search_1_5"])
       !! "search_1_5" = Some demo_settled
  /\ progress demo_midway demo_settled.
Proof.
  split; [reflexivity|]. split; [reflexivity|].
  exact (search_session_progress ascii_toUpperCase demo_join (fun targetPath => targetPath)
           demo_fs [StartSearch 5 (str "/proj") (str "*.ts"); Resume "search_1_5"]
           [GetResults "search_1_5" 0 50; Resume "search_1_5"; Resume "search_1_5"]
           "search_1_5" demo_midway demo_settled eq_refl eq_refl).
Defined.

Lemma only_clear_removes_witness :
  is_clear (Resume "search_2_20") = false
  /\ is_Some (searchSessions Search.demo_state !! "search_2_20")
  /\ is_Some (searchSessions (demo_serve Search.demo_state (Resume "search_2_20"))
                !! "search_2_20").
Proof.
  split; [reflexivity|]. split; [by eexists|].
  exact (only_clear_removes ascii_toUpperCase demo_join (fun targetPath => targetPath)
           demo_fs Search.demo_state (Resume "search_2_20") "search_2_20"
           eq_refl (mk_is_Some _ _ eq_refl)).
Defined.

Lemma stopped_search_adds_nothing_witness :
  searchSessions (foldl demo_serve initial [StartSearch 5 (str "/proj") (str "*.ts")])
    !! "search_1_5" = Some fresh_search
  /\ pending (foldl demo_serve initial [StartSearch 5 (str "/proj") (str "*.ts")])
       !! "search_1_5" = Some (mkTask demo_tree (str "/proj") [])
  /\ exists session',
       searchSessions
         (resume ascii_toUpperCase demo_join "search_1_5"
            (fc_stop_search "search_1_5"
               (foldl demo_serve initial [StartSearch 5 (str "/proj") (str "*.ts")])).2)
         !! "search_1_5" = Some session'
       /\ results session' = []
       /\ scannedDirs session' = 1%N
       /\ isRunning session' = false.
Proof.
  split; [reflexivity|]. split; [reflexivity|].
  destruct (stopped_search_adds_nothing ascii_toUpperCase demo_join
              (foldl demo_serve initial [StartSearch 5 (str "/proj") (str "*.ts")])
              "search_1_5" fresh_search (mkTask demo_tree (str "/proj") [])
              eq_refl eq_refl)
    as (session' & Hsession' & Hresults & Hdirs & Hrunning & _).
  exists session'. split; [exact Hsession'|]. split; [exact Hresults|].
  split; [exact Hdirs | exact Hrunning].
Defined.

Lemma search_runs_to_completion_witness :
  demo_fs (str "/proj") = Some demo_tree
  /\ exists turns session,
       searchSessions
         (Nat.iter turns (resume ascii_toUpperCase demo_join "search_1_5")
            (foldl demo_serve initial [StartSearch 5 (str "/proj") (str "*.ts")]))
         !! "search_1_5" = Some session
       /\ results session = [str "/proj/a.ts"; str "/proj/src/b.TS"]
       /\ scannedDirs session = 2%N
       /\ isRunning session = false.
Proof.
  split; [reflexivity|].
  destruct (search_runs_to_completion ascii_toUpperCase demo_join
              (fun targetPath => targetPath) demo_fs 5 (str "/proj") (str "*.ts")
              initial demo_tree eq_refl)
    as (turns & regex & session & Hregex & Hsession & _ & Hrunning & Hresults & Hdirs & _).
  exists turns, session. split; [exact Hsession|].
  split; [|split; [exact Hdirs | exact Hrunning]].
  rewrite Hresults. injection Hregex as <-. reflexivity.
Defined.

Lemma pages_concatenate_witness :
  searchSessions Search.demo_state !! "search_1_10" = Some finished_search
  /\ 0 <= 0 /\ 0 <= 1 /\ 0 <= 2
  /\ page_of (fc_get_search_results "search_1_10" 0 1 Search.demo_state).1
     ++ page_of (fc_get_search_results "search_1_10" (0 + 1) 2 Search.demo_state).1
     = [str "/proj/a.ts"; str "/proj/b.ts"; str "/proj/c.ts"].
Proof.
  split; [reflexivity|]. split; [lia|]. split; [lia|]. split; [lia|].
  rewrite (proj1 (pages_concatenate Search.demo_state "search_1_10" finished_search
                    0 1 2 eq_refl ltac:(lia) ltac:(lia) ltac:(lia))).
  reflexivity.
Defined.

End SearchLifecycle.

(** ** The synchronous search *)

Module SyncSearch.

Import Wildcard Search.

(** The directory names [searchFilesRecursive] does not descend into. *)
Definition skipped : list jsstring :=
  str <$> ["node_modules"; ".git"; "$RECYCLE.BIN"; "System Volume Information"].

Inductive Message :=
| DirectoryNotFound (dirPath : jsstring)
| SearchFailed
| NoFilesFound (pattern : jsstring)
| FilesFound (pattern dirPath : jsstring) (count : nat) (maximumReached : bool)
    (results : list jsstring).

Section Sync.

Variable toUpperCase : N -> jsstring.
Variable join : jsstring -> jsstring -> jsstring.
Variable normalizePath : jsstring -> jsstring.
Variable fs : jsstring -> option Node.

(** [searchFilesRecursive(dirPath, pattern, maxResults, results)], with
    [node] what is at [dirPath]; the array that all calls share is passed
    along.  A listing that fails lands in the empty [catch], after which the
    array is returned as it stands. *)
Fixpoint searchFilesRecursive (node : Node) (dirPath : jsstring) (pattern : RegExp)
    (maxResults : Z) (results : list jsstring) : list jsstring :=
  if maxResults <=? Z.of_nat (length results) then results
  else
    match node with
    | Dir (Some entries) =>
        (fix each (entries : list (jsstring * Node)) (results : list jsstring)
           : list jsstring :=
           match entries with
           | [] => results
           | (name, entry) :: entries' =>
               if maxResults <=? Z.of_nat (length results) then results
               else
                 let fullPath := join dirPath name in
                 if isDirectory entry then
                   if negb (bool_decide (name ∈ skipped))
                   then each entries'
                          (searchFilesRecursive entry fullPath pattern maxResults results)
                   else each entries' results
                 else if test toUpperCase pattern name
                 then each entries' (results ++ [fullPath])
                 else each entries' results
           end) entries results
    | Dir None | File => results
    end.

(** The loop of [searchFilesRecursive] on its own. *)
Definition each_with (recurse : Node -> jsstring -> list jsstring -> list jsstring)
    (dirPath : jsstring) (pattern : RegExp) (maxResults : Z)
  : list (jsstring * Node) -> list jsstring -> list jsstring :=
  fix each (entries : list (jsstring * Node)) (results : list jsstring) : list jsstring :=
    match entries with
    | [] => results
    | (name, entry) :: entries' =>
        if maxResults <=? Z.of_nat (length results) then results
        else
          let fullPath := join dirPath name in
          if isDirectory entry then
            if negb (bool_decide (name ∈ skipped))
            then each entries' (recurse entry fullPath results)
            else each entries' results
          else if test toUpperCase pattern name
          then each entries' (results ++ [fullPath])
          else each entries' results
    end.

(** All matches below [node] in pre-order, not descending into the names
    of [skip] and passing over listings that fail: what a search without a
    limit and without cancellation is after. *)
Definition matches_below (recurse : Node -> jsstring -> list jsstring)
    (skip : list jsstring) (regex : RegExp) (dirPath : jsstring)
  : list (jsstring * Node) -> list jsstring :=
  fix below (entries : list (jsstring * Node)) : list jsstring :=
    match entries with
    | [] => []
    | (name, entry) :: entries' =>
        (if isDirectory entry
         then if bool_decide (name ∈ skip) then []
              else recurse entry (join dirPath name)
         else if test toUpperCase regex name then [join dirPath name] else [])
        ++ below entries'
    end.

Fixpoint matches (skip : list jsstring) (regex : RegExp) (node : Node)
    (dirPath : jsstring) : list jsstring :=
  match node with
  | Dir (Some entries) => matches_below (matches skip regex) skip regex dirPath entries
  | Dir None | File => []
  end.

(** [fc_search_files] *)
Definition fc_search_files (directory pattern_ : jsstring) (max_results : Z)
  : ToolResult Message :=
  let dirPath := normalizePath directory in
  if negb (pathExists fs dirPath) then failed (DirectoryNotFound dirPath)
  else
    match compile pattern_ with
    | None => failed SearchFailed
    | Some regex =>
        let results :=
          searchFilesRecursive (default (Dir None) (fs dirPath)) dirPath regex
            max_results [] in
        if decide (length results = 0%nat) then ok (NoFilesFound pattern_)
        else ok (FilesFound pattern_ dirPath (length results)
                   (max_results <=? Z.of_nat (length results)) results)
    end.

End Sync.

Section Facts.

Variable toUpperCase : N -> jsstring.
Variable join : jsstring -> jsstring -> jsstring.

Abbreviation searchFilesRecursive := (searchFilesRecursive toUpperCase join).
Abbreviation each_with := (each_with toUpperCase join).
Abbreviation matches := (matches toUpperCase join).
Abbreviation matches_below := (matches_below toUpperCase join).

(** How many more results fit. *)
Definition room (maxResults : Z) (results : list jsstring) : nat :=
  Z.to_nat (maxResults - Z.of_nat (length results)).

Lemma searchFilesRecursive_unfold (node : Node) dirPath pattern maxResults results :
  searchFilesRecursive node dirPath pattern maxResults results
  = if maxResults <=? Z.of_nat (length results) then results
    else match readdir node with
         | Some entries =>
             each_with (fun entry fullPath results =>
                          searchFilesRecursive entry fullPath pattern maxResults results)
               dirPath pattern maxResults entries results
         | None => results
         end.
Proof. by destruct node as [|[entries|]]. Qed.

Lemma take_room_app maxResults (results found rest : list jsstring) :
  take (room maxResults results) (found ++ rest)
  = take (room maxResults results) found
    ++ take (room maxResults (results ++ take (room maxResults results) found)) rest.
Proof.
  rewrite take_app. f_equal. f_equal. unfold room.
  rewrite length_app, length_take. lia.
Qed.

Lemma searchFilesRecursive_matches (node : Node) pattern maxResults :
  forall dirPath results,
    searchFilesRecursive node dirPath pattern maxResults results
    = results ++ take (room maxResults results) (matches skipped pattern node dirPath).
Proof.
  induction node as [| |entries IH] using Node_nested_ind; intros dirPath results;
    rewrite searchFilesRecursive_unfold; cbn [readdir SyncSearch.matches].
  - rewrite take_nil, app_nil_r. by destruct (_ <=? _).
  - rewrite take_nil, app_nil_r. by destruct (_ <=? _).
  - destruct (Z.leb_spec maxResults (Z.of_nat (length results))) as [Hfull|Hroom].
    { unfold room. replace (Z.to_nat _) with 0%nat by lia. by rewrite take_0, app_nil_r. }
    clear Hroom. revert results.
    induction entries as [|[name entry] entries IHentries]; intros results.
    { cbn. by rewrite take_nil, app_nil_r. }
    apply Forall_cons in IH as [IHentry IH]. specialize (IHentries IH).
    cbn [snd] in IHentry. cbn [SyncSearch.each_with SyncSearch.matches_below].
    destruct (Z.leb_spec maxResults (Z.of_nat (length results))) as [Hfull|Hroom].
    { unfold room. replace (Z.to_nat _) with 0%nat by lia. by rewrite take_0, app_nil_r. }
    rewrite take_room_app, app_assoc.
    destruct (isDirectory entry).
    + destruct (bool_decide (name ∈ skipped)); cbn [negb].
      * rewrite IHentries. by rewrite take_nil, app_nil_r.
      * by rewrite IHentry, IHentries.
    + destruct (test toUpperCase pattern name).
      * assert (take (room maxResults results) [join dirPath name] = [join dirPath name])
          as ->; [|by rewrite IHentries].
        unfold room.
        destruct (Z.to_nat (maxResults - Z.of_nat (length results))) as [|n] eqn:Hn;
          [exfalso; lia | by destruct n].
      * rewrite IHentries. by rewrite take_nil, app_nil_r.
Qed.

Lemma searchFilesRecursive_from_empty (node : Node) (dirPath : jsstring)
    (pattern : RegExp) (maxResults : Z) :
  searchFilesRecursive node dirPath pattern maxResults []
  = take (Z.to_nat maxResults) (matches skipped pattern node dirPath).
Proof.
  rewrite searchFilesRecursive_matches. cbn [app]. unfold room. cbn [length].
  by rewrite Z.sub_0_r.
Qed.

(** X14 (the synchronous search returns the first matches): the array a
    call returns is the array it was given followed by the first matches below
    the node, in pre-order, as far as the limit leaves room; from an empty
    array that is the first [maxResults] matches, so never more than
    [maxResults] results, and all matches when there are fewer. *)
Theorem searchFilesRecursive_first_matches (node : Node) (dirPath : jsstring)
    (pattern : RegExp) (maxResults : Z) :
  (forall results,
      searchFilesRecursive node dirPath pattern maxResults results
      = results ++ take (room maxResults results) (matches skipped pattern node dirPath))
  /\ searchFilesRecursive node dirPath pattern maxResults []
     = take (Z.to_nat maxResults) (matches skipped pattern node dirPath)
  /\ (0 <= maxResults ->
      Z.of_nat (length (searchFilesRecursive node dirPath pattern maxResults []))
      <= maxResults)
  /\ (Z.of_nat (length (matches skipped pattern node dirPath)) <= maxResults ->
      searchFilesRecursive node dirPath pattern maxResults []
      = matches skipped pattern node dirPath).
Proof.
  pose proof (searchFilesRecursive_from_empty node dirPath pattern maxResults) as Hempty.
  split; [apply searchFilesRecursive_matches|]. split; [done|]. rewrite Hempty. split.
  - intros Hmax. rewrite length_take. lia.
  - intros Hall. apply take_ge. lia.
Qed.

Lemma skipped_subseteq (name : jsstring) : name ∈ skipped -> name ∈ Search.skipped.
Proof.
  change skipped with (take 4 Search.skipped). apply subseteq_take.
Qed.

Lemma found_sublist_matches (regex : RegExp) (node : Node) :
  forall dirPath,
    found toUpperCase join regex node dirPath
    `sublist_of` matches skipped regex node dirPath.
Proof.
  induction node as [| |entries IH] using Node_nested_ind; intros dirPath; [done..|].
  cbn [found SyncSearch.matches].
  induction entries as [|[name entry] entries IHentries]; [done|].
  apply Forall_cons in IH as [IHentry IH]. specialize (IHentries IH).
  cbn [snd] in IHentry. cbn [found_below SyncSearch.matches_below].
  apply sublist_app; [|done].
  destruct (isDirectory entry); [|done].
  destruct (bool_decide_reflect (name ∈ Search.skipped)) as [Hin|Hout];
    [apply sublist_nil_l|].
  rewrite bool_decide_eq_false_2; [apply IHentry|].
  intros Hin. by apply Hout, skipped_subseteq.
Qed.

(** X15 (the background search finds no more than the synchronous one): the
    results a traversal that is not cancelled appends are, in the same order,
    among the results the synchronous search returns for the same node and
    pattern when its limit is at least the number of its matches.  The
    background search passes over three directory names more. *)
Theorem asyncSearchFiles_within_sync (node : Node) (session : SearchSession)
    (dirPath : jsstring) (maxResults : Z) :
  cancelled session = false ->
  Z.of_nat (length (matches skipped (pattern session) node dirPath)) <= maxResults ->
  exists appended session',
    asyncSearchFiles toUpperCase join node session dirPath = Returned session'
    /\ results session' = results session ++ appended
    /\ appended `sublist_of`
         searchFilesRecursive node dirPath (pattern session) maxResults [].
Proof.
  intros Hc Hmax. eexists _, _. split; [by apply asyncSearchFiles_running|].
  split; [done|].
  rewrite searchFilesRecursive_matches. cbn [app]. unfold room. cbn [length].
  rewrite take_ge by lia. apply found_sublist_matches.
Qed.

End Facts.

Section HandlerFacts.

Variable toUpperCase : N -> jsstring.
Variable join : jsstring -> jsstring -> jsstring.
Variable normalizePath : jsstring -> jsstring.
Variable fs : jsstring -> option Node.

(** X16 ([fc_search_files]): the call is an error exactly when nothing is at
    the normalised path.  When something is there, with a limit of at least
    1, the reply carries the first [max_results] matches below it in
    pre-order; it says that nothing was found exactly when there is no match,
    which is also the answer for a path that is no directory or cannot be
    listed; and it says that the maximum was reached exactly when there are
    at least [max_results] matches, also when there are exactly that many and
    none was left out. *)
Theorem fc_search_files_reply (directory pattern_ : jsstring) (max_results : Z) :
  let dirPath := normalizePath directory in
  (fs dirPath = None ->
   fc_search_files toUpperCase join normalizePath fs directory pattern_ max_results
   = failed (DirectoryNotFound dirPath))
  /\ (forall node, fs dirPath = Some node -> 1 <= max_results ->
        exists regex,
          compile pattern_ = Some regex
          /\ let all := matches toUpperCase join skipped regex node dirPath in
             fc_search_files toUpperCase join normalizePath fs directory pattern_ max_results
             = match all with
               | [] => ok (NoFilesFound pattern_)
               | _ :: _ =>
                   ok (FilesFound pattern_ dirPath
                         (Nat.min (Z.to_nat max_results) (length all))
                         (max_results <=? Z.of_nat (length all))
                         (take (Z.to_nat max_results) all))
               end).
Proof.
  intros dirPath. unfold fc_search_files, pathExists. fold dirPath. split.
  - by intros ->.
  - intros node -> Hmax. cbn [negb default]. rewrite compile_total.
    eexists. split; [done|]. cbv zeta.
    rewrite (searchFilesRecursive_from_empty toUpperCase join node dirPath _ max_results).
    set (all := matches toUpperCase join skipped _ node dirPath).
    destruct all as [|result all'] eqn:Hall.
    + by rewrite take_nil.
    + rewrite decide_False.
      2:{ destruct (Z.to_nat max_results) eqn:Hn; [lia | done]. }
      rewrite length_take. do 2 f_equal.
      destruct (Z.leb_spec max_results (Z.of_nat (Nat.min (Z.to_nat max_results)
                                                   (length (result :: all'))))),
               (Z.leb_spec max_results (Z.of_nat (length (result :: all')))); (done || lia).
Qed.

End HandlerFacts.

(** A tree in which the two searches differ: a match below [Windows]. *)
Definition windows_tree : Node :=
  Dir (Some [ (str "Windows", Dir (Some [(str "w.ts", File)]));
              (str "a.ts", File); (str "b.ts", File) ]).

Lemma asyncSearchFiles_within_sync_witness :
  cancelled fresh_search = false
  /\ Z.of_nat (length (matches ascii_toUpperCase demo_join skipped (pattern fresh_search)
                         windows_tree (str "/c"))) <= 50
  /\ asyncSearchFiles ascii_toUpperCase demo_join windows_tree fresh_search (str "/c")
     = Returned (advance [str "/c/a.ts"; str "/c/b.ts"] 1 fresh_search)
  /\ searchFilesRecursive ascii_toUpperCase demo_join windows_tree (str "/c")
       (pattern fresh_search) 50 []
     = [str "/c/Windows/w.ts"; str "/c/a.ts"; str "/c/b.ts"]
  /\ exists appended session',
       asyncSearchFiles ascii_toUpperCase demo_join windows_tree fresh_search (str "/c")
       = Returned session'
       /\ results session' = results fresh_search ++ appended
       /\ appended `sublist_of`
            searchFilesRecursive ascii_toUpperCase demo_join windows_tree (str "/c")
              (pattern fresh_search) 50 [].
Proof.
  split; [reflexivity|]. split; [by vm_compute|]. split; [reflexivity|].
  split; [reflexivity|].
  exact (asyncSearchFiles_within_sync ascii_toUpperCase demo_join windows_tree
           fresh_search (str "/c") 50 eq_refl ltac:(by vm_compute)).
Defined.

End SyncSearch.

(** ** Escaping for the Windows shells *)

Module Escape.

Import Wildcard.

Local Open Scope N_scope.

Definition backtick : N := 96.
Definition double_quote : N := 34.
Definition single_quote : N := 39.

(** The class [[&^%!<>|]] of [escapeForCmd]. *)
Definition cmd_class : jsstring := str "&^%!<>|".

(** [escapeForCmd]: [inputPath.replace(/([&^%!<>|])/g, '^$1')]. *)
Definition escapeForCmd (inputPath : jsstring) : jsstring :=
  replace_each (includes cmd_class) (fun c => [caret; c]) inputPath.

(** [escapeForPowerShell]: the four replacements, the backtick first. *)
Definition escapeForPowerShell (inputPath : jsstring) : jsstring :=
  replace_each (fun c => c =? single_quote) (fun _ => [single_quote; single_quote])
    (replace_each (fun c => c =? double_quote) (fun _ => [backtick; double_quote])
       (replace_each (fun c => c =? dollar) (fun _ => [backtick; dollar])
          (replace_each (fun c => c =? backtick) (fun _ => [backtick; backtick])
             inputPath))).

(** Reading an escaped string back the way the caret works in cmd.exe: a
    caret makes the unit after it stand for itself. *)
Fixpoint read_carets (s : jsstring) : jsstring :=
  match s with
  | [] => []
  | c :: rest =>
      if c =? caret
      then match rest with
           | d :: rest' => d :: read_carets rest'
           | [] => []
           end
      else c :: read_carets rest
  end.

(** Reading back what [escapeForPowerShell] wrote: after a backtick or a
    single quote the next unit is taken as it is. *)
Fixpoint read_backticks (s : jsstring) : jsstring :=
  match s with
  | [] => []
  | c :: rest =>
      if (c =? backtick) || (c =? single_quote)
      then match rest with
           | d :: rest' => d :: read_backticks rest'
           | [] => []
           end
      else c :: read_backticks rest
  end.

(** The units of [s] that are in the class [l]. *)
Definition count_in (l : jsstring) (s : list N) : nat :=
  length (filter (fun c => includes l c = true) s).

Lemma escapeForCmd_cons (c : N) (s : jsstring) :
  escapeForCmd (c :: s)
  = (if includes cmd_class c then [caret; c] else [c]) ++ escapeForCmd s.
Proof. reflexivity. Qed.

Lemma caret_in_class : includes cmd_class caret = true.
Proof. reflexivity. Qed.

Lemma read_carets_escapeForCmd (s : jsstring) : read_carets (escapeForCmd s) = s.
Proof.
  induction s as [|c s IH]; [done|].
  rewrite escapeForCmd_cons. destruct (includes cmd_class c) eqn:Hclass.
  - cbn [app read_carets]. rewrite N.eqb_refl. by rewrite IH.
  - cbn [app read_carets]. destruct (N.eqb_spec c caret) as [->|_].
    + by rewrite caret_in_class in Hclass.
    + by rewrite IH.
Qed.

Lemma length_escapeForCmd (s : jsstring) :
  length (escapeForCmd s) = (length s + count_in cmd_class s)%nat.
Proof.
  unfold count_in. induction s as [|c s IH]; [done|].
  rewrite escapeForCmd_cons, length_app, IH, filter_cons.
  destruct (includes cmd_class c) eqn:Hclass.
  - rewrite decide_True by done. cbn [length]. lia.
  - rewrite decide_False by done. cbn [length]. lia.
Qed.

(** X17 ([escapeForCmd]): every unit of the class gets one caret in front of
    it and nothing else changes, so the result is longer by the number of
    such units and equals the input exactly when the input has none; reading
    carets back returns the input, hence two different inputs never escape to
    the same string. *)
Theorem escapeForCmd_faithful (s : jsstring) :
  read_carets (escapeForCmd s) = s
  /\ (forall t, escapeForCmd s = escapeForCmd t -> s = t)
  /\ length (escapeForCmd s) = (length s + count_in cmd_class s)%nat
  /\ (escapeForCmd s = s <-> count_in cmd_class s = 0%nat).
Proof.
  split; [apply read_carets_escapeForCmd|]. split.
  { intros t Heq.
    by rewrite <- (read_carets_escapeForCmd s), Heq, read_carets_escapeForCmd. }
  split; [apply length_escapeForCmd|]. split.
  - intros Hsame. pose proof (length_escapeForCmd s) as Hlen.
    rewrite Hsame in Hlen. lia.
  - unfold count_in. induction s as [|c s IH]; [done|].
    rewrite filter_cons, escapeForCmd_cons.
    destruct (includes cmd_class c) eqn:Hclass.
    + by rewrite decide_True.
    + rewrite decide_False by done. intros Hnone. cbn [app]. f_equal. by apply IH.
Qed.

(** *** PowerShell *)

Definition powershell_class : jsstring := [backtick; dollar; double_quote; single_quote].

(** What the four replacements together make of one unit. *)
Definition powershell_unit (c : N) : jsstring :=
  if c =? backtick then [backtick; backtick]
  else if c =? dollar then [backtick; dollar]
  else if c =? double_quote then [backtick; double_quote]
  else if c =? single_quote then [single_quote; single_quote]
  else [c].

Lemma escapeForPowerShell_cons (c : N) (s : jsstring) :
  escapeForPowerShell (c :: s) = powershell_unit c ++ escapeForPowerShell s.
Proof.
  unfold escapeForPowerShell. change (c :: s) with ([c] ++ s).
  rewrite !replace_each_app. f_equal.
  unfold powershell_unit, replace_each, backtick, dollar, double_quote, single_quote.
  cbn [mbind list_bind app].
  destruct (N.eqb_spec c 96) as [->|H1]; [done|].
  cbn [mbind list_bind app].
  destruct (N.eqb_spec c 36) as [->|H2]; [done|].
  cbn [mbind list_bind app].
  destruct (N.eqb_spec c 34) as [->|H3]; [done|].
  cbn [mbind list_bind app].
  by destruct (N.eqb_spec c 39) as [->|H4].
Qed.

Lemma powershell_unit_cases (c : N) :
  (includes powershell_class c = true
   /\ exists mark, powershell_unit c = [mark; c]
                   /\ ((mark =? backtick) || (mark =? single_quote) = true))
  \/ (includes powershell_class c = false /\ powershell_unit c = [c]
      /\ (c =? backtick) || (c =? single_quote) = false).
Proof.
  unfold powershell_unit, includes, powershell_class, backtick, dollar, double_quote,
    single_quote. cbn [existsb].
  destruct (N.eqb_spec c 96) as [->|H1]; [left; split; [done|by exists 96]|].
  destruct (N.eqb_spec c 36) as [->|H2]; [left; split; [done|by exists 96]|].
  destruct (N.eqb_spec c 34) as [->|H3]; [left; split; [done|by exists 96]|].
  destruct (N.eqb_spec c 39) as [->|H4]; [left; split; [done|by exists 39]|].
  by right.
Qed.

Lemma read_backticks_escapeForPowerShell (s : jsstring) :
  read_backticks (escapeForPowerShell s) = s.
Proof.
  induction s as [|c s IH]; [done|].
  rewrite escapeForPowerShell_cons.
  destruct (powershell_unit_cases c) as [(_ & mark & -> & Hmark)|(_ & -> & Hplain)];
    cbn [app read_backticks].
  - by rewrite Hmark, IH.
  - by rewrite Hplain, IH.
Qed.

Lemma length_escapeForPowerShell (s : jsstring) :
  length (escapeForPowerShell s) = (length s + count_in powershell_class s)%nat.
Proof.
  unfold count_in. induction s as [|c s IH]; [done|].
  rewrite escapeForPowerShell_cons, length_app, IH, filter_cons.
  destruct (powershell_unit_cases c) as [(Hin & mark & -> & _)|(Hout & -> & _)].
  - rewrite decide_True by done. cbn [length]. lia.
  - rewrite decide_False by (by rewrite Hout). cbn [length]. lia.
Qed.

(** X18 ([escapeForPowerShell]): the four replacements do not touch each
    other's output: each backtick, dollar sign and double quote of the input
    gets one backtick in front, each single quote is doubled, and nothing
    else changes.  So the result is longer by the number of such units and
    equals the input exactly when the input has none, and two different
    inputs never escape to the same string. *)
Theorem escapeForPowerShell_faithful (s : jsstring) :
  escapeForPowerShell s = s ≫= powershell_unit
  /\ read_backticks (escapeForPowerShell s) = s
  /\ (forall t, escapeForPowerShell s = escapeForPowerShell t -> s = t)
  /\ length (escapeForPowerShell s) = (length s + count_in powershell_class s)%nat
  /\ (escapeForPowerShell s = s <-> count_in powershell_class s = 0%nat).
Proof.
  split.
  { induction s as [|c s IH]; [done|]. rewrite escapeForPowerShell_cons, IH. done. }
  split; [apply read_backticks_escapeForPowerShell|]. split.
  { intros t Heq. by rewrite <- (read_backticks_escapeForPowerShell s), Heq,
      read_backticks_escapeForPowerShell. }
  split; [apply length_escapeForPowerShell|]. split.
  - intros Hsame. pose proof (length_escapeForPowerShell s) as Hlen.
    rewrite Hsame in Hlen. lia.
  - unfold count_in. induction s as [|c s IH]; [done|].
    rewrite filter_cons, escapeForPowerShell_cons.
    destruct (powershell_unit_cases c) as [(Hin & _)|(Hout & -> & _)].
    + by rewrite decide_True.
    + rewrite decide_False by (by rewrite Hout). intros Hnone. cbn [app]. f_equal.
      by apply IH.
Qed.

End Escape.

(** ** Editing a file by lines *)

Module Lines.

Local Open Scope Z_scope.

Definition LF : N := 10.

(** [s.split(sep)] for a separator of one code unit: the pieces between
    the separators, one piece more than there are separators. *)
Fixpoint split (sep : N) (s : jsstring) : list jsstring :=
  match s with
  | [] => [[]]
  | c :: s' =>
      if (c =? sep)%N then [] :: split sep s'
      else match split sep s' with
           | line :: rest => (c :: line) :: rest
           | [] => [[c]]
           end
  end.

(** [lines.join(sep)] *)
Fixpoint join (sep : N) (lines : list jsstring) : jsstring :=
  match lines with
  | [] => []
  | line :: rest =>
      match rest with
      | [] => line
      | _ :: _ => line ++ sep :: join sep rest
      end
  end.

(** What is at a path: a file with its text, or a directory.  The text is
    what [readFile] returns for UTF-8 and what [writeFile] stores; texts are
    taken to be well-formed UTF-16, which the two pass on unchanged. *)
Inductive Entry :=
| Text (content : jsstring)
| Folder.

Inductive Operation := OpReplace | OpInsert | OpDelete.

(** The three descriptions of what was done ([actionDesc]). *)
Inductive Action :=
| Replaced (first last count : Z)
| Inserted (count after : Z)
| Deleted (first last : Z).

Inductive Message :=
| FileNotFound (filePath : jsstring)
| InvalidStartLine (start_line totalLines : Z)
| InvalidEndLine (end_line : option Z)
| ContentRequired (operation : Operation)
| Edited (filePath : jsstring) (action : Action) (totalLines newTotal : Z)
| EditFailed.

(** [!params.content] is false for a string with at least one unit. *)
Definition given (content : option jsstring) : option jsstring :=
  match content with
  | Some (c :: text) => Some (c :: text)
  | Some [] | None => None
  end.

Section Handler.

Variable normalizePath : jsstring -> jsstring.

(** [fc_edit_file] on the files as they are; the text of a file is what
    [readFile] returns and [writeFile] stores, reading a directory throws
    into the handler's [catch]. *)
Definition fc_edit_file (path : jsstring) (operation : Operation) (start_line : Z)
    (end_line : option Z) (content : option jsstring) (files : gmap (list N) Entry)
  : ToolResult Message * gmap (list N) Entry :=
  let filePath := normalizePath path in
  match files !! filePath with
  | None => (failed (FileNotFound filePath), files)
  | Some Folder => (failed EditFailed, files)
  | Some (Text originalContent) =>
      let lines := split LF originalContent in
      let totalLines := Z.of_nat (length lines) in
      let startIdx := start_line - 1 in
      let endIdx :=
        match end_line with
        | Some e => if e =? 0 then startIdx else e - 1
        | None => startIdx
        end in
      if (startIdx <? 0) || (totalLines <=? startIdx)
      then (failed (InvalidStartLine start_line totalLines), files)
      else if (endIdx <? startIdx) || (totalLines <=? endIdx)
      then (failed (InvalidEndLine end_line), files)
      else
        let write (newLines : list jsstring) (action : Action) :=
          (ok (Edited filePath action totalLines (Z.of_nat (length newLines))),
           <[filePath := Text (join LF newLines)]> files) in
        match operation with
        | OpReplace =>
            match given content with
            | None => (failed (ContentRequired OpReplace), files)
            | Some text =>
                let replacementLines := split LF text in
                write (JsArray.slice lines 0 startIdx ++ replacementLines
                         ++ JsArray.slice_from lines (endIdx + 1))
                      (Replaced start_line (endIdx + 1)
                         (Z.of_nat (length replacementLines)))
            end
        | OpInsert =>
            match given content with
            | None => (failed (ContentRequired OpInsert), files)
            | Some text =>
                let insertLines := split LF text in
                write (JsArray.slice lines 0 (startIdx + 1) ++ insertLines
                         ++ JsArray.slice_from lines (startIdx + 1))
                      (Inserted (Z.of_nat (length insertLines)) start_line)
            end
        | OpDelete =>
            write (JsArray.slice lines 0 startIdx ++ JsArray.slice_from lines (endIdx + 1))
                  (Deleted start_line (endIdx + 1))
        end
  end.

End Handler.

(** *** Lines and text *)

Lemma split_cons_cases (sep c : N) (s : jsstring) :
  exists line rest,
    split sep s = line :: rest
    /\ split sep (c :: s)
       = if (c =? sep)%N then [] :: line :: rest else (c :: line) :: rest.
Proof.
  assert (exists line rest, split sep s = line :: rest) as (line & rest & Hs).
  { destruct s as [|d s]; [by eexists _, _|]. cbn [split].
    destruct (d =? sep)%N; [by eexists _, _|].
    destruct (split sep s); by eexists _, _. }
  exists line, rest. split; [done|]. cbn [split]. by rewrite Hs.
Qed.

Lemma join_cons (sep : N) (line next : jsstring) (rest : list jsstring) :
  join sep (line :: next :: rest) = line ++ sep :: join sep (next :: rest).
Proof. reflexivity. Qed.

Lemma join_split (sep : N) (s : jsstring) : join sep (split sep s) = s.
Proof.
  induction s as [|c s IH]; [done|].
  destruct (split_cons_cases sep c s) as (line & rest & Hs & ->).
  rewrite Hs in IH. destruct (N.eqb_spec c sep) as [->|Hne].
  - rewrite join_cons. cbn [app]. by rewrite IH.
  - destruct rest as [|next rest].
    + cbn [join] in *. by rewrite IH.
    + rewrite join_cons in *. cbn [app]. by rewrite IH.
Qed.

Lemma split_app_line (sep : N) (line : jsstring) (s : jsstring) :
  sep ∉ line ->
  split sep (line ++ sep :: s) = line :: split sep s.
Proof.
  intros Hfree. induction line as [|c line IH].
  - cbn [app split]. by rewrite N.eqb_refl.
  - cbn [app]. assert (c ≠ sep) as Hne by (intros ->; apply Hfree; left).
    cbn [split]. rewrite (proj2 (N.eqb_neq c sep)) by done.
    rewrite IH; [done|]. intros Hin. apply Hfree. by right.
Qed.

Lemma split_line (sep : N) (line : jsstring) : sep ∉ line -> split sep line = [line].
Proof.
  intros Hfree. induction line as [|c line IH]; [done|].
  assert (c ≠ sep) as Hne by (intros ->; apply Hfree; left).
  cbn [split]. rewrite (proj2 (N.eqb_neq c sep)) by done.
  rewrite IH; [done|]. intros Hin. apply Hfree. by right.
Qed.

Lemma split_join (sep : N) (lines : list jsstring) :
  lines ≠ [] -> Forall (fun line => sep ∉ line) lines ->
  split sep (join sep lines) = lines.
Proof.
  intros Hne Hfree. induction lines as [|line rest IH]; [done|].
  apply Forall_cons in Hfree as [Hline Hrest].
  destruct rest as [|next rest].
  - by apply split_line.
  - rewrite join_cons, split_app_line by done. f_equal. by apply IH.
Qed.

Lemma split_free (sep : N) (s : jsstring) : Forall (fun line => sep ∉ line) (split sep s).
Proof.
  induction s as [|c s IH].
  - repeat constructor. by intros ?%elem_of_nil.
  - destruct (split_cons_cases sep c s) as (line & rest & Hs & ->).
    rewrite Hs in IH. apply Forall_cons in IH as [Hline Hrest].
    destruct (N.eqb_spec c sep) as [->|Hne].
    + constructor; [by intros ?%elem_of_nil|]. by constructor.
    + constructor; [|done]. by intros [->|?]%elem_of_cons.
Qed.

Lemma length_split (sep : N) (s : list N) :
  length (split sep s) = S (length (filter (fun c => c = sep) s)).
Proof.
  induction s as [|c s IH]; [done|].
  destruct (split_cons_cases sep c s) as (line & rest & Hs & ->).
  rewrite Hs in IH. rewrite filter_cons.
  destruct (N.eqb_spec c sep) as [->|Hne].
  - rewrite decide_True by done. cbn [length] in *. lia.
  - rewrite decide_False by done. cbn [length] in *. lia.
Qed.

(** X19 (lines and text): joining the lines of a text with the separator
    gives the text back, whatever the text; a text has one line more than it
    has separators, so also the empty text has one line; no line contains the
    separator; and splitting the join of lines gives the lines back when
    there is at least one line and none contains the separator. *)
Theorem split_join_round_trip (sep : N) (s : list N) :
  join sep (split sep s) = s
  /\ length (split sep s) = S (length (filter (fun c => c = sep) s))
  /\ Forall (fun line => sep ∉ line) (split sep s)
  /\ (forall lines, lines ≠ [] -> Forall (fun line => sep ∉ line) lines ->
        split sep (join sep lines) = lines)
  /\ split sep (join sep []) = [[]].
Proof.
  split; [apply join_split|]. split; [apply length_split|].
  split; [apply split_free|]. split; [apply split_join | done].
Qed.

(** *** The edit *)

(** The last line of the range an edit names: [end_line], or the first line
    where [end_line] is left out (or 0). *)
Definition last_line (start_line : Z) (end_line : option Z) : Z :=
  match end_line with
  | Some e => if e =? 0 then start_line else e
  | None => start_line
  end.

(** The lines an accepted edit leaves, with the range read 1-based. *)
Definition edited (operation : Operation) (first last : nat) (text : jsstring)
    (lines : list jsstring) : list jsstring :=
  match operation with
  | OpReplace => take (first - 1) lines ++ split LF text ++ drop last lines
  | OpInsert => take first lines ++ split LF text ++ drop first lines
  | OpDelete => take (first - 1) lines ++ drop last lines
  end.

Definition action_of (operation : Operation) (start_line last : Z) (text : jsstring)
  : Action :=
  match operation with
  | OpReplace => Replaced start_line last (Z.of_nat (length (split LF text)))
  | OpInsert => Inserted (Z.of_nat (length (split LF text))) start_line
  | OpDelete => Deleted start_line last
  end.

Definition in_range (start_line : Z) (end_line : option Z) (lines : list jsstring) : Prop :=
  1 <= start_line <= Z.of_nat (length lines)
  /\ start_line <= last_line start_line end_line <= Z.of_nat (length lines).

Definition has_content (operation : Operation) (content : option jsstring) : Prop :=
  operation <> OpDelete -> given content <> None.

Section EditFacts.

Variable normalizePath : jsstring -> jsstring.

Lemma slice_take {A} (l : list A) (n : Z) :
  0 <= n -> JsArray.slice l 0 n = take (Z.to_nat n) l.
Proof.
  intros Hn. rewrite JsArray.slice_nonneg by lia. cbn [Z.to_nat drop]. f_equal. lia.
Qed.

Lemma slice_from_drop {A} (l : list A) (n : Z) :
  0 <= n -> JsArray.slice_from l n = drop (Z.to_nat n) l.
Proof.
  intros Hn. unfold JsArray.slice_from. rewrite JsArray.slice_nonneg by lia.
  apply take_ge. rewrite length_drop. lia.
Qed.

Lemma fc_edit_file_accepted path operation start_line end_line content files original :
  files !! normalizePath path = Some (Text original) ->
  in_range start_line end_line (split LF original) ->
  has_content operation content ->
  fc_edit_file normalizePath path operation start_line end_line content files
  = let text := default [] content in
    let last := last_line start_line end_line in
    let newLines :=
      edited operation (Z.to_nat start_line) (Z.to_nat last) text (split LF original) in
    (ok (Edited (normalizePath path) (action_of operation start_line last text)
           (Z.of_nat (length (split LF original))) (Z.of_nat (length newLines))),
     <[normalizePath path := Text (join LF newLines)]> files).
Proof.
  intros Hfile [Hstart Hlast] Hcontent. unfold fc_edit_file. rewrite Hfile.
  set (lines := split LF original) in *.
  set (endIdx := match end_line with
                 | Some e => if e =? 0 then start_line - 1 else e - 1
                 | None => start_line - 1
                 end).
  assert (endIdx = last_line start_line end_line - 1) as HendIdx.
  { unfold endIdx, last_line. destruct end_line as [e|]; [|done]. by destruct (e =? 0). }
  clearbody endIdx. subst endIdx.
  set (last := last_line start_line end_line) in *.
  destruct (Z.ltb_spec (start_line - 1) 0) as [?|_]; [lia|].
  destruct (Z.leb_spec (Z.of_nat (length lines)) (start_line - 1)) as [?|_]; [lia|].
  destruct (Z.ltb_spec (last - 1) (start_line - 1)) as [?|_]; [lia|].
  destruct (Z.leb_spec (Z.of_nat (length lines)) (last - 1)) as [?|_]; [lia|].
  cbn [orb].
  rewrite !slice_take, !slice_from_drop by lia.
  replace (Z.to_nat (start_line - 1)) with (Z.to_nat start_line - 1)%nat by lia.
  replace (Z.to_nat (start_line - 1 + 1)) with (Z.to_nat start_line) by lia.
  replace (Z.to_nat (last - 1 + 1)) with (Z.to_nat last) by lia.
  replace (last - 1 + 1) with last by lia.
  destruct operation; cbn [edited action_of]; [| |done].
  - destruct content as [[|c text]|]; cbn [given default];
      [by destruct Hcontent | done | by destruct Hcontent].
  - destruct content as [[|c text]|]; cbn [given default];
      [by destruct Hcontent | done | by destruct Hcontent].
Qed.

Lemma fc_edit_file_refused path operation start_line end_line content files original :
  files !! normalizePath path = Some (Text original) ->
  ~ (in_range start_line end_line (split LF original) /\ has_content operation content) ->
  exists message,
    fc_edit_file normalizePath path operation start_line end_line content files
    = (failed message, files).
Proof.
  intros Hfile Hno. unfold fc_edit_file. rewrite Hfile.
  set (lines := split LF original) in *.
  set (endIdx := match end_line with
                 | Some e => if e =? 0 then start_line - 1 else e - 1
                 | None => start_line - 1
                 end).
  assert (endIdx = last_line start_line end_line - 1) as HendIdx.
  { unfold endIdx, last_line. destruct end_line as [e|]; [|done]. by destruct (e =? 0). }
  clearbody endIdx. subst endIdx.
  destruct (Z.ltb_spec (start_line - 1) 0) as [?|?]; [by eexists|].
  destruct (Z.leb_spec (Z.of_nat (length lines)) (start_line - 1)) as [?|?]; [by eexists|].
  destruct (Z.ltb_spec (last_line start_line end_line - 1) (start_line - 1)) as [?|?];
    [by eexists|].
  destruct (Z.leb_spec (Z.of_nat (length lines)) (last_line start_line end_line - 1))
    as [?|?]; [by eexists|].
  cbn [orb].
  assert (in_range start_line end_line lines) as Hrange by (unfold in_range; lia).
  destruct operation.
  - destruct (given content) eqn:Hgiven; [|by eexists].
    destruct Hno. split; [done|]. intros _. by rewrite Hgiven.
  - destruct (given content) eqn:Hgiven; [|by eexists].
    destruct Hno. split; [done|]. intros _. by rewrite Hgiven.
  - destruct Hno. split; [done|]. by intros [].
Qed.

Lemma in_range_dec start_line end_line lines :
  in_range start_line end_line lines \/ ~ in_range start_line end_line lines.
Proof. unfold in_range. lia. Qed.

Lemma has_content_dec operation content :
  has_content operation content \/ ~ has_content operation content.
Proof.
  unfold has_content. destruct operation; [| |by left].
  - destruct (given content); [left; by intros _|right; intros H; by apply H].
  - destruct (given content); [left; by intros _|right; intros H; by apply H].
Qed.

(** X20 (what an edit does): on a file with text, the edit is accepted
    exactly when the first line lies in the file, the last line of the range
    lies between the first line and the end of the file, and, for replace
    and insert, the content has at least one unit.  An accepted edit writes
    the lines before the range, the lines of the content (replace), and the
    lines after the range; an insert keeps the first line and puts the
    content after it; no other file changes.  A refused edit changes
    nothing. *)
Theorem fc_edit_file_spec path operation start_line end_line content files original :
  files !! normalizePath path = Some (Text original) ->
  let reply := fc_edit_file normalizePath path operation start_line end_line content files in
  let lines := split LF original in
  let last := last_line start_line end_line in
  (isError (fst reply) = false
   <-> in_range start_line end_line lines /\ has_content operation content)
  /\ (isError (fst reply) = false ->
      snd reply
      = <[normalizePath path :=
            Text (join LF (edited operation (Z.to_nat start_line) (Z.to_nat last)
                             (default [] content) lines))]> files)
  /\ (isError (fst reply) = true -> snd reply = files).
Proof.
  intros Hfile reply lines last.
  destruct (in_range_dec start_line end_line lines) as [Hrange|Hrange];
    [destruct (has_content_dec operation content) as [Hcontent|Hcontent]|].
  - subst reply. rewrite (fc_edit_file_accepted _ _ _ _ _ _ _ Hfile Hrange Hcontent).
    cbn. split; [done|]. split; [done|]. intros [=].
  - destruct (fc_edit_file_refused path operation start_line end_line content files
                original Hfile) as [message Hreply]; [by intros [_ ?]|].
    subst reply. rewrite Hreply. cbn. split; [|done].
    split; [intros [=] | by intros [_ ?]].
  - destruct (fc_edit_file_refused path operation start_line end_line content files
                original Hfile) as [message Hreply]; [by intros [? _]|].
    subst reply. rewrite Hreply. cbn. split; [|done].
    split; [intros [=] | by intros [? _]].
Qed.

Lemma split_nonempty (sep : N) (s : jsstring) : split sep s <> [].
Proof.
  destruct s as [|c s]; [done|].
  by destruct (split_cons_cases sep c s) as (line & rest & _ & ->); destruct (c =? sep)%N.
Qed.

Lemma edited_free operation first last text lines :
  Forall (fun line => LF ∉ line) lines ->
  Forall (fun line => LF ∉ line) (edited operation first last text lines).
Proof.
  intros Hfree. pose proof (split_free LF text) as Htext.
  destruct operation; cbn [edited]; rewrite ?Forall_app;
    repeat split; try done; by (apply Forall_take || apply Forall_drop).
Qed.

Lemma length_edited operation first last text lines :
  (1 <= first <= length lines)%nat -> (first <= last <= length lines)%nat ->
  Z.of_nat (length (edited operation first last text lines))
  = Z.of_nat (length lines)
    + match operation with
      | OpDelete => 0
      | OpReplace | OpInsert => Z.of_nat (length (split LF text))
      end
    - match operation with
      | OpInsert => 0
      | OpReplace | OpDelete => Z.of_nat last - Z.of_nat first + 1
      end.
Proof.
  intros Hfirst Hlast.
  destruct operation; cbn [edited];
    rewrite !length_app, ?length_take, ?length_drop; lia.
Qed.

(** X21 (line counts of an edit): an accepted edit reports the number of
    lines the file had and the number it wrote: the old number, plus the
    lines of the content (replace, insert), minus the lines of the range
    (replace, delete).  The text it wrote has that many lines when read
    again, except when every line was deleted: the reply then says 0 lines,
    and the empty text it wrote is one empty line to the next edit. *)
Theorem fc_edit_file_line_counts path operation start_line end_line content files original :
  files !! normalizePath path = Some (Text original) ->
  let reply := fc_edit_file normalizePath path operation start_line end_line content files in
  isError (fst reply) = false ->
  exists action newTotal written,
    fst reply
    = ok (Edited (normalizePath path) action (Z.of_nat (length (split LF original)))
            newTotal)
    /\ snd reply !! normalizePath path = Some (Text written)
    /\ newTotal
       = Z.of_nat (length (split LF original))
         + match operation with
           | OpDelete => 0
           | OpReplace | OpInsert => Z.of_nat (length (split LF (default [] content)))
           end
         - match operation with
           | OpInsert => 0
           | OpReplace | OpDelete => last_line start_line end_line - start_line + 1
           end
    /\ (newTotal <> 0 -> Z.of_nat (length (split LF written)) = newTotal)
    /\ (newTotal = 0 -> written = [] /\ length (split LF written) = 1%nat).
Proof.
  intros Hfile reply Hok.
  destruct (in_range_dec start_line end_line (split LF original)) as [Hrange|Hrange];
    [destruct (has_content_dec operation content) as [Hcontent|Hcontent]|].
  2,3: destruct (fc_edit_file_refused path operation start_line end_line content files
                   original Hfile) as [message Hreply]; [tauto|];
       subst reply; by rewrite Hreply in Hok.
  subst reply. rewrite (fc_edit_file_accepted _ _ _ _ _ _ _ Hfile Hrange Hcontent).
  cbn [fst snd]. destruct Hrange as [Hstart Hlast].
  set (newLines := edited _ _ _ _ _).
  exists (action_of operation start_line (last_line start_line end_line) (default [] content)),
    (Z.of_nat (length newLines)), (join LF newLines).
  split; [done|]. split; [by rewrite lookup_insert_eq|]. split.
  { subst newLines. rewrite length_edited by lia. destruct operation; lia. }
  split.
  - intros Hlen. rewrite split_join; [done| |].
    + intros Hnil. by rewrite Hnil in Hlen.
    + apply edited_free, split_free.
  - intros Hlen. destruct newLines; [done|]. cbn [length] in Hlen. lia.
Qed.

(** X22 (undoing an insert): after content was inserted after line [n],
    deleting the lines [n+1 .. n+k], where [k] is the number of lines of the
    content, gives every file its text back. *)
Theorem fc_edit_file_insert_undone path n content files original :
  files !! normalizePath path = Some (Text original) ->
  1 <= n <= Z.of_nat (length (split LF original)) ->
  given content <> None ->
  let inserted := snd (fc_edit_file normalizePath path OpInsert n None content files) in
  let k := Z.of_nat (length (split LF (default [] content))) in
  fc_edit_file normalizePath path OpDelete (n + 1) (Some (n + k)) None inserted
  = (ok (Edited (normalizePath path) (Deleted (n + 1) (n + k))
           (Z.of_nat (length (split LF original)) + k)
           (Z.of_nat (length (split LF original)))),
     files).
Proof.
  intros Hfile Hn Hcontent inserted k.
  set (lines := split LF original) in *. set (text := default [] content) in *.
  assert (1 <= k) as Hk.
  { subst k. pose proof (split_nonempty LF text). destruct (split LF text); [done|].
    cbn [length]. lia. }
  assert (inserted
          = <[normalizePath path :=
                Text (join LF (take (Z.to_nat n) lines ++ split LF text
                                 ++ drop (Z.to_nat n) lines))]> files) as ->.
  { subst inserted. rewrite (fc_edit_file_accepted _ _ _ _ _ _ original);
      [done | done | | by intros _].
    unfold in_range, last_line. fold lines. lia. }
  set (newLines := take (Z.to_nat n) lines ++ split LF text ++ drop (Z.to_nat n) lines).
  assert (split LF (join LF newLines) = newLines) as Hsplit.
  { apply split_join.
    - subst newLines. intros Hnil%app_eq_nil. destruct Hnil as [_ Hnil%app_eq_nil].
      destruct Hnil as [Hnil _]. by apply split_nonempty in Hnil.
    - apply (edited_free OpInsert (Z.to_nat n) (Z.to_nat n) text lines), split_free. }
  assert (length newLines = (length lines + Z.to_nat k)%nat) as Hlength.
  { subst newLines k. rewrite !length_app, length_take, length_drop. lia. }
  assert (last_line (n + 1) (Some (n + k)) = n + k) as Hlastline.
  { unfold last_line. destruct (Z.eqb_spec (n + k) 0); [lia | done]. }
  rewrite (fc_edit_file_accepted _ _ _ _ _ _ (join LF newLines));
    [|by rewrite lookup_insert_eq| |by intros []].
  2: { unfold in_range. rewrite Hsplit, Hlastline, Hlength. lia. }
  cbn zeta. rewrite Hsplit, Hlastline. cbn [edited action_of].
  replace (Z.to_nat (n + 1) - 1)%nat with (Z.to_nat n) by lia.
  assert (take (Z.to_nat n) newLines ++ drop (Z.to_nat (n + k)) newLines = lines) as ->.
  { subst newLines.
    rewrite take_app_le by (rewrite length_take; lia).
    rewrite take_take, Nat.min_id.
    rewrite drop_app_ge by (rewrite length_take; lia).
    rewrite length_take. rewrite drop_app_ge by (subst k; lia).
    replace (Z.to_nat (n + k) - Z.to_nat n `min` length lines - length (split LF text))%nat
      with 0%nat by (subst k; lia).
    rewrite drop_0. apply take_drop. }
  rewrite insert_insert_eq. subst lines. rewrite join_split.
  rewrite (insert_id _ _ _ Hfile). do 3 f_equal. lia.
Qed.

(** X23 (replacing lines by themselves): replacing a range of lines by
    the very text of that range leaves every file as it is; the edit is
    accepted unless that text is empty, which is the case of a range that is
    one empty line: an empty line cannot be written by a replace. *)
Theorem fc_edit_file_replace_same path start_line end_line files original :
  files !! normalizePath path = Some (Text original) ->
  in_range start_line end_line (split LF original) ->
  let last := last_line start_line end_line in
  let text :=
    join LF (take (Z.to_nat (last - start_line + 1))
               (drop (Z.to_nat start_line - 1) (split LF original))) in
  let reply :=
    fc_edit_file normalizePath path OpReplace start_line end_line (Some text) files in
  snd reply = files /\ (isError (fst reply) = true <-> text = []).
Proof.
  intros Hfile Hrange last text reply. subst reply.
  set (lines := split LF original) in *.
  set (range := take (Z.to_nat (last - start_line + 1))
                  (drop (Z.to_nat start_line - 1) lines)) in *.
  assert (text = join LF range) as Htext by done. clearbody text.
  pose proof (fc_edit_file_refused path OpReplace start_line end_line (Some text) files
                original Hfile) as Hrefused.
  destruct text as [|c rest].
  - destruct Hrefused as [message Hreply].
    { intros [_ Hcontent]. by apply Hcontent. }
    by rewrite Hreply.
  - clear Hrefused.
    rewrite (fc_edit_file_accepted _ _ _ _ _ _ original); try done.
    cbn [fst snd ok isError default from_option id edited]. split; [|done].
    rewrite Htext. fold lines. fold last.
    destruct Hrange as [Hstart Hlast]. fold lines last in Hstart, Hlast.
    assert (split LF (join LF range) = range) as ->.
    { apply split_join.
      - subst range. intros Hnil%(f_equal length). revert Hnil.
        rewrite length_take, length_drop. cbn [length]. lia.
      - subst range. apply Forall_take, Forall_drop, split_free. }
    assert (take (Z.to_nat start_line - 1) lines ++ range ++ drop (Z.to_nat last) lines
            = lines) as ->.
    { subst range. rewrite <- (take_drop (Z.to_nat start_line - 1) lines) at 4.
      f_equal.
      rewrite <- (take_drop (Z.to_nat (last - start_line + 1))
                    (drop (Z.to_nat start_line - 1) lines)) at 2.
      f_equal. rewrite drop_drop. f_equal. lia. }
    subst lines. rewrite join_split. by apply insert_id.
Qed.

End EditFacts.

(** A file of three lines, and a directory beside it. *)
Definition notes : jsstring := str "notes.txt".
Definition notes_text : jsstring := str "one" ++ LF :: str "two" ++ LF :: str "three".
Definition demo_files : gmap (list N) Entry :=
  <[notes := Text notes_text]> (<[str "src" := Folder]> ∅).

Lemma fc_edit_file_spec_witness :
  demo_files !! notes = Some (Text notes_text)
  /\ (fc_edit_file id notes OpReplace 2 None (Some (str "zwei")) demo_files).2
     = <[notes := Text (str "one" ++ LF :: str "zwei" ++ LF :: str "three")]> demo_files.
Proof.
  split; [reflexivity|].
  exact (proj1 (proj2 (fc_edit_file_spec id notes OpReplace 2 None (Some (str "zwei"))
                         demo_files notes_text eq_refl)) eq_refl).
Defined.

Lemma fc_edit_file_line_counts_witness :
  demo_files !! notes = Some (Text notes_text)
  /\ exists action newTotal written,
       (fc_edit_file id notes OpDelete 1 (Some 3) None demo_files).1
       = ok (Edited notes action 3 newTotal)
       /\ (fc_edit_file id notes OpDelete 1 (Some 3) None demo_files).2 !! notes
          = Some (Text written)
       /\ newTotal = 3 + 0 - (3 - 1 + 1)
       /\ (newTotal <> 0 -> Z.of_nat (length (split LF written)) = newTotal)
       /\ (newTotal = 0 -> written = [] /\ length (split LF written) = 1%nat).
Proof.
  split; [reflexivity|].
  exact (fc_edit_file_line_counts id notes OpDelete 1 (Some 3) None demo_files notes_text
           eq_refl eq_refl).
Defined.

Lemma fc_edit_file_insert_undone_witness :
  fc_edit_file id notes OpDelete 3 (Some 4) None
    (fc_edit_file id notes OpInsert 2 None (Some (str "a" ++ LF :: str "b")) demo_files).2
  = (ok (Edited notes (Deleted 3 4) 5 3), demo_files).
Proof.
  apply (fc_edit_file_insert_undone id notes 2 (Some (str "a" ++ LF :: str "b"))
           demo_files notes_text); [reflexivity | vm_compute; intuition discriminate | discriminate].
Defined.

Lemma fc_edit_file_replace_same_witness :
  (fc_edit_file id notes OpReplace 2 (Some 3) (Some (str "two" ++ LF :: str "three"))
     demo_files).2 = demo_files.
Proof.
  apply (fc_edit_file_replace_same id notes 2 (Some 3) demo_files notes_text);
    [reflexivity | vm_compute; intuition discriminate].
Defined.

End Lines.

(** ** Listing a directory *)

Module Listing.

Import Wildcard Search.

Local Open Scope nat_scope.

Definition space : N := 32.
Definition slash : N := 47.

(** The two icons, U+1F4C1 and U+1F4C4, as their surrogate pairs. *)
Definition folder_icon : jsstring := [55357; 56513]%N.
Definition page_icon : jsstring := [55357; 56516]%N.

(** ["  ".repeat(currentDepth)] *)
Definition indent (currentDepth : nat) : jsstring :=
  mjoin (replicate currentDepth [space; space]).

(** The two templates of a line. *)
Definition directory_line (currentDepth : nat) (name : jsstring) : jsstring :=
  indent currentDepth ++ folder_icon ++ space :: name ++ [slash].
Definition file_line (currentDepth : nat) (name : jsstring) : jsstring :=
  indent currentDepth ++ page_icon ++ space :: name.

(** [listDirectoryRecursive(dirPath, maxDepth, currentDepth)], with [node]
    what is at [dirPath]; [None] is the rejection of [fs.readdir], which
    nothing in the function catches. *)
Fixpoint listDirectoryRecursive (node : Node) (maxDepth currentDepth : nat)
  : option (list jsstring) :=
  if maxDepth <? currentDepth then Some []
  else
    match node with
    | Dir (Some entries) =>
        (fix each (entries : list (jsstring * Node)) (results : list jsstring)
           : option (list jsstring) :=
           match entries with
           | [] => Some results
           | (name, entry) :: entries' =>
               if isDirectory entry then
                 let results := results ++ [directory_line currentDepth name] in
                 if currentDepth <? maxDepth then
                   match listDirectoryRecursive entry maxDepth (S currentDepth) with
                   | Some subEntries => each entries' (results ++ subEntries)
                   | None => None
                   end
                 else each entries' results
               else each entries' (results ++ [file_line currentDepth name])
           end) entries []
    | Dir None | File => None
    end.

(** The loop of [listDirectoryRecursive] on its own. *)
Definition each_with (recurse : Node -> option (list jsstring)) (maxDepth currentDepth : nat)
  : list (jsstring * Node) -> list jsstring -> option (list jsstring) :=
  fix each (entries : list (jsstring * Node)) (results : list jsstring)
    : option (list jsstring) :=
    match entries with
    | [] => Some results
    | (name, entry) :: entries' =>
        if isDirectory entry then
          let results := results ++ [directory_line currentDepth name] in
          if currentDepth <? maxDepth then
            match recurse entry with
            | Some subEntries => each entries' (results ++ subEntries)
            | None => None
            end
          else each entries' results
        else each entries' (results ++ [file_line currentDepth name])
    end.

(** [WhiteSpace] and [LineTerminator], the code points [trim] strips. *)
Definition isWhiteSpace (c : N) : bool :=
  bool_decide (c ∈ [9; 10; 11; 12; 13; 32; 160; 5760; 8192; 8193; 8194; 8195; 8196;
                    8197; 8198; 8199; 8200; 8201; 8202; 8232; 8233; 8239; 8287;
                    12288; 65279]%N).

Fixpoint trimStart (s : jsstring) : jsstring :=
  match s with
  | [] => []
  | c :: s' => if isWhiteSpace c then trimStart s' else s
  end.

Fixpoint trimEnd (s : jsstring) : jsstring :=
  match s with
  | [] => []
  | c :: s' =>
      match trimEnd s' with
      | [] => if isWhiteSpace c then [] else [c]
      | d :: t => c :: d :: t
      end
  end.

(** [s.trim()] *)
Definition trim (s : jsstring) : jsstring := trimEnd (trimStart s).

(** [s.startsWith(searchString)] *)
Fixpoint startsWith (s searchString : jsstring) {struct searchString} : bool :=
  match searchString with
  | [] => true
  | c :: searchString' =>
      match s with
      | [] => false
      | d :: s' => (d =? c)%N && startsWith s' searchString'
      end
  end.

(** The test of the filter for hidden entries. *)
Definition shown (e : jsstring) : bool :=
  negb (startsWith (trim e) (folder_icon ++ [space; dot]))
  && negb (startsWith (trim e) (page_icon ++ [space; dot])).

Inductive Message :=
| DirectoryNotFound (dirPath : jsstring)
| NotADirectory (dirPath : jsstring)
| Listed (dirPath text : jsstring)
| ListFailed.

(** [x || '(Verzeichnis ist leer)'] *)
Definition or_empty_note (text : jsstring) : jsstring :=
  match text with
  | [] => str "(Verzeichnis ist leer)"
  | _ :: _ => text
  end.

Section Handler.

Variable normalizePath : jsstring -> jsstring.
Variable fs : jsstring -> option Node.

(** [fc_list_directory] *)
Definition fc_list_directory (path : jsstring) (depth : nat) (show_hidden : bool)
  : ToolResult Message :=
  let dirPath := normalizePath path in
  match fs dirPath with
  | None => failed (DirectoryNotFound dirPath)
  | Some node =>
      if negb (isDirectory node) then failed (NotADirectory dirPath)
      else
        match listDirectoryRecursive node depth 0 with
        | None => failed ListFailed
        | Some entries =>
            let filteredEntries :=
              if show_hidden then entries else List.filter shown entries in
            ok (Listed dirPath (or_empty_note (Lines.join Lines.LF filteredEntries)))
        end
  end.

End Handler.

(** *** What a listing holds *)

(** A line by its parts: how deep the entry lies below the listed
    directory, whether it is a directory, and its name. *)
Record Row := mkRow { depth : nat; is_directory : bool; name : jsstring }.

Definition render (row : Row) : jsstring :=
  if is_directory row then directory_line (depth row) (name row)
  else file_line (depth row) (name row).

(** The entries down to [maxDepth] in pre-order: the entries of a directory
    in the order of its listing, each directory followed at once by what is
    below it, as long as it lies above [maxDepth]. *)
Definition rows_below (recurse : Node -> list Row) (descend : bool) (currentDepth : nat)
  : list (jsstring * Node) -> list Row :=
  fix below (entries : list (jsstring * Node)) : list Row :=
    match entries with
    | [] => []
    | (name, entry) :: entries' =>
        (if isDirectory entry
         then mkRow currentDepth true name :: (if descend then recurse entry else [])
         else [mkRow currentDepth false name])
        ++ below entries'
    end.

Fixpoint rows (node : Node) (maxDepth currentDepth : nat) : list Row :=
  if maxDepth <? currentDepth then []
  else
    match node with
    | Dir (Some entries) =>
        rows_below (fun entry => rows entry maxDepth (S currentDepth))
          (currentDepth <? maxDepth) currentDepth entries
    | Dir None | File => []
    end.

(** A directory that can be listed, with every directory down to [levels]
    levels below it. *)
Definition listable_below (recurse : Node -> bool) : list (jsstring * Node) -> bool :=
  fix below (entries : list (jsstring * Node)) : bool :=
    match entries with
    | [] => true
    | (_, entry) :: entries' =>
        (negb (isDirectory entry) || recurse entry) && below entries'
    end.

Fixpoint listable (node : Node) (levels : nat) : bool :=
  match node with
  | Dir (Some entries) =>
      match levels with
      | O => true
      | S levels' => listable_below (fun entry => listable entry levels') entries
      end
  | Dir None | File => false
  end.

Definition begins_with_dot (name : jsstring) : bool :=
  match name with
  | c :: _ => (c =? dot)%N
  | [] => false
  end.

Lemma listDirectoryRecursive_unfold (node : Node) (maxDepth currentDepth : nat) :
  listDirectoryRecursive node maxDepth currentDepth
  = if maxDepth <? currentDepth then Some []
    else
      match readdir node with
      | Some entries =>
          each_with (fun entry => listDirectoryRecursive entry maxDepth (S currentDepth))
            maxDepth currentDepth entries []
      | None => None
      end.
Proof. by destruct node as [|[entries|]]. Qed.

Lemma rows_unfold (node : Node) (maxDepth currentDepth : nat) :
  rows node maxDepth currentDepth
  = if maxDepth <? currentDepth then []
    else
      match readdir node with
      | Some entries =>
          rows_below (fun entry => rows entry maxDepth (S currentDepth))
            (currentDepth <? maxDepth) currentDepth entries
      | None => []
      end.
Proof. by destruct node as [|[entries|]]. Qed.

Lemma listDirectoryRecursive_rows (node : Node) (maxDepth : nat) :
  forall currentDepth,
    currentDepth <= maxDepth ->
    listDirectoryRecursive node maxDepth currentDepth
    = if listable node (maxDepth - currentDepth)
      then Some (render <$> rows node maxDepth currentDepth)
      else None.
Proof.
  induction node as [| |entries IH] using Node_nested_ind; intros currentDepth Hdepth;
    rewrite listDirectoryRecursive_unfold, rows_unfold;
    destruct (Nat.ltb_spec maxDepth currentDepth) as [?|_]; try lia; try done.
  cbn [readdir listable].
  assert (forall results,
             each_with (fun entry => listDirectoryRecursive entry maxDepth (S currentDepth))
               maxDepth currentDepth entries results
             = if match maxDepth - currentDepth with
                  | O => true
                  | S levels' => listable_below (fun entry => listable entry levels') entries
                  end
               then Some (results
                            ++ (render <$>
                                  rows_below (fun entry => rows entry maxDepth (S currentDepth))
                                    (currentDepth <? maxDepth) currentDepth entries))
               else None) as Hloop; [|by rewrite Hloop].
  induction entries as [|[name entry] entries IHentries]; intros results.
  { cbn. rewrite app_nil_r. by destruct (maxDepth - currentDepth). }
  apply Forall_cons in IH as [IHentry IH]. specialize (IHentries IH). clear IH.
  cbn [each_with rows_below listable_below]. cbn [snd] in IHentry.
  destruct (isDirectory entry) eqn:Hdir; cbn [negb orb].
  - destruct (Nat.ltb_spec currentDepth maxDepth) as [Hlt|Hge].
    + rewrite IHentry by lia.
      destruct (maxDepth - currentDepth) as [|levels'] eqn:Hlevels; [lia|].
      replace (maxDepth - S currentDepth) with levels' by lia.
      cbn [negb orb].
      destruct (listable entry levels'); [|done]. cbn [andb].
      rewrite IHentries. destruct (listable_below _ entries); [|done].
      f_equal. rewrite fmap_app, fmap_cons, <- !app_assoc. done.
    + replace (maxDepth - currentDepth) with 0 in * by lia.
      rewrite IHentries. f_equal. cbn [app fmap list_fmap]. by rewrite <- app_assoc.
  - rewrite IHentries.
    destruct (maxDepth - currentDepth) as [|levels']; cbn [andb].
    + f_equal. cbn [app fmap list_fmap]. by rewrite <- app_assoc.
    + destruct (listable_below _ entries); [|done].
      f_equal. cbn [app fmap list_fmap]. by rewrite <- app_assoc.
Qed.

(** The line of an entry of the listed directory itself. *)
Definition top_line (currentDepth : nat) (entry : jsstring * Node) : jsstring :=
  render (mkRow currentDepth (isDirectory entry.2) entry.1).

Lemma rows_depth (node : Node) (maxDepth : nat) :
  forall currentDepth,
    Forall (fun row => currentDepth <= depth row <= maxDepth)
      (rows node maxDepth currentDepth).
Proof.
  induction node as [| |entries IH] using Node_nested_ind; intros currentDepth;
    rewrite rows_unfold; destruct (Nat.ltb_spec maxDepth currentDepth) as [?|Hdepth];
    try done.
  cbn [readdir].
  induction entries as [|[name entry] entries IHentries]; [done|].
  apply Forall_cons in IH as [IHentry IH]. cbn [snd] in IHentry.
  cbn [rows_below]. apply Forall_app. split; [|by apply IHentries].
  destruct (isDirectory entry).
  - constructor; [cbn; lia|].
    destruct (currentDepth <? maxDepth); [|done].
    eapply Forall_impl; [apply IHentry|]. cbn. lia.
  - repeat constructor; cbn; lia.
Qed.

Lemma filter_fmap {A B} (f : B -> bool) (g : A -> B) (l : list A) :
  List.filter f (g <$> l) = g <$> List.filter (fun x => f (g x)) l.
Proof.
  induction l as [|x l IH]; [done|]. cbn [fmap list_fmap List.filter].
  fold (fmap g l). rewrite IH. by destruct (f (g x)).
Qed.

Lemma filter_none {A} (f : A -> bool) (l : list A) :
  Forall (fun x => f x = false) l -> List.filter f l = [].
Proof.
  induction 1 as [|x l Hx _ IH]; [done|]. cbn [List.filter]. by rewrite Hx.
Qed.

Lemma filter_app' {A} (f : A -> bool) (l k : list A) :
  List.filter f (l ++ k) = List.filter f l ++ List.filter f k.
Proof.
  induction l as [|x l IH]; [done|]. cbn [app List.filter]. rewrite IH.
  by destruct (f x).
Qed.

Lemma rows_top (node : Node) (maxDepth currentDepth : nat) :
  currentDepth <= maxDepth ->
  List.filter (fun row => depth row =? currentDepth) (rows node maxDepth currentDepth)
  = (fun entry => mkRow currentDepth (isDirectory entry.2) entry.1)
      <$> default [] (readdir node).
Proof.
  intros Hdepth. rewrite rows_unfold.
  destruct (Nat.ltb_spec maxDepth currentDepth) as [?|_]; [lia|].
  destruct (readdir node) as [entries|]; [|done].
  change (default [] (Some entries)) with entries.
  induction entries as [|[name entry] entries IH]; [done|].
  cbn [rows_below]. rewrite filter_app', IH. cbn [fmap list_fmap fst snd].
  assert (List.filter (fun row => depth row =? currentDepth)
            (if currentDepth <? maxDepth then rows entry maxDepth (S currentDepth) else [])
          = []) as Hbelow.
  { destruct (currentDepth <? maxDepth); [|done].
    apply filter_none. eapply Forall_impl; [apply rows_depth|].
    cbn. intros row Hrow. apply Nat.eqb_neq. lia. }
  destruct (isDirectory entry).
  - cbn [app List.filter depth]. by rewrite Nat.eqb_refl, Hbelow.
  - cbn [app List.filter depth]. by rewrite Nat.eqb_refl.
Qed.

Lemma indent_S (currentDepth : nat) :
  indent (S currentDepth) = space :: space :: indent currentDepth.
Proof. reflexivity. Qed.

Lemma startsWith_space (row : Row) :
  startsWith (render row) [space] = negb (depth row =? 0).
Proof.
  destruct row as [[|k] [] name]; reflexivity.
Qed.

Lemma trimStart_indent (currentDepth : nat) (s : jsstring) :
  trimStart (indent currentDepth ++ s) = trimStart s.
Proof.
  induction currentDepth as [|k IH]; [done|]. by rewrite indent_S.
Qed.

Lemma trimEnd_cons (c : N) (s : jsstring) :
  isWhiteSpace c = false -> trimEnd (c :: s) = c :: trimEnd s.
Proof. intros Hc. cbn [trimEnd]. rewrite Hc. by destruct (trimEnd s). Qed.

Lemma trimEnd_head (c : N) (s : jsstring) :
  trimEnd (c :: s) = [] \/ exists t, trimEnd (c :: s) = c :: t.
Proof.
  cbn [trimEnd]. destruct (trimEnd s); [|by eauto].
  destruct (isWhiteSpace c); eauto.
Qed.

Lemma startsWith_space_dot (s : jsstring) :
  startsWith (trimEnd (space :: s)) [space; dot] = begins_with_dot s.
Proof.
  destruct s as [|c s]; [done|]. cbn [begins_with_dot].
  destruct (N.eqb_spec c dot) as [->|Hne].
  - change (trimEnd (space :: dot :: s)) with
      (match trimEnd (dot :: s) with [] => [] | d :: t => space :: d :: t end).
    rewrite trimEnd_cons by done. cbn [startsWith]. by rewrite !N.eqb_refl.
  - change (trimEnd (space :: c :: s)) with
      (match trimEnd (c :: s) with [] => [] | d :: t => space :: d :: t end).
    destruct (trimEnd_head c s) as [-> | [t ->]]; [done|].
    cbn [startsWith]. rewrite N.eqb_refl, (proj2 (N.eqb_neq c dot)) by done. done.
Qed.

Lemma startsWith_cons (d c : N) (s searchString : jsstring) :
  startsWith (d :: s) (c :: searchString) = (d =? c)%N && startsWith s searchString.
Proof. reflexivity. Qed.

Lemma shown_render (row : Row) : shown (render row) = negb (begins_with_dot (name row)).
Proof.
  destruct row as [k isdir name]. unfold shown, trim, render. cbn [is_directory depth Listing.name].
  destruct isdir; unfold directory_line, file_line; rewrite trimStart_indent.
  - change (trimStart (folder_icon ++ space :: name ++ [slash]))
      with (folder_icon ++ space :: name ++ [slash]).
    unfold folder_icon, page_icon. cbn [app]. rewrite !trimEnd_cons by done.
    rewrite !startsWith_cons, !N.eqb_refl.
    change (56513 =? 56516)%N with false. cbn [andb negb].
    rewrite andb_true_r, startsWith_space_dot.
    by destruct name as [|c name].
  - change (trimStart (page_icon ++ space :: name)) with (page_icon ++ space :: name).
    unfold folder_icon, page_icon. cbn [app]. rewrite !trimEnd_cons by done.
    rewrite !startsWith_cons, !N.eqb_refl.
    change (56516 =? 56513)%N with false. cbn [andb negb].
    by rewrite startsWith_space_dot.
Qed.

Lemma filter_all {A} (f : A -> bool) (l : list A) :
  Forall (fun x => f x = true) l -> List.filter f l = l.
Proof.
  induction 1 as [|x l Hx _ IH]; [done|]. cbn [List.filter]. by rewrite Hx, IH.
Qed.

Lemma rows_flat (node : Node) :
  rows node 0 0
  = (fun entry => mkRow 0 (isDirectory entry.2) entry.1) <$> default [] (readdir node).
Proof.
  rewrite <- (rows_top node 0 0) by done. symmetry. apply filter_all.
  eapply Forall_impl; [apply rows_depth|]. cbn. intros row Hrow.
  apply Nat.eqb_eq. lia.
Qed.

Lemma listable_below_unreadable (recurse : Node -> bool) entries (name : jsstring) :
  recurse (Dir None) = false ->
  (name, Dir None) ∈ entries -> listable_below recurse entries = false.
Proof.
  intros Hrecurse. induction entries as [|[name' entry] entries IH]; intros Hin.
  - by apply elem_of_nil in Hin.
  - cbn [listable_below]. apply elem_of_cons in Hin as [[= <- <-]|Hin].
    + cbn [isDirectory negb orb]. by rewrite Hrecurse.
    + rewrite IH by done. apply andb_false_r.
Qed.

(** X24 (a listing is all or nothing): the call of the handler returns the
    lines of all entries down to [maxDepth], in pre-order, when the directory
    and every directory less than [maxDepth] levels below it can be listed,
    and is rejected otherwise.  So with [maxDepth] 0 a directory that can be
    listed is always listed, by its own entries alone; and with a larger
    [maxDepth] one entry that is a directory and cannot be listed makes the
    whole call fail, whatever else the directory holds. *)
Theorem listDirectoryRecursive_all_or_nothing (node : Node) (maxDepth : nat) :
  listDirectoryRecursive node maxDepth 0
  = (if listable node maxDepth then Some (render <$> rows node maxDepth 0) else None)
  /\ (forall entries,
        listDirectoryRecursive (Dir (Some entries)) 0 0 = Some (top_line 0 <$> entries))
  /\ (forall entries name,
        (name, Dir None) ∈ entries ->
        listDirectoryRecursive (Dir (Some entries)) (S maxDepth) 0 = None).
Proof.
  split; [|split].
  - rewrite listDirectoryRecursive_rows by lia. by rewrite Nat.sub_0_r.
  - intros entries. rewrite listDirectoryRecursive_rows by lia.
    cbn [Nat.sub listable]. rewrite rows_flat. cbn [readdir default from_option].
    by rewrite <- list_fmap_compose.
  - intros entries name Hin. rewrite listDirectoryRecursive_rows by lia.
    cbn [Nat.sub listable]. by rewrite (listable_below_unreadable _ entries name).
Qed.

(** X25 (depth of a listing): when the call of the handler returns, each
    of its lines is the line of an entry at most [maxDepth] levels down, and
    the lines that are not indented are the lines of the entries of the
    directory itself, all of them and in the order of its listing. *)
Theorem listDirectoryRecursive_depth (node : Node) (maxDepth : nat) (lines : list jsstring) :
  listDirectoryRecursive node maxDepth 0 = Some lines ->
  Forall (fun line => exists row, line = render row /\ depth row <= maxDepth) lines
  /\ exists entries,
       readdir node = Some entries
       /\ List.filter (fun line => negb (startsWith line [space])) lines
          = top_line 0 <$> entries.
Proof.
  rewrite listDirectoryRecursive_rows by lia. rewrite Nat.sub_0_r.
  destruct (listable node maxDepth) eqn:Hlistable; [|done]. intros [= <-]. split.
  - apply Forall_fmap. eapply Forall_impl; [apply rows_depth|].
    intros row [_ Hrow]. by exists row.
  - destruct node as [|[entries|]]; try done. exists entries. split; [done|].
    rewrite filter_fmap.
    rewrite (filter_ext _ (fun row => depth row =? 0)%nat).
    + rewrite rows_top by lia. cbn [readdir default from_option].
      by rewrite <- list_fmap_compose.
    + intros row. rewrite startsWith_space. by destruct (depth row =? 0).
Qed.

Section HandlerFacts.

Variable normalizePath : jsstring -> jsstring.
Variable fs : jsstring -> option Node.

(** X26 ([fc_list_directory]): the reply is an error exactly when nothing
    is at the normalised path, or what is there is not a directory that can
    be listed with every directory less than [depth] levels below it.
    Otherwise the text is made of the lines of the entries down to [depth];
    without [show_hidden], exactly the lines of the entries whose own name
    begins with a dot are left out, so what lies below a hidden directory is
    still listed; and the note for an empty directory stands in when no line
    is left. *)
Theorem fc_list_directory_spec (path : jsstring) (depth : nat) (show_hidden : bool) :
  let dirPath := normalizePath path in
  let reply := fc_list_directory normalizePath fs path depth show_hidden in
  (isError reply = true
   <-> fs dirPath = None \/ exists node, fs dirPath = Some node /\ listable node depth = false)
  /\ (forall node,
        fs dirPath = Some node -> listable node depth = true ->
        reply
        = ok (Listed dirPath
                (or_empty_note
                   (Lines.join Lines.LF
                      (render <$>
                         List.filter
                           (fun row => show_hidden || negb (begins_with_dot (name row)))
                           (rows node depth 0)))))).
Proof.
  intros dirPath reply. subst reply. unfold fc_list_directory. fold dirPath.
  destruct (fs dirPath) as [node|] eqn:Hfs.
  2: { split; [|done]. split; [by left | done]. }
  assert (listable node depth = true ->
          isDirectory node = true
          /\ listDirectoryRecursive node depth 0 = Some (render <$> rows node depth 0))
    as Hlisted.
  { intros Hlistable. split; [by destruct node as [|[?|]]|].
    rewrite listDirectoryRecursive_rows by lia. by rewrite Nat.sub_0_r, Hlistable. }
  assert (listable node depth = false -> listDirectoryRecursive node depth 0 = None)
    as Hfailed.
  { intros Hlistable.
    rewrite listDirectoryRecursive_rows by lia. by rewrite Nat.sub_0_r, Hlistable. }
  destruct (listable node depth) eqn:Hlistable.
  - destruct Hlisted as [-> ->]; [done|]. cbn [negb]. split.
    + split; [done|]. intros [?|(node' & [= <-] & ?)]; congruence.
    + intros node' [= <-] _. do 3 f_equal. destruct show_hidden.
      * rewrite filter_all; [done|]. by apply Forall_true.
      * rewrite filter_fmap.
        rewrite (filter_ext _ (fun row => false || negb (begins_with_dot (name row))));
          [done|].
        intros row. by rewrite shown_render.
  - split; [|intros node' [= <-] ?; congruence].
    split; [intros _; right; by exists node|]. intros _.
    rewrite Hfailed by done. by destruct (isDirectory node).
Qed.

End HandlerFacts.

(** A project directory with a hidden directory in it. *)
Definition project : Node :=
  Dir (Some [(str ".git", Dir (Some [(str "config", File)]));
             (str "src", Dir (Some [(str "index.ts", File)]));
             (str "README.md", File)]).

Definition project_fs (targetPath : jsstring) : option Node :=
  if decide (targetPath = str "/project") then Some project else None.

Lemma listDirectoryRecursive_depth_witness :
  exists lines,
    listDirectoryRecursive project 1 0 = Some lines
    /\ Forall (fun line => exists row, line = render row /\ depth row <= 1) lines
    /\ exists entries,
         readdir project = Some entries
         /\ List.filter (fun line => negb (startsWith line [space])) lines
            = top_line 0 <$> entries.
Proof.
  eexists. split; [reflexivity|].
  apply (listDirectoryRecursive_depth project 1). reflexivity.
Defined.

Lemma fc_list_directory_spec_witness :
  fc_list_directory (fun p => p) project_fs (str "/project") 1 false
  = ok (Listed (str "/project")
          (Lines.join Lines.LF
             [file_line 1 (str "config");
              directory_line 0 (str "src");
              file_line 1 (str "index.ts");
              file_line 0 (str "README.md")])).
Proof.
  exact (proj2 (fc_list_directory_spec (fun p => p) project_fs (str "/project") 1 false)
           project eq_refl eq_refl).
Defined.

End Listing.

(** ** Replacing a string in a file *)

Module StrReplace.

Import Wildcard.

Local Open Scope nat_scope.

Definition grave : N := 96.
Definition ampersand : N := 38.
Definition apostrophe : N := 39.

(** [StringIndexOf(s, searchValue, 0)]: the least index at which
    [searchValue] begins in [s]. *)
Fixpoint StringIndexOf (s searchValue : jsstring) {struct s} : option nat :=
  if Listing.startsWith s searchValue then Some 0
  else
    match s with
    | [] => None
    | _ :: s' => S <$> StringIndexOf s' searchValue
    end.

(** [s.indexOf(searchValue)] *)
Definition indexOf (s searchValue : jsstring) : Z :=
  match StringIndexOf s searchValue with
  | Some k => Z.of_nat k
  | None => (-1)%Z
  end.

(** [s.substring(start, end)] *)
Definition substring (s : jsstring) (start stop : Z) : jsstring :=
  let len := Z.of_nat (length s) in
  let finalStart := Z.min (Z.max start 0) len in
  let finalEnd := Z.min (Z.max stop 0) len in
  let from := Z.min finalStart finalEnd in
  let to := Z.max finalStart finalEnd in
  take (Z.to_nat (to - from)) (drop (Z.to_nat from) s).

(** [s.split(separator)] for a separator of at least one unit, read from
    the left: at an index where the separator begins, the piece ends and the
    units of the separator are passed over ([skip] counts those still to
    pass); the search for the next separator starts after them. *)
Fixpoint split_from (skip : nat) (s separator : jsstring) {struct s} : list jsstring :=
  match s with
  | [] => [[]]
  | c :: s' =>
      match skip with
      | S skip' => split_from skip' s' separator
      | O =>
          if Listing.startsWith s separator
          then [] :: split_from (length separator - 1) s' separator
          else
            match split_from 0 s' separator with
            | piece :: pieces => (c :: piece) :: pieces
            | [] => [[c]]
            end
      end
  end.

Definition split (s separator : jsstring) : list jsstring := split_from 0 s separator.

(** [GetSubstitution(matched, str, position, « », undefined, template)],
    with [preceding] and [following] the parts of [str] before and after the
    match.  Without captures, [$$], [$`], [$&] and [$'] are the patterns that
    stand for something else; a [$] before anything else stands for itself. *)
Fixpoint GetSubstitution (matched preceding following template : jsstring) : jsstring :=
  match template with
  | [] => []
  | c :: rest =>
      if (c =? dollar)%N then
        match rest with
        | d :: rest' =>
            if (d =? dollar)%N
            then dollar :: GetSubstitution matched preceding following rest'
            else if (d =? grave)%N
            then preceding ++ GetSubstitution matched preceding following rest'
            else if (d =? ampersand)%N
            then matched ++ GetSubstitution matched preceding following rest'
            else if (d =? apostrophe)%N
            then following ++ GetSubstitution matched preceding following rest'
            else dollar :: GetSubstitution matched preceding following rest
        | [] => [dollar]
        end
      else c :: GetSubstitution matched preceding following rest
  end.

(** [s.replace(searchValue, replaceValue)] for two strings: the first
    occurrence gives way to the substitution. *)
Definition replace (s searchValue replaceValue : jsstring) : jsstring :=
  match StringIndexOf s searchValue with
  | None => s
  | Some position =>
      let preceding := take position s in
      let following := drop (position + length searchValue) s in
      preceding ++ GetSubstitution searchValue preceding following replaceValue ++ following
  end.

Inductive Message :=
| FileNotFound (filePath : jsstring)
| IsDirectory (filePath : jsstring)
| StringNotFound (filePath old_str preview : jsstring)
| NotUnique (occurrences : Z) (old_str : jsstring)
| Replaced (filePath : jsstring) (lineChange : Z)
    (beforeContext new_str afterContext : jsstring).

Section Handler.

Variable normalizePath : jsstring -> jsstring.

(** [fc_str_replace] on the files as they are. *)
Definition fc_str_replace (path old_str new_str : jsstring)
    (files : gmap (list N) Lines.Entry)
  : ToolResult Message * gmap (list N) Lines.Entry :=
  let filePath := normalizePath path in
  match files !! filePath with
  | None => (failed (FileNotFound filePath), files)
  | Some Lines.Folder => (failed (IsDirectory filePath), files)
  | Some (Lines.Text content) =>
      let occurrences := (Z.of_nat (length (split content old_str)) - 1)%Z in
      if (occurrences =? 0)%Z then
        let preview :=
          if (500 <? Z.of_nat (length content))%Z
          then substring content 0 500 ++ str "..."
          else content in
        (failed (StringNotFound filePath old_str preview), files)
      else if (1 <? occurrences)%Z then (failed (NotUnique occurrences old_str), files)
      else
        let newContent := replace content old_str new_str in
        let oldLines := Z.of_nat (length (Lines.split Lines.LF old_str)) in
        let newLines := Z.of_nat (length (Lines.split Lines.LF new_str)) in
        let lineChange := (newLines - oldLines)%Z in
        let changeIndex := indexOf content old_str in
        let contextStart := Z.max 0 (changeIndex - 50) in
        let contextEnd :=
          Z.min (Z.of_nat (length content))
            (changeIndex + Z.of_nat (length old_str) + 50) in
        let beforeContext := substring content contextStart changeIndex in
        let afterContext :=
          substring content (changeIndex + Z.of_nat (length old_str)) contextEnd in
        (ok (Replaced filePath lineChange beforeContext new_str afterContext),
         <[filePath := Lines.Text newContent]> files)
  end.

End Handler.

(** *** Searching *)

Lemma startsWith_app (s searchValue : jsstring) :
  Listing.startsWith s searchValue = true <-> exists t, s = searchValue ++ t.
Proof.
  revert s. induction searchValue as [|c r IH]; intros s.
  - split; [by exists s | done].
  - destruct s as [|d s].
    + split; [done | by intros [t [=]]].
    + rewrite Listing.startsWith_cons, andb_true_iff, N.eqb_eq, IH. split.
      * intros [-> [t ->]]. by exists t.
      * intros [t [= -> ->]]. split; [done | by exists t].
Qed.

Lemma StringIndexOf_Some (s searchValue : jsstring) (k : nat) :
  StringIndexOf s searchValue = Some k ->
  Listing.startsWith (drop k s) searchValue = true
  /\ forall j, j < k -> Listing.startsWith (drop j s) searchValue = false.
Proof.
  revert k. induction s as [|c s IH]; intros k; cbn [StringIndexOf].
  - destruct (Listing.startsWith [] searchValue) eqn:Hhere; [|done].
    intros [= <-]. split; [done | lia].
  - destruct (Listing.startsWith (c :: s) searchValue) eqn:Hhere.
    + intros [= <-]. split; [done | lia].
    + destruct (StringIndexOf s searchValue) as [k'|]; [|done]. intros [= <-].
      destruct (IH k' eq_refl) as [Hat Hbefore]. split; [done|].
      intros [|j] Hj; [done|]. apply Hbefore. lia.
Qed.

Lemma StringIndexOf_None (s searchValue : jsstring) :
  StringIndexOf s searchValue = None ->
  forall j, Listing.startsWith (drop j s) searchValue = false.
Proof.
  induction s as [|c s IH]; cbn [StringIndexOf].
  - destruct (Listing.startsWith [] searchValue) eqn:Hhere; [done|].
    intros _ j. by rewrite drop_nil.
  - destruct (Listing.startsWith (c :: s) searchValue) eqn:Hhere; [done|].
    destruct (StringIndexOf s searchValue) as [k'|]; [done|]. intros _ [|j]; [done|].
    by apply IH.
Qed.

Lemma startsWith_drop (a searchValue b : jsstring) :
  Listing.startsWith (drop (length a) (a ++ searchValue ++ b)) searchValue = true.
Proof. rewrite drop_app_length. apply startsWith_app. by exists b. Qed.

Lemma startsWith_occurs (s searchValue : jsstring) (k : nat) :
  Listing.startsWith (drop k s) searchValue = true ->
  searchValue <> [] ->
  k + length searchValue <= length s
  /\ s = take k s ++ searchValue ++ drop (k + length searchValue) s.
Proof.
  intros [t Ht]%startsWith_app Hne.
  assert (length (drop k s) = length searchValue + length t) as Hlen
      by (by rewrite Ht, length_app).
  rewrite length_drop in Hlen.
  assert (length searchValue <> 0) by (by destruct searchValue).
  split; [lia|].
  rewrite <- (take_drop k s) at 1. f_equal.
  rewrite <- drop_drop, Ht, drop_app_length. done.
Qed.

(** No occurrence at all, and the leftmost occurrence. *)
Lemma StringIndexOf_None_iff (s searchValue : jsstring) :
  StringIndexOf s searchValue = None <-> forall a b, s <> a ++ searchValue ++ b.
Proof.
  split.
  - intros Hnone a b ->.
    pose proof (StringIndexOf_None _ _ Hnone (length a)) as Hno.
    by rewrite startsWith_drop in Hno.
  - intros Hno. destruct (StringIndexOf s searchValue) as [k|] eqn:Hk; [|done].
    apply StringIndexOf_Some in Hk as [[t Ht]%startsWith_app _].
    destruct (Hno (take k s) t). by rewrite <- Ht, take_drop.
Qed.

Lemma StringIndexOf_leftmost (before searchValue after : jsstring) :
  searchValue <> [] ->
  (forall a b, before ++ searchValue ++ after = a ++ searchValue ++ b ->
               length before <= length a) ->
  StringIndexOf (before ++ searchValue ++ after) searchValue = Some (length before).
Proof.
  intros Hne Hleft. set (s := before ++ searchValue ++ after) in *.
  destruct (StringIndexOf s searchValue) as [k|] eqn:Hk.
  - apply StringIndexOf_Some in Hk as [Hat Hbefore].
    destruct (startsWith_occurs _ _ _ Hat Hne) as [Hfits Hs].
    assert (length before <= k) as Hle.
    { specialize (Hleft _ _ Hs). rewrite length_take in Hleft. lia. }
    destruct (decide (length before < k)) as [Hlt|?]; [|f_equal; lia].
    specialize (Hbefore _ Hlt). subst s. by rewrite startsWith_drop in Hbefore.
  - pose proof (StringIndexOf_None _ _ Hk (length before)) as Hno.
    subst s. by rewrite startsWith_drop in Hno.
Qed.

(** *** Counting *)

Lemma split_from_skip (skip : nat) (s separator : jsstring) :
  split_from skip s separator = split_from 0 (drop skip s) separator.
Proof.
  revert skip. induction s as [|c s IH]; intros [|skip]; try done.
  cbn [split_from drop]. apply IH.
Qed.

Lemma split_found (s separator : jsstring) (k : nat) :
  separator <> [] ->
  StringIndexOf s separator = Some k ->
  split s separator
  = take k s :: split (drop (k + length separator) s) separator.
Proof.
  intros Hne. unfold split. revert k. induction s as [|c s IH]; intros k; cbn [StringIndexOf].
  - destruct (Listing.startsWith [] separator) eqn:Hhere; [|done].
    by destruct separator.
  - cbn [split_from]. destruct (Listing.startsWith (c :: s) separator) eqn:Hhere.
    + intros [= <-]. cbn [take]. f_equal. rewrite split_from_skip.
      destruct separator as [|d separator]; [done|]. cbn [length Nat.add drop].
      by replace (S (length separator) - 1) with (length separator) by lia.
    + destruct (StringIndexOf s separator) as [k'|]; [|done]. intros [= <-].
      by rewrite (IH k' eq_refl).
Qed.

Lemma split_none (s separator : jsstring) :
  StringIndexOf s separator = None -> split s separator = [s].
Proof.
  unfold split. induction s as [|c s IH]; cbn [StringIndexOf].
  - by destruct (Listing.startsWith [] separator).
  - cbn [split_from]. destruct (Listing.startsWith (c :: s) separator); [done|].
    destruct (StringIndexOf s separator) as [k'|]; [done|]. intros _.
    by rewrite IH.
Qed.

Lemma split_from_pieces (skip : nat) (s separator : jsstring) :
  1 <= length (split_from skip s separator).
Proof.
  revert skip. induction s as [|c s IH]; intros skip; [done|].
  cbn [split_from]. destruct skip as [|skip]; [|apply IH].
  destruct (Listing.startsWith (c :: s) separator); [cbn [length]; lia|].
  destruct (split_from 0 s separator); cbn [length]; lia.
Qed.

Lemma split_length (s separator : jsstring) :
  separator <> [] ->
  length (split s separator)
  = match StringIndexOf s separator with
    | None => 1
    | Some k =>
        match StringIndexOf (drop (k + length separator) s) separator with
        | None => 2
        | Some k' =>
            3 + (length (split (drop (k' + length separator)
                                  (drop (k + length separator) s)) separator) - 1)
        end
    end.
Proof.
  intros Hne. destruct (StringIndexOf s separator) as [k|] eqn:Hk.
  - rewrite (split_found _ _ _ Hne Hk). cbn [length].
    destruct (StringIndexOf (drop _ s) separator) as [k'|] eqn:Hk'.
    + rewrite (split_found _ _ _ Hne Hk'). cbn [length].
      pose proof (split_from_pieces 0 (drop (k' + length separator)
                                         (drop (k + length separator) s)) separator).
      unfold split. lia.
    + by rewrite (split_none _ _ Hk').
  - by rewrite (split_none _ _ Hk).
Qed.

Lemma substring_take_drop (s : jsstring) (a b : nat) :
  a <= b -> b <= length s ->
  substring s (Z.of_nat a) (Z.of_nat b) = take (b - a) (drop a s).
Proof.
  intros Hab Hb. unfold substring.
  replace (Z.max (Z.of_nat a) 0) with (Z.of_nat a) by lia.
  replace (Z.max (Z.of_nat b) 0) with (Z.of_nat b) by lia.
  replace (Z.min (Z.of_nat a) (Z.of_nat (length s))) with (Z.of_nat a) by lia.
  replace (Z.min (Z.of_nat b) (Z.of_nat (length s))) with (Z.of_nat b) by lia.
  replace (Z.min (Z.of_nat a) (Z.of_nat b)) with (Z.of_nat a) by lia.
  replace (Z.max (Z.of_nat a) (Z.of_nat b)) with (Z.of_nat b) by lia.
  f_equal; [lia|]. f_equal. lia.
Qed.

Section Facts.

Variable normalizePath : jsstring -> jsstring.

(** The handler by the first two searches. *)
Lemma fc_str_replace_cases path old_str new_str files content :
  files !! normalizePath path = Some (Lines.Text content) ->
  old_str <> [] ->
  fc_str_replace normalizePath path old_str new_str files
  = match StringIndexOf content old_str with
    | None =>
        (failed (StringNotFound (normalizePath path) old_str
                   (if (500 <? Z.of_nat (length content))%Z
                    then substring content 0 500 ++ str "..."
                    else content)),
         files)
    | Some k =>
        let preceding := take k content in
        let following := drop (k + length old_str) content in
        match StringIndexOf following old_str with
        | Some _ =>
            (failed (NotUnique (Z.of_nat (length (split content old_str)) - 1) old_str),
             files)
        | None =>
            (ok (Replaced (normalizePath path)
                   (Z.of_nat (length (Lines.split Lines.LF new_str))
                    - Z.of_nat (length (Lines.split Lines.LF old_str)))
                   (drop (k - 50) preceding) new_str (take 50 following)),
             <[normalizePath path :=
                 Lines.Text (preceding
                             ++ GetSubstitution old_str preceding following new_str
                             ++ following)]> files)
        end
    end.
Proof.
  intros Hfile Hne. unfold fc_str_replace. rewrite Hfile.
  rewrite (split_length _ _ Hne). unfold replace, indexOf.
  destruct (StringIndexOf content old_str) as [k|] eqn:Hk; [|done].
  cbn zeta. destruct (StringIndexOf (drop _ content) old_str) as [k'|] eqn:Hk'.
  - match goal with
    | |- context [(Z.of_nat (3 + ?m) - 1 =? 0)%Z] =>
        destruct (Z.eqb_spec (Z.of_nat (3 + m) - 1) 0) as [?|_]; [lia|];
        destruct (Z.ltb_spec 1 (Z.of_nat (3 + m) - 1)) as [_|?]; [|lia]
    end.
    done.
  - change (Z.of_nat 2 - 1 =? 0)%Z with false. change (1 <? Z.of_nat 2 - 1)%Z with false.
    cbv iota.
    apply StringIndexOf_Some in Hk as [Hat _].
    destruct (startsWith_occurs _ _ _ Hat Hne) as [Hfits _].
    set (n := length old_str) in *.
    replace (Z.max 0 (Z.of_nat k - 50)) with (Z.of_nat (k - 50)) by lia.
    replace (Z.min (Z.of_nat (length content)) (Z.of_nat k + Z.of_nat n + 50))
      with (Z.of_nat (Nat.min (length content) (k + n + 50))) by lia.
    replace (Z.of_nat k + Z.of_nat n)%Z with (Z.of_nat (k + n)) by lia.
    rewrite !substring_take_drop by lia.
    rewrite take_drop_commute.
    replace (k - 50 + (k - (k - 50))) with k by lia.
    replace (take (length content `min` (k + n + 50) - (k + n)) (drop (k + n) content))
      with (take 50 (drop (k + n) content)); [done|].
    destruct (decide (k + n + 50 <= length content)).
    + f_equal. lia.
    + rewrite !take_ge; [done | rewrite length_drop; lia ..].
Qed.

(** [old_str] begins in [before ++ old_str ++ after] at the end of
    [before] and nowhere to the left of it, and does not occur in [after]. *)
Definition only_at (before old_str after : jsstring) : Prop :=
  (forall a b, before ++ old_str ++ after = a ++ old_str ++ b -> length before <= length a)
  /\ (forall a b, after <> a ++ old_str ++ b).

Lemma fc_str_replace_at path old_str new_str files before after :
  files !! normalizePath path = Some (Lines.Text (before ++ old_str ++ after)) ->
  old_str <> [] ->
  only_at before old_str after ->
  fc_str_replace normalizePath path old_str new_str files
  = (ok (Replaced (normalizePath path)
           (Z.of_nat (length (Lines.split Lines.LF new_str))
            - Z.of_nat (length (Lines.split Lines.LF old_str)))
           (drop (length before - 50) before) new_str (take 50 after)),
     <[normalizePath path :=
         Lines.Text (before ++ GetSubstitution old_str before after new_str ++ after)]>
       files).
Proof.
  intros Hfile Hne [Hleft Hrest].
  rewrite (fc_str_replace_cases _ _ _ _ _ Hfile Hne).
  rewrite (StringIndexOf_leftmost _ _ _ Hne Hleft). cbn zeta.
  rewrite take_app_length.
  rewrite <- drop_drop, drop_app_length, drop_app_length.
  by rewrite (proj2 (StringIndexOf_None_iff after old_str) Hrest).
Qed.

Lemma StringIndexOf_only_at (content old_str : jsstring) (k : nat) :
  old_str <> [] ->
  StringIndexOf content old_str = Some k ->
  StringIndexOf (drop (k + length old_str) content) old_str = None ->
  content = take k content ++ old_str ++ drop (k + length old_str) content
  /\ only_at (take k content) old_str (drop (k + length old_str) content).
Proof.
  intros Hne Hk Hrest. apply StringIndexOf_Some in Hk as [Hat Hbefore].
  destruct (startsWith_occurs _ _ _ Hat Hne) as [Hfits Hcontent].
  split; [done|]. split; [|by apply StringIndexOf_None_iff].
  intros a b Hab. rewrite <- Hcontent in Hab. rewrite length_take.
  destruct (decide (length a < k)) as [Hlt|?]; [|lia].
  specialize (Hbefore _ Hlt). rewrite Hab in Hbefore.
  by rewrite startsWith_drop in Hbefore.
Qed.

(** X27 (when a replacement is accepted): on a file with text and for an
    [old_str] of at least one unit, the replacement is accepted exactly when
    the text is [before ++ old_str ++ after] with no occurrence of [old_str]
    beginning to the left of that one and none in [after]: occurrences are
    counted from the left without overlap, so an occurrence that begins
    inside the first one does not count.  The reply says that the string was
    not found exactly when it does not occur; and a refused replacement
    leaves all files as they are. *)
Theorem fc_str_replace_accepts path old_str new_str files content :
  files !! normalizePath path = Some (Lines.Text content) ->
  old_str <> [] ->
  let reply := fc_str_replace normalizePath path old_str new_str files in
  (isError reply.1 = false
   <-> exists before after,
         content = before ++ old_str ++ after /\ only_at before old_str after)
  /\ ((exists preview,
         reply.1 = failed (StringNotFound (normalizePath path) old_str preview))
      <-> forall a b, content <> a ++ old_str ++ b)
  /\ (isError reply.1 = true -> reply.2 = files).
Proof.
  intros Hfile Hne reply. subst reply.
  assert ((exists before after,
              content = before ++ old_str ++ after /\ only_at before old_str after) ->
          isError (fc_str_replace normalizePath path old_str new_str files).1 = false)
    as Haccepted.
  { intros (before & after & -> & Honly). by rewrite (fc_str_replace_at _ _ _ _ _ _ Hfile). }
  rewrite (fc_str_replace_cases _ _ _ _ _ Hfile Hne) in *.
  rewrite <- StringIndexOf_None_iff.
  destruct (StringIndexOf content old_str) as [k|] eqn:Hk.
  - cbn zeta in *.
    destruct (StringIndexOf (drop (k + length old_str) content) old_str) as [k'|] eqn:Hk'.
    + cbn [fst snd failed isError] in *. split; [|split; [|done]].
      * split; [done | apply Haccepted].
      * split; [by intros [preview [=]] | done].
    + cbn [fst snd ok isError]. split; [|split; [|done]].
      * split; [|done]. intros _.
        destruct (StringIndexOf_only_at _ _ _ Hne Hk Hk') as [Hcontent Honly].
        by eexists _, _.
      * split; [by intros [preview [=]] | done].
  - cbn [fst snd failed isError] in *. split; [|split; [|done]].
    + split; [done | apply Haccepted].
    + split; [done | by eexists].
Qed.

Lemma GetSubstitution_plain (matched preceding following template : jsstring) :
  dollar ∉ template ->
  GetSubstitution matched preceding following template = template.
Proof.
  induction template as [|c rest IH]; [done|]. intros Hfree.
  assert (c <> dollar) as Hc by (intros ->; apply Hfree; left).
  cbn [GetSubstitution]. rewrite (proj2 (N.eqb_neq c dollar)) by done.
  rewrite IH; [done|]. intros Hin. apply Hfree. by right.
Qed.

(** Every [$] written twice. *)
Definition double_dollars : jsstring -> jsstring :=
  replace_each (fun c => (c =? dollar)%N) (fun _ => [dollar; dollar]).

Lemma GetSubstitution_double_dollars (matched preceding following text : jsstring) :
  GetSubstitution matched preceding following (double_dollars text) = text.
Proof.
  induction text as [|c text IH]; [done|].
  change (double_dollars (c :: text))
    with ((if (c =? dollar)%N then [dollar; dollar] else [c]) ++ double_dollars text).
  destruct (N.eqb_spec c dollar) as [->|Hc].
  - cbn [app GetSubstitution]. rewrite N.eqb_refl. by rewrite IH.
  - cbn [app GetSubstitution]. rewrite (proj2 (N.eqb_neq c dollar)) by done.
    by rewrite IH.
Qed.

(** X28 (what a replacement writes): when [old_str] is accepted, a
    [new_str] without a [$] takes its place as it is, the rest of the text is
    kept, no other file changes, and the reply shows up to 50 units of the
    text on either side.  A [new_str] is read as a replacement pattern,
    though: to have a text with [$] written as it is, each [$] has to be
    given twice. *)
Theorem fc_str_replace_literal path old_str new_str files before after :
  files !! normalizePath path = Some (Lines.Text (before ++ old_str ++ after)) ->
  old_str <> [] ->
  only_at before old_str after ->
  (dollar ∉ new_str ->
   fc_str_replace normalizePath path old_str new_str files
   = (ok (Replaced (normalizePath path)
            (Z.of_nat (length (Lines.split Lines.LF new_str))
             - Z.of_nat (length (Lines.split Lines.LF old_str)))
            (drop (length before - 50) before) new_str (take 50 after)),
      <[normalizePath path := Lines.Text (before ++ new_str ++ after)]> files))
  /\ (forall text,
        new_str = double_dollars text ->
        (fc_str_replace normalizePath path old_str new_str files).2
        = <[normalizePath path := Lines.Text (before ++ text ++ after)]> files).
Proof.
  intros Hfile Hne Honly. rewrite (fc_str_replace_at _ _ _ _ _ _ Hfile Hne Honly). split.
  - intros Hfree. by rewrite GetSubstitution_plain.
  - intros text ->. cbn [snd]. by rewrite GetSubstitution_double_dollars.
Qed.

(** X29 (replacement patterns): when [old_str] is accepted and [new_str]
    is one of the four patterns, the pattern is not written: [$$] writes one
    [$]; [$&] writes [old_str] back, so all files stay as they are; [$`]
    writes the text before the occurrence a second time, and [$'] the text
    after it. *)
Theorem fc_str_replace_patterns path old_str files before after :
  files !! normalizePath path = Some (Lines.Text (before ++ old_str ++ after)) ->
  old_str <> [] ->
  only_at before old_str after ->
  let written new_str := (fc_str_replace normalizePath path old_str new_str files).2 in
  written [dollar; dollar]
  = <[normalizePath path := Lines.Text (before ++ [dollar] ++ after)]> files
  /\ written [dollar; ampersand] = files
  /\ written [dollar; grave]
     = <[normalizePath path := Lines.Text (before ++ before ++ after)]> files
  /\ written [dollar; apostrophe]
     = <[normalizePath path := Lines.Text (before ++ after ++ after)]> files.
Proof.
  intros Hfile Hne Honly written. subst written. cbn beta.
  rewrite !(fc_str_replace_at _ _ _ _ _ _ Hfile Hne Honly). cbn [snd].
  repeat split.
  - cbn. rewrite app_nil_r. by apply insert_id.
  - cbn. by rewrite app_nil_r.
  - cbn. by rewrite app_nil_r.
Qed.

End Facts.

(** A text in which [aa] occurs at two indices that overlap. *)
Definition letters : jsstring := str "letters.txt".
Definition demo_files : gmap (list N) Lines.Entry :=
  <[letters := Lines.Text (str "xaaay")]> ∅.

Lemma only_at_demo : only_at (str "x") (str "aa") (str "ay").
Proof.
  split.
  - intros [|c a] b Hab; [done | cbn; lia].
  - intros [|c [|c' a]] b Hab; [done | done |].
    injection Hab as _ _ Hab. by destruct a.
Qed.

Lemma fc_str_replace_accepts_witness :
  demo_files !! letters = Some (Lines.Text (str "xaaay"))
  /\ isError (fc_str_replace id letters (str "aa") (str "b") demo_files).1 = false.
Proof.
  split; [reflexivity|].
  apply (proj1 (fc_str_replace_accepts id letters (str "aa") (str "b") demo_files
                  (str "xaaay") eq_refl ltac:(discriminate))).
  exists (str "x"), (str "ay"). split; [reflexivity | apply only_at_demo].
Defined.

Lemma fc_str_replace_literal_witness :
  (fc_str_replace id letters (str "aa") (str "$$") demo_files).2
  = <[letters := Lines.Text (str "x$ay")]> demo_files.
Proof.
  apply (proj2 (fc_str_replace_literal id letters (str "aa") (str "$$") demo_files
                  (str "x") (str "ay") eq_refl ltac:(discriminate) only_at_demo)
           (str "$")).
  reflexivity.
Defined.

Lemma fc_str_replace_patterns_witness :
  (fc_str_replace id letters (str "aa") (str "$&") demo_files).2 = demo_files.
Proof.
  exact (proj1 (proj2 (fc_str_replace_patterns id letters (str "aa") demo_files
                         (str "x") (str "ay") eq_refl ltac:(discriminate) only_at_demo))).
Defined.

End StrReplace.

(** ** Reading a file *)

Module ReadFile.

Local Open Scope Z_scope.

(** A file as the handler meets it: what [fs.readFile] returns for an
    encoding ([None]: it rejects, as for an encoding it does not know), and
    [stats.size]. *)
Record FileData := mkFileData {
  readFile : jsstring -> option jsstring;
  size : N
}.

Inductive Entry :=
| File (data : FileData)
| Folder.

Inductive Message :=
| FileNotFound (filePath : jsstring)
| IsDirectory (filePath : jsstring)
| FileContent (filePath size content : jsstring)
| ReadFailed.

(** The note that follows the lines shown: [remaining] is written in
    decimal. *)
Definition more_lines (remaining : Z) : jsstring :=
  [Lines.LF; Lines.LF] ++ str "... (" ++ str (pretty remaining) ++ str " weitere Zeilen)".

Section Handler.

Variable normalizePath : jsstring -> jsstring.
Variable formatFileSize : N -> jsstring.

(** [fc_read_file] *)
Definition fc_read_file (path encoding : jsstring) (max_lines : Z)
    (files : gmap (list N) Entry) : ToolResult Message :=
  let filePath := normalizePath path in
  match files !! filePath with
  | None => failed (FileNotFound filePath)
  | Some Folder => failed (IsDirectory filePath)
  | Some (File data) =>
      match readFile data encoding with
      | None => failed ReadFailed
      | Some text =>
          let content :=
            if 0 <? max_lines then
              let lines := Lines.split Lines.LF text in
              let content := Lines.join Lines.LF (JsArray.slice lines 0 max_lines) in
              if max_lines <? Z.of_nat (length lines)
              then content ++ more_lines (Z.of_nat (length lines) - max_lines)
              else content
            else text in
          ok (FileContent filePath (formatFileSize (size data)) content)
      end
  end.

(** X30 (how much of a file is shown): for a file that can be read in the
    encoding asked for: with [max_lines] 0, or when the text has at most
    [max_lines] lines, the text is shown exactly as it is; otherwise the
    first [max_lines] lines are shown and nothing else of the text, followed
    by the note with the number of lines left out. *)
Theorem fc_read_file_lines (path encoding : jsstring) (max_lines : Z)
    (files : gmap (list N) Entry) (data : FileData) (text : jsstring) :
  files !! normalizePath path = Some (File data) ->
  readFile data encoding = Some text ->
  let lines := Lines.split Lines.LF text in
  exists content,
    fc_read_file path encoding max_lines files
    = ok (FileContent (normalizePath path) (formatFileSize (size data)) content)
    /\ (max_lines <= 0 \/ Z.of_nat (length lines) <= max_lines -> content = text)
    /\ (0 < max_lines < Z.of_nat (length lines) ->
        content
        = Lines.join Lines.LF (take (Z.to_nat max_lines) lines)
          ++ more_lines (Z.of_nat (length lines) - max_lines)).
Proof.
  intros Hfile Hread lines. unfold fc_read_file. rewrite Hfile, Hread. fold lines.
  eexists. split; [reflexivity|].
  destruct (Z.ltb_spec 0 max_lines) as [Hpos|Hzero].
  - rewrite Lines.slice_take by lia.
    destruct (Z.ltb_spec max_lines (Z.of_nat (length lines))) as [Hmore|Hall].
    + split; [lia | done].
    + split; [|lia]. intros _. rewrite take_ge by lia. apply Lines.join_split.
  - split; [done | lia].
Qed.

End Handler.

(** A file of three lines that is read as UTF-8 only. *)
Definition notes_data : FileData :=
  mkFileData
    (fun encoding => if decide (encoding = str "utf-8") then Some Lines.notes_text else None)
    13.

Definition demo_files : gmap (list N) Entry := <[Lines.notes := File notes_data]> ∅.

Lemma fc_read_file_lines_witness :
  exists content,
    fc_read_file id (fun _ => str "13 B") Lines.notes (str "utf-8") 2 demo_files
    = ok (FileContent Lines.notes (str "13 B") content)
    /\ (2 <= 0 \/ 3 <= 2 -> content = Lines.notes_text)
    /\ (0 < 2 < 3 ->
        content = str "one" ++ Lines.LF :: str "two" ++ more_lines 1).
Proof.
  exact (fc_read_file_lines id (fun _ => str "13 B") Lines.notes (str "utf-8") 2
           demo_files notes_data Lines.notes_text eq_refl eq_refl).
Defined.

End ReadFile.

